(** * CyberLabCaseTracker: the geocoding pipeline of the map view

    A shallow embedding of the geocode cache ([get_cached_location_db],
    [add_cached_location_db]), of the grouping and marker placement done by
    [CaseLogApp.load_map_markers] and [CaseLogApp._place_map_marker], and of
    the background worker [CaseLogApp._geocode_locations_worker] with the
    poller [CaseLogApp._process_geocoding_results], all of
    [CyberLabCaseTracker.py].

    Conventions.
    - A Python [str] is the Rocq string of its UTF-8 encoding, a byte per
      [ascii]: equality, concatenation and the order of [sorted] are those
      of the code points, and [str.strip] removes the encodings of the
      characters Python counts as whitespace.
    - Latitudes and longitudes are Python floats that the program only
      stores, passes on and hands to the map widget; they are values of an
      arbitrary type [coord].
    - A [try: ... except Exception] block is a computation with an explicit
      outcome ([Return] or [Raise]) followed by its handler.
    - What the environment decides (whether an sqlite call raises, what the
      geocoding provider answers, how long it takes) is read from an
      [environment] record.
    - The worker thread and the Tk event loop interleave at the granularity
      of one worker loop iteration and one poll callback.
    - Whether the map widget has the method [delete_all_markers], which
      [load_map_markers] asks with [hasattr], is decided by the installed
      map library: it is a field of the [environment].
    - The box [on_marker_click] shows is the pair of its title and its
      message.
    - The text of the status label and the shutdown handler are left out.

    The development goes on with the rest of the database layer: the case
    table by id ([get_case_by_id_db], [delete_case_db]), the settings table
    with the password ([verify_password], [update_password_db]), the combo
    lists and the user preferences ([get_combo_values_db],
    [set_combo_values_db], [get_user_pref], [set_user_pref]), and the two
    dialogs that ask for the password ([change_password_prompt],
    [clear_application_data_prompt]).
    - [hash_password], [json.dumps] and [json.loads] are parameters, and so
      are the type of the numbers of a JSON value and the conversion SQLite
      applies to a text that is compared with the INTEGER column [id].
    - What the user enters in a dialog is an argument of the method, [None]
      when the dialog is cancelled.
    - The other message boxes and the widgets redrawn after a change are
      left out. *)

From stdpp Require Import gmap strings list.
From Stdlib Require Import Ascii String Sorted.

Local Open Scope string_scope.
Local Open Scope list_scope.
Local Open Scope nat_scope.
Local Open Scope stdpp_scope.

(** ** Python strings *)

Module Py.

(** [str.isspace] of a character, by the length of its encoding. One
    byte: TAB, LF, VT, FF, CR, the four separators FS, GS, RS, US and the
    space. *)
Definition isspace (a : ascii) : bool :=
  let n := nat_of_ascii a in
  ((9 <=? n) && (n <=? 13)) || ((28 <=? n) && (n <=? 32)).

(** Two bytes: U+0085 and U+00A0. *)
Definition isspace2 (a b : ascii) : bool :=
  (nat_of_ascii a =? 194)
  && ((nat_of_ascii b =? 133) || (nat_of_ascii b =? 160)).

(** Three bytes: U+1680, U+2000 to U+200A, U+2028, U+2029, U+202F, U+205F
    and U+3000. *)
Definition isspace3 (a b c : ascii) : bool :=
  let x := nat_of_ascii a in
  let y := nat_of_ascii b in
  let z := nat_of_ascii c in
  ((x =? 225) && (y =? 154) && (z =? 128))
  || ((x =? 226) && (y =? 128)
      && (((128 <=? z) && (z <=? 138)) || (z =? 168) || (z =? 169)
          || (z =? 175)))
  || ((x =? 226) && (y =? 129) && (z =? 159))
  || ((x =? 227) && (y =? 128) && (z =? 128)).

(** The string behind its leading whitespace characters. With [backwards]
    the string is read from its end: the bytes of a character come last
    byte first. *)
Fixpoint skip_spaces (backwards : bool) (s : string) : string :=
  match s with
  | EmptyString => EmptyString
  | String a r1 =>
      if isspace a then skip_spaces backwards r1
      else
        match r1 with
        | EmptyString => s
        | String b r2 =>
            if (if backwards then isspace2 b a else isspace2 a b)
            then skip_spaces backwards r2
            else
              match r2 with
              | EmptyString => s
              | String c r3 =>
                  if (if backwards then isspace3 c b a else isspace3 a b c)
                  then skip_spaces backwards r3
                  else s
              end
        end
  end.

(** The string begins with a whitespace character, read as
    [skip_spaces] reads it. *)
Definition starts_space (backwards : bool) (s : string) : bool :=
  match s with
  | EmptyString => false
  | String a r1 =>
      isspace a
      || match r1 with
         | EmptyString => false
         | String b r2 =>
             (if backwards then isspace2 b a else isspace2 a b)
             || match r2 with
                | EmptyString => false
                | String c r3 =>
                    if backwards then isspace3 c b a else isspace3 a b c
                end
         end
  end.

Definition lstrip (s : string) : string := skip_spaces false s.

Definition rstrip (s : string) : string :=
  String.rev (skip_spaces true (String.rev s)).

(** [str.strip()] *)
Definition strip (s : string) : string := rstrip (lstrip s).

(** The first character of a string: its lead byte tells how many bytes
    the character takes. *)
Definition char_width (a : ascii) : nat :=
  let n := nat_of_ascii a in
  if n <? 192 then 1 else if n <? 224 then 2 else if n <? 240 then 3 else 4.

Definition first_char (s : string) : string :=
  match s with
  | EmptyString => EmptyString
  | String a _ => String.substring 0 (char_width a) s
  end.

(** Truth value of a [str]: the empty string is falsy. *)
Definition truthy (s : string) : bool :=
  match s with EmptyString => false | _ => true end.

(** [x or ''] for [x] a [str] or [None]. *)
Definition or_empty (x : option string) : string :=
  match x with
  | Some s => if truthy s then s else ""
  | None => ""
  end.

(** Truth value of a [str] or [None]. *)
Definition truthy_opt (x : option string) : bool :=
  match x with Some s => truthy s | None => false end.

(** [sep.join(l)] *)
Fixpoint join (sep : string) (l : list string) : string :=
  match l with
  | [] => ""
  | [x] => x
  | x :: r => x +:+ sep +:+ join sep r
  end.

(** [a in s] for a character [a] of one byte. *)
Fixpoint has_char (a : ascii) (s : string) : bool :=
  match s with
  | EmptyString => false
  | String b r => Ascii.eqb b a || has_char a r
  end.

(** [s.split(sep, maxsplit)] for a separator of one character: [maxsplit]
    counts the splits still allowed. *)
Fixpoint split_max (sep : ascii) (maxsplit : nat) (s : string) : list string :=
  match s with
  | EmptyString => [EmptyString]
  | String a r =>
      match maxsplit with
      | O => [s]
      | S m =>
          if Ascii.eqb a sep then EmptyString :: split_max sep m r
          else
            match split_max sep maxsplit r with
            | p :: ps => String a p :: ps
            | [] => [String a EmptyString]
            end
      end
  end.

(** [s.split(sep)]: a string has fewer separators than it is long. *)
Definition split (sep : ascii) (s : string) : list string :=
  split_max sep (String.length s) s.

(** [s.replace(old, new)] for a non-empty [old]: the occurrences are
    found from the left and do not overlap; [skip] counts the bytes of an
    occurrence still to pass over. *)
Fixpoint replace_from (old new : string) (skip : nat) (s : string) : string :=
  match s with
  | EmptyString => EmptyString
  | String a r =>
      match skip with
      | S k => replace_from old new k r
      | O =>
          if String.prefix old s
          then new +:+ replace_from old new (String.length old - 1) r
          else String a (replace_from old new 0 r)
      end
  end.

Definition replace (old new s : string) : string := replace_from old new 0 s.

(** [sorted] on strings: code point order. *)
Fixpoint insert_sorted (x : string) (l : list string) : list string :=
  match l with
  | [] => [x]
  | y :: r => if String.leb x y then x :: l else y :: insert_sorted x r
  end.

Definition sorted (l : list string) : list string :=
  foldr insert_sorted [] l.

(** [sorted(set(l))]: the order in which a [set] is iterated is not
    specified, sorting its elements makes the result independent of it. *)
Definition sorted_set (l : list string) : list string :=
  sorted (remove_dups l).

End Py.

(** ** Case records *)

(** A row of [case_log] as the dictionary [get_all_cases_db] returns it; the
    columns the map view reads are TEXT columns that may hold NULL. *)
Record case := Case {
  case_id : Z;
  city_of_offense : option string;
  state_of_offense : option string;
  offense_type : option string
}.

(** A (city, state) pair: the key of [grouped] and of [map_markers]. *)
Abbreviation location := (string * string)%type.

(** The body of the grouping loop of [load_map_markers] up to [continue]:
    the trimmed pair, or nothing when the record is skipped. *)
Definition location_of (c : case) : option location :=
  let city := Py.strip (Py.or_empty (city_of_offense c)) in
  let state := Py.strip (Py.or_empty (state_of_offense c)) in
  if negb (Py.truthy city) || negb (Py.truthy state) then None
  else Some (city, state).

(** [grouped], a [dict] from pairs to lists of cases. The dictionary is
    iterated later, in insertion order, to fill the geocoding queue: it is
    an association list in insertion order. *)
Abbreviation groups := (list (location * list case)).

(** [grouped.get(key, [])] *)
Fixpoint groups_get (key : location) (g : groups) : list case :=
  match g with
  | [] => []
  | (k, cs) :: r => if decide (k = key) then cs else groups_get key r
  end.

(** [if key not in grouped: grouped[key] = []] then
    [grouped[key].append(case)] *)
Fixpoint groups_append (key : location) (c : case) (g : groups) : groups :=
  match g with
  | [] => [(key, [c])]
  | (k, cs) :: r =>
      if decide (k = key) then (k, cs ++ [c]) :: r
      else (k, cs) :: groups_append key c r
  end.

Definition group_step (g : groups) (c : case) : groups :=
  match location_of c with
  | None => g
  | Some key => groups_append key c g
  end.

(** The grouping loop of [load_map_markers]. *)
Definition group_cases (cases : list case) : groups :=
  fold_left group_step cases [].

(** ** The offense summary of a marker *)

(** [sorted(set((c.get('offense_type') or '').strip()
                for c in city_cases if c.get('offense_type')))] *)
Definition offenses_of (city_cases : list case) : list string :=
  Py.sorted_set
    (map (fun c => Py.strip (Py.or_empty (offense_type c)))
         (filter (fun c => Py.truthy_opt (offense_type c) = true) city_cases)).

(** The [info_text] built by [_place_map_marker]. *)
Definition info_text_of (city state : string) (city_cases : list case) : string :=
  let offenses := offenses_of city_cases in
  let offense_str :=
    match offenses with
    | [] => "No offenses recorded"
    | _ => Py.join ", " offenses
    end in
  city +:+ ", " +:+ state +:+ String (ascii_of_nat 10) "Offense Types: " +:+ offense_str.

(** [get_unique_field_values(field)] over the cases read from the
    database: each value is trimmed first and kept when it is not empty.
    [field] is the column read by [case.get(field)]. *)
Definition get_unique_field_values (field : case → option string)
    (cases : list case) : list string :=
  Py.sorted_set
    (filter (fun val => Py.truthy val = true)
       (map (fun c => Py.strip (Py.or_empty (field c))) cases)).

(** The summary over the sorted set of distinct non-empty offense types,
    that set being computed the way [get_unique_field_values] does. *)
Definition info_text_over_unique (city state : string) (city_cases : list case)
  : string :=
  let offenses := get_unique_field_values offense_type city_cases in
  let offense_str :=
    match offenses with
    | [] => "No offenses recorded"
    | _ => Py.join ", " offenses
    end in
  city +:+ ", " +:+ state +:+ String (ascii_of_nat 10) "Offense Types: " +:+ offense_str.

(** ** Exceptions *)

Inductive exn :=
| SqliteError            (* sqlite3.Error and its subclasses *)
| GeocoderTimedOut
| GeocoderUnavailable
| AttributeError
| OtherException.

(** What a [try] body does: it returns a value or raises. *)
Inductive outcome (A : Type) :=
| Return (a : A)
| Raise (e : exn).
Arguments Return {A} a.
Arguments Raise {A} e.

(** ** The click handler of a marker *)

(** The [try] body of [on_marker_click]: the title and the message of the
    box it shows. Unpacking the split into two names raises [ValueError]
    unless the text has exactly two parts. *)
Definition on_marker_click_try (info_text : string) : outcome (string * string) :=
  match Py.split_max (ascii_of_nat 10) 2 info_text with
  | [city_state; offenses] =>
      let title := Py.strip city_state in
      let offenses := Py.strip (Py.replace "Offense Types:" "" offenses) in
      let offense_list :=
        map (fun offense => " " +:+ Py.strip offense)
          (filter (fun offense => Py.truthy (Py.strip offense) = true)
             (Py.split "," offenses)) in
      let formatted_text :=
        match offense_list with
        | [] => "No offenses recorded"
        | _ => Py.join (String (ascii_of_nat 10) "") offense_list
        end in
      Return (title, String.append "Offense Types:"
                       (String (ascii_of_nat 10) formatted_text))
  | _ => Raise OtherException
  end.

(** [on_marker_click]: the body, and [except Exception] showing the text
    as it is under the title "Location Information". *)
Definition on_marker_click (info_text : string) : string * string :=
  match on_marker_click_try info_text with
  | Return shown => shown
  | Raise _ => ("Location Information", info_text)
  end.

(** State of [self.geocoding_thread]. [Started]: [Thread.start()] was called
    and the target has not yet run its first statement. *)
Inductive thread :=
| NoThread
| Started
| Running
| Finished.

(** [Thread.is_alive()], with [None] counted as not alive. *)
Definition is_alive (t : thread) : bool :=
  match t with
  | Started | Running => true
  | NoThread | Finished => false
  end.

(** What may run next: one block of the worker thread, one scheduled
    [_process_geocoding_results] callback, or a call of [load_map_markers]
    from the user interface. *)
Inductive tick :=
| WorkerTick
| PollTick
| RefreshTick.

Section Model.

Context {coord : Type}.

Abbreviation coords := (coord * coord)%type.

(** *** The geocode cache: table [geocache] *)

Record geocache_row := GeocacheRow {
  location_key : string;       (* TEXT PRIMARY KEY *)
  latitude : coord;            (* REAL NOT NULL *)
  longitude : coord;           (* REAL NOT NULL *)
  last_accessed : string       (* TEXT *)
}.

(** [SELECT latitude, longitude FROM geocache WHERE location_key = ?]
    followed by [fetchone()]: the first matching row. *)
Fixpoint select_geocache (key : string) (t : list geocache_row) : option coords :=
  match t with
  | [] => None
  | r :: t' =>
      if decide (location_key r = key) then Some (latitude r, longitude r)
      else select_geocache key t'
  end.

(** [INSERT OR REPLACE INTO geocache ...]: the rows that conflict with the
    new one on the primary key are deleted, then the row is inserted. *)
Definition insert_or_replace (r : geocache_row) (t : list geocache_row)
  : list geocache_row :=
  filter (fun r' => location_key r' ≠ location_key r) t ++ [r].

(** [DELETE FROM geocache], the full data reset. *)
Definition delete_geocache (t : list geocache_row) : list geocache_row := [].

(** The [try] body of [get_cached_location_db]. [fault] is the exception
    that [sqlite3.connect], [execute] or [fetchone] raises, if any. *)
Definition get_cached_location_db_try
    (fault : option exn) (location_key : string) (t : list geocache_row)
  : outcome (option coords) :=
  match fault with
  | Some e => Raise e
  | None =>
      match select_geocache location_key t with
      | Some row => Return (Some (row.1, row.2))
      | None => Return None
      end
  end.

(** [get_cached_location_db]: the body, and [except Exception] logging
    the error and returning [None]. *)
Definition get_cached_location_db
    (fault : option exn) (location_key : string) (t : list geocache_row)
  : option coords :=
  match get_cached_location_db_try fault location_key t with
  | Return r => r
  | Raise _ => None
  end.

(** The [try] body of [add_cached_location_db]: the table after the
    commit. [timestamp] is [datetime.now()] formatted. *)
Definition add_cached_location_db_try
    (fault : option exn) (location_key : string) (latitude longitude : coord)
    (timestamp : string) (t : list geocache_row)
  : outcome (bool * list geocache_row) :=
  match fault with
  | Some e => Raise e
  | None =>
      Return (true,
              insert_or_replace
                (GeocacheRow location_key latitude longitude timestamp) t)
  end.

(** [add_cached_location_db]: the body, and [except Exception] logging the
    error and returning [False]; nothing was committed then. *)
Definition add_cached_location_db
    (fault : option exn) (location_key : string) (latitude longitude : coord)
    (timestamp : string) (t : list geocache_row)
  : bool * list geocache_row :=
  match add_cached_location_db_try fault location_key latitude longitude
          timestamp t with
  | Return r => r
  | Raise _ => (false, t)
  end.

(** [get_all_cases_db]: all rows, or the empty list when sqlite raises. *)
Definition get_all_cases_db (fault : option exn) (case_log : list case)
  : list case :=
  match fault with
  | Some _ => []
  | None => case_log
  end.

(** *** The environment *)

(** An answer of [geolocator.geocode(query, timeout=10)]. *)
Inductive provider_response :=
| Located (lat lon : coord)
| NoMatch
| ProviderRaises (e : exn).

Record environment := Environment {
  geocode : string → provider_response;
  geocode_ms : string → N;                 (* duration of that call *)
  cache_read_fault : string → option exn;  (* by location key *)
  cache_write_fault : string → option exn;
  case_read_fault : option exn;
  now_text : N → string;                   (* strftime of the clock *)
  (* hasattr(self.map_widget, 'delete_all_markers'), as the widget class
     of the installed map library decides it *)
  has_delete_all_markers : bool
}.

(** *** The application state *)

(** A marker of the map widget: position, label and the text its click
    handler shows. The icon is left out. *)
Record marker := Marker {
  marker_lat : coord;
  marker_lon : coord;
  marker_text : string;
  marker_info : string
}.

Abbreviation result := (location * coords)%type.

Record world := World {
  (* the database *)
  case_log : list case;
  geocache : list geocache_row;
  (* attributes of CaseLogApp *)
  map_widget : option (list marker);   (* markers on the widget, if it exists *)
  map_markers : gmap location marker;
  _grouped_cases_by_location : groups;
  geocoding_queue : list location;
  _pending_marker_locations : list location;
  _geocoded_results : option (list result);   (* [None]: not yet assigned *)
  geocoding_thread : thread;
  processing_queue : bool;
  scheduled_polls : nat;   (* pending [root.after(500, ...)] callbacks *)
  (* time in milliseconds and the log of provider calls *)
  clock : N;
  provider_calls : list (N * string)
}.

Definition set_geocache v w :=
  World (case_log w) v (map_widget w) (map_markers w)
    (_grouped_cases_by_location w) (geocoding_queue w)
    (_pending_marker_locations w) (_geocoded_results w)
    (geocoding_thread w) (processing_queue w) (scheduled_polls w)
    (clock w) (provider_calls w).
Definition set_map_widget v w :=
  World (case_log w) (geocache w) v (map_markers w)
    (_grouped_cases_by_location w) (geocoding_queue w)
    (_pending_marker_locations w) (_geocoded_results w)
    (geocoding_thread w) (processing_queue w) (scheduled_polls w)
    (clock w) (provider_calls w).
Definition set_map_markers v w :=
  World (case_log w) (geocache w) (map_widget w) v
    (_grouped_cases_by_location w) (geocoding_queue w)
    (_pending_marker_locations w) (_geocoded_results w)
    (geocoding_thread w) (processing_queue w) (scheduled_polls w)
    (clock w) (provider_calls w).
Definition set_grouped v w :=
  World (case_log w) (geocache w) (map_widget w) (map_markers w)
    v (geocoding_queue w)
    (_pending_marker_locations w) (_geocoded_results w)
    (geocoding_thread w) (processing_queue w) (scheduled_polls w)
    (clock w) (provider_calls w).
Definition set_geocoding_queue v w :=
  World (case_log w) (geocache w) (map_widget w) (map_markers w)
    (_grouped_cases_by_location w) v
    (_pending_marker_locations w) (_geocoded_results w)
    (geocoding_thread w) (processing_queue w) (scheduled_polls w)
    (clock w) (provider_calls w).
Definition set_pending v w :=
  World (case_log w) (geocache w) (map_widget w) (map_markers w)
    (_grouped_cases_by_location w) (geocoding_queue w)
    v (_geocoded_results w)
    (geocoding_thread w) (processing_queue w) (scheduled_polls w)
    (clock w) (provider_calls w).
Definition set_geocoded_results v w :=
  World (case_log w) (geocache w) (map_widget w) (map_markers w)
    (_grouped_cases_by_location w) (geocoding_queue w)
    (_pending_marker_locations w) v
    (geocoding_thread w) (processing_queue w) (scheduled_polls w)
    (clock w) (provider_calls w).
Definition set_geocoding_thread v w :=
  World (case_log w) (geocache w) (map_widget w) (map_markers w)
    (_grouped_cases_by_location w) (geocoding_queue w)
    (_pending_marker_locations w) (_geocoded_results w)
    v (processing_queue w) (scheduled_polls w)
    (clock w) (provider_calls w).
Definition set_processing_queue v w :=
  World (case_log w) (geocache w) (map_widget w) (map_markers w)
    (_grouped_cases_by_location w) (geocoding_queue w)
    (_pending_marker_locations w) (_geocoded_results w)
    (geocoding_thread w) v (scheduled_polls w)
    (clock w) (provider_calls w).
Definition set_scheduled_polls v w :=
  World (case_log w) (geocache w) (map_widget w) (map_markers w)
    (_grouped_cases_by_location w) (geocoding_queue w)
    (_pending_marker_locations w) (_geocoded_results w)
    (geocoding_thread w) (processing_queue w) v
    (clock w) (provider_calls w).
Definition set_clock v w :=
  World (case_log w) (geocache w) (map_widget w) (map_markers w)
    (_grouped_cases_by_location w) (geocoding_queue w)
    (_pending_marker_locations w) (_geocoded_results w)
    (geocoding_thread w) (processing_queue w) (scheduled_polls w)
    v (provider_calls w).
Definition set_provider_calls v w :=
  World (case_log w) (geocache w) (map_widget w) (map_markers w)
    (_grouped_cases_by_location w) (geocoding_queue w)
    (_pending_marker_locations w) (_geocoded_results w)
    (geocoding_thread w) (processing_queue w) (scheduled_polls w)
    (clock w) v.

(** *** Marker placement *)

(** [f"{city}|{state}"], the key of the cache. *)
Definition location_key_of (city state : string) : string :=
  city +:+ "|" +:+ state.

(** [f"{city}, {state}, USA"], the query sent to the provider. *)
Definition query_of (city state : string) : string :=
  city +:+ ", " +:+ state +:+ ", USA".

(** [_place_map_marker]. Without a widget [self.map_widget.set_marker]
    raises, which the [except Exception] of the method logs. *)
Definition _place_map_marker (city state : string) (c : coords) (w : world)
  : world :=
  let '(lat, lon) := c in
  let city_cases := groups_get (city, state) (_grouped_cases_by_location w) in
  let info_text := info_text_of city state city_cases in
  match map_widget w with
  | None => w
  | Some on_map =>
      let marker := Marker lat lon "" info_text in
      set_map_markers (<[(city, state) := marker]> (map_markers w))
        (set_map_widget (Some (on_map ++ [marker])) w)
  end.

(** *** [load_map_markers] *)

(** The body of [for (city, state) in grouped]. *)
Definition load_location (env : environment) (w : world)
    (entry : location * list case) : world :=
  let '((city, state), _) := entry in
  let location_key := location_key_of city state in
  match get_cached_location_db (cache_read_fault env location_key)
          location_key (geocache w) with
  | Some c => _place_map_marker city state c w
  | None =>
      set_geocoding_queue (geocoding_queue w ++ [(city, state)])
        (set_pending (_pending_marker_locations w ++ [(city, state)]) w)
  end.

Definition load_map_markers (env : environment) (w : world) : world :=
  match map_widget w with
  | None => w
  | Some _ =>
      let w :=
        if has_delete_all_markers env then set_map_widget (Some []) w
        else w in
      let cases := get_all_cases_db (case_read_fault env) (case_log w) in
      let grouped := group_cases cases in
      let w := set_map_markers ∅ w in
      let w := set_grouped grouped w in
      let w := set_geocoding_queue [] w in          (* a new queue.Queue() *)
      let w := set_pending [] w in
      let w := fold_left (load_location env) grouped w in
      match _pending_marker_locations w with
      | _ :: _ =>
          if negb (is_alive (geocoding_thread w)) then
            set_scheduled_polls (S (scheduled_polls w))
              (set_processing_queue true (set_geocoding_thread Started w))
          else
            set_scheduled_polls (S (scheduled_polls w))
              (set_processing_queue true w)
      | [] => set_processing_queue false w
      end
  end.

(** *** The worker *)

(** One iteration of the [while] loop of [_geocode_locations_worker],
    after [get_nowait] has handed out [item]. *)
Definition geocode_item (env : environment) (item : location) (w : world)
  : world :=
  let '(city, state) := item in
  let query := query_of city state in
  let w := set_provider_calls (provider_calls w ++ [(clock w, query)]) w in
  let w := set_clock (clock w + geocode_ms env query)%N w in
  let w :=
    match geocode env query with
    | Located lat lon =>
        let key := location_key_of city state in
        let written :=
          add_cached_location_db (cache_write_fault env key) key lat lon
            (now_text env (clock w)) (geocache w) in
        let w := set_geocache written.2 w in
        match _geocoded_results w with
        | Some rs =>
            set_geocoded_results (Some (rs ++ [((city, state), (lat, lon))])) w
        | None => w                     (* AttributeError, logged *)
        end
    | NoMatch => w                      (* logged *)
    | ProviderRaises _ => w             (* logged *)
    end in
  set_clock (clock w + 1000)%N w.      (* time.sleep(1.0) *)

(** One block of the worker thread: its first statement, one iteration of
    the loop, or the exit from the loop. *)
Definition worker_tick (env : environment) (w : world) : world :=
  match geocoding_thread w with
  | Started => set_geocoding_thread Running (set_geocoded_results (Some []) w)
  | Running =>
      match geocoding_queue w with
      | [] => set_geocoding_thread Finished w
      | item :: rest => geocode_item env item (set_geocoding_queue rest w)
      end
  | NoThread | Finished => w
  end.

(** The loop of the worker when nothing else runs in between. *)
Fixpoint drain_queue (env : environment) (queue : list location) (w : world)
  : world :=
  match queue with
  | [] => w
  | item :: rest =>
      drain_queue env rest (geocode_item env item (set_geocoding_queue rest w))
  end.

(** [_geocode_locations_worker], run without interruption by a thread
    that was started. *)
Definition _geocode_locations_worker (env : environment) (w : world) : world :=
  let w := set_geocoded_results (Some []) w in
  set_geocoding_thread Finished (drain_queue env (geocoding_queue w) w).

(** *** The poller *)

Definition place_result (w : world) (r : result) : world :=
  _place_map_marker r.1.1 r.1.2 r.2 w.

(** [_process_geocoding_results] *)
Definition _process_geocoding_results (w : world) : world :=
  let w :=
    match _geocoded_results w with
    | Some (r :: rs) =>
        set_geocoded_results (Some []) (fold_left place_result (r :: rs) w)
    | Some [] | None => w
    end in
  if is_alive (geocoding_thread w) then
    set_scheduled_polls (S (scheduled_polls w)) w
  else set_processing_queue false w.

(** The event loop runs one scheduled callback, if there is one. *)
Definition poll_tick (w : world) : world :=
  match scheduled_polls w with
  | O => w
  | S n => _process_geocoding_results (set_scheduled_polls n w)
  end.

(** *** Executions *)

Definition step (env : environment) (w : world) (t : tick) : world :=
  match t with
  | WorkerTick => worker_tick env w
  | PollTick => poll_tick w
  | RefreshTick => load_map_markers env w
  end.

Definition run (env : environment) (schedule : list tick) (w : world) : world :=
  fold_left (step env) schedule w.

(** No refresh happens during the schedule. *)
Definition no_refresh (schedule : list tick) : Prop :=
  RefreshTick ∉ schedule.

(** The results buffer holds nothing. *)
Definition results_drained (w : world) : Prop :=
  _geocoded_results w = None ∨ _geocoded_results w = Some [].

(** The pipeline is at rest: no worker is alive and no result waits. *)
Definition idle (w : world) : Prop :=
  is_alive (geocoding_thread w) = false ∧ results_drained w.

(** The refresh is over: the worker has ended and no poll is scheduled. *)
Definition complete (w : world) : Prop :=
  is_alive (geocoding_thread w) = false ∧ scheduled_polls w = 0.

(** The state of a fresh [CaseLogApp] over a database, once the map
    widget exists. *)
Definition initial_world (cases : list case) (cache : list geocache_row)
  : world :=
  World cases cache (Some []) ∅ [] [] [] None NoThread false 0 0%N [].

(** *** Notions used to state the properties *)

(** The primary key constraint of [geocache]. *)
Definition pk_unique (t : list geocache_row) : Prop :=
  NoDup (map location_key t).

(** The distinct non-empty (city, state) pairs among case records. *)
Definition distinct_locations (cases : list case) : list location :=
  remove_dups (omap location_of cases).

(** The keys of [grouped], in insertion order. *)
Definition group_keys (g : groups) : list location := g.*1.

Definition is_located (r : provider_response) : bool :=
  match r with Located _ _ => true | NoMatch | ProviderRaises _ => false end.

(** The cache answers for the pair during a refresh. *)
Definition cache_hit (env : environment) (t : list geocache_row)
    (k : location) : option coords :=
  get_cached_location_db (cache_read_fault env (location_key_of k.1 k.2))
    (location_key_of k.1 k.2) t.

(** What the worker appends for a queued pair: its result, if the lookup
    succeeds. *)
Definition resolve (env : environment) (k : location) : option result :=
  match geocode env (query_of k.1 k.2) with
  | Located lat lon => Some (k, (lat, lon))
  | NoMatch | ProviderRaises _ => None
  end.

(** The pair gets coordinates in a refresh over cache [t]: from the cache
    or from the provider. *)
Definition resolvable (env : environment) (t : list geocache_row)
    (k : location) : bool :=
  match cache_hit env t k with
  | Some _ => true
  | None => is_located (geocode env (query_of k.1 k.2))
  end.

(** The pairs a refresh over cache [t] places at once, with their cached
    coordinates, and the pairs it queues. *)
Definition cache_hits (env : environment) (t : list geocache_row)
    (keys : list location) : list result :=
  omap (fun k => (fun c => (k, c)) <$> cache_hit env t k) keys.

Definition cache_misses (env : environment) (t : list geocache_row)
    (keys : list location) : list location :=
  filter (fun k => cache_hit env t k = None) keys.

(** The placements of a whole refresh, in order: the cache hits, then
    what the worker resolves of the misses. *)
Definition placements (env : environment) (t : list geocache_row)
    (keys : list location) : list result :=
  cache_hits env t keys ++ omap (resolve env) (cache_misses env t keys).

(** The worker blocks still to run before the thread has ended. *)
Definition worker_blocks (w : world) : nat :=
  match geocoding_thread w with
  | Started => 2 + List.length (geocoding_queue w)
  | Running => 1 + List.length (geocoding_queue w)
  | NoThread | Finished => 0
  end.

(** A schedule that lets the worker end and then runs every scheduled
    poll. *)
Definition to_completion (w : world) : list tick :=
  replicate (worker_blocks w) WorkerTick ++
  replicate (scheduled_polls w) PollTick.

(** The map as the user sees it: the markers on the widget and the
    dictionary [map_markers]. *)
Abbreviation view := (option (list marker) * gmap location marker)%type.

Definition markers_view (w : world) : view := (map_widget w, map_markers w).

(** The markers that are on the widget once [load_map_markers] is past its
    guarded [delete_all_markers]: none when the widget has the method,
    those it held when it has not. *)
Definition kept_markers (env : environment) (w : world) : list marker :=
  if has_delete_all_markers env then [] else default [] (map_widget w).

Definition with_view (v : view) (w : world) : world :=
  set_map_markers v.2 (set_map_widget v.1 w).

(** [_place_map_marker] on the view alone. *)
Definition place_view (g : groups) (v : view) (r : result) : view :=
  match v.1 with
  | None => v
  | Some on_map =>
      let marker :=
        Marker r.2.1 r.2.2 "" (info_text_of r.1.1 r.1.2 (groups_get r.1 g)) in
      (Some (on_map ++ [marker]), <[r.1 := marker]> v.2)
  end.

(** The marker the pair [k] gets from coordinates [c] under grouping [g]. *)
Definition marker_for (g : groups) (k : location) (c : coords) : marker :=
  Marker c.1 c.2 "" (info_text_of k.1 k.2 (groups_get k g)).

Definition results_list (w : world) : list result :=
  default [] (_geocoded_results w).

(** The results that are still to reach the map: those in the buffer and
    those the worker will append for the queue. A worker that has not run
    its first statement is about to empty the buffer. *)
Definition outstanding (env : environment) (w : world) : list result :=
  match geocoding_thread w with
  | Started => omap (resolve env) (geocoding_queue w)
  | Running => results_list w ++ omap (resolve env) (geocoding_queue w)
  | NoThread | Finished => results_list w
  end.

(** The view once everything outstanding has been placed. *)
Definition settle (env : environment) (w : world) : view :=
  fold_left (place_view (_grouped_cases_by_location w)) (outstanding env w)
    (markers_view w).

(** The states a refresh from an idle pipeline goes through. *)
Definition pipeline_ok (w : world) : Prop :=
  (geocoding_thread w = Started → results_drained w) ∧
  (geocoding_thread w = Running → is_Some (_geocoded_results w)) ∧
  (is_alive (geocoding_thread w) = false → geocoding_queue w = []) ∧
  (1 ≤ scheduled_polls w ∨
   (is_alive (geocoding_thread w) = false ∧ results_drained w)).

(** Successive provider calls are at least [gap] milliseconds apart. *)
Fixpoint calls_apart (gap : N) (calls : list (N * string)) : Prop :=
  match calls with
  | [] => True
  | c1 :: rest =>
      match rest with
      | [] => True
      | c2 :: _ => (c1.1 + gap ≤ c2.1)%N
      end ∧ calls_apart gap rest
  end.

(** Rate-limit discipline of a state: the calls made so far are a second
    apart and a second has passed since the last one. *)
Definition throttled (w : world) : Prop :=
  calls_apart 1000 (provider_calls w) ∧
  ∀ c, last (provider_calls w) = Some c → (c.1 + 1000 ≤ clock w)%N.

End Model.

(** ** Scenarios *)

Module Scenario.

Definition newline : string := String (ascii_of_nat 10) "".

(** Coordinates in millionths of a degree. *)
Definition jackson : Z * Z := (32298757, -90184810)%Z.

Definition no_fault : string → option exn := fun _ => None.

Definition timestamp : N → string := fun _ => "2025-01-01 00:00:00".

(** A provider that knows Jackson, MS only. *)
Definition knows_jackson (query : string) : @provider_response Z :=
  if decide (query = "Jackson, MS, USA") then Located jackson.1 jackson.2
  else NoMatch.

Definition env_jackson : @environment Z :=
  Environment knows_jackson (fun _ => 300%N) no_fault no_fault None timestamp
    false.

(** A provider that finds nothing. *)
Definition env_no_match : @environment Z :=
  Environment (fun _ => NoMatch) (fun _ => 300%N) no_fault no_fault None
    timestamp false.

(** A provider that times out on Alpha and finds Jackson, with a cache
    that cannot be written. *)
Definition flaky (query : string) : @provider_response Z :=
  if decide (query = "Alpha, MS, USA") then ProviderRaises GeocoderTimedOut
  else knows_jackson query.

Definition env_flaky : @environment Z :=
  Environment flaky (fun _ => 300%N) no_fault (fun _ => Some SqliteError)
    None timestamp false.

Definition fraud_and_theft : list case :=
  [Case 1 (Some "Jackson") (Some "MS") (Some "Fraud");
   Case 2 (Some "Jackson") (Some "MS") (Some "Theft")].

Definition one_case : list case :=
  [Case 1 (Some "Jackson") (Some "MS") (Some "Fraud")].



(** The no-break space U+00A0 and the em space U+2003. *)
Definition nbsp : string :=
  String (ascii_of_nat 194) (String (ascii_of_nat 160) "").

Definition em_space : string :=
  String (ascii_of_nat 226) (String (ascii_of_nat 128)
    (String (ascii_of_nat 131) "")).

Definition full_run : list tick :=
  [WorkerTick; WorkerTick; WorkerTick; PollTick].

(** A worker in its loop with the queue [Alpha, Jackson], an empty buffer
    and one poll scheduled. *)
Definition mid_run : @world Z :=
  World [] [] (Some []) ∅ [] [("Alpha", "MS"); ("Jackson", "MS")]
    [("Alpha", "MS"); ("Jackson", "MS")] (Some []) Running true 1 0%N [].

(** A worker in its loop with Jackson alone in the queue. *)
Definition last_item : @world Z :=
  World [] [] (Some []) ∅ [] [("Jackson", "MS")] [("Jackson", "MS")]
    (Some []) Running true 1 0%N [].

(** A thread that was started while the buffer still holds a result of
    an earlier run. *)
Definition restarted : @world Z :=
  World [] [] (Some []) ∅ [] [("Alpha", "MS")] [("Alpha", "MS")]
    (Some [(("Jackson", "MS"), jackson)]) Started true 1 0%N [].

End Scenario.
(** * Further parts of the program *)

(** ** The case table by id *)

(** What the callers pass for an id: an [int], or a [str] such as a
    value or an item id of the Treeview. *)
Inductive id_arg :=
| IdInt (z : Z)
| IdStr (s : string).

Section CaseTable.

(** The column [id] is INTEGER PRIMARY KEY: SQLite compares it with a text
    parameter once the text is converted as a column of NUMERIC affinity
    converts it. [text_as_integer] is the integer the text then compares
    equal to, if there is one. *)
Variable text_as_integer : string → option Z.

(** Binding the parameter of [WHERE id = ?]: the id the statement
    selects, if any. sqlite3 raises [OverflowError] on an [int] outside
    the 64 bits of an SQLite INTEGER. *)
Definition bind_id (p : id_arg) : outcome (option Z) :=
  match p with
  | IdInt z =>
      if decide (- 2 ^ 63 ≤ z < 2 ^ 63)%Z then Return (Some z)
      else Raise OtherException
  | IdStr s => Return (text_as_integer s)
  end.

(** The [try] body of [get_case_by_id_db]:
    [SELECT * FROM case_log WHERE id = ?] with [fetchone()]. *)
Definition get_case_by_id_db_try (fault : option exn) (case_id_arg : id_arg)
    (case_log : list case) : outcome (option case) :=
  match fault with
  | Some e => Raise e
  | None =>
      match bind_id case_id_arg with
      | Raise e => Raise e
      | Return None => Return None
      | Return (Some id) =>
          Return (head (filter (fun c => case_id c = id) case_log))
      end
  end.

(** [get_case_by_id_db]: the body, and [except Exception] returning
    [None]. *)
Definition get_case_by_id_db (fault : option exn) (case_id_arg : id_arg)
    (case_log : list case) : option case :=
  match get_case_by_id_db_try fault case_id_arg case_log with
  | Return r => r
  | Raise _ => None
  end.

(** The [try] body of [delete_case_db]:
    [DELETE FROM case_log WHERE id = ?] and the commit. *)
Definition delete_case_db_try (fault : option exn) (case_id_arg : id_arg)
    (case_log : list case) : outcome (list case) :=
  match fault with
  | Some e => Raise e
  | None =>
      match bind_id case_id_arg with
      | Raise e => Raise e
      | Return None => Return case_log
      | Return (Some id) =>
          Return (filter (fun c => case_id c ≠ id) case_log)
      end
  end.

(** [delete_case_db]: [True] after the commit, whether or not a row was
    deleted; [except Exception] returns [False], nothing being deleted. *)
Definition delete_case_db (fault : option exn) (case_id_arg : id_arg)
    (case_log : list case) : bool * list case :=
  match delete_case_db_try fault case_id_arg case_log with
  | Return t => (true, t)
  | Raise _ => (false, case_log)
  end.

End CaseTable.

(** The primary key constraint of [case_log]. *)
Definition ids_unique (case_log : list case) : Prop :=
  NoDup (map case_id case_log).

(** ** The settings table *)

(** A row of [settings]: [key TEXT PRIMARY KEY, value TEXT]. *)
Abbreviation settings := (list (string * option string)).

(** [SELECT value FROM settings WHERE key = ?] with [fetchone()]. *)
Fixpoint select_setting (key : string) (t : settings) : option (option string) :=
  match t with
  | [] => None
  | (k, v) :: t' => if decide (k = key) then Some v else select_setting key t'
  end.

(** [REPLACE INTO settings (key, value) VALUES (?, ?)] *)
Definition replace_setting (key : string) (value : string) (t : settings)
  : settings :=
  filter (fun r => r.1 ≠ key) t ++ [(key, Some value)].

(** Lower case of an ASCII letter, the case folding of SQLite's [LIKE]. *)
Definition ascii_lower (a : ascii) : ascii :=
  let n := nat_of_ascii a in
  if (65 <=? n) && (n <=? 90) then ascii_of_nat (n + 32) else a.

(** [key LIKE 'combo_%']: the letters of the pattern match without regard
    to case, [_] matches any one character and [%] any sequence. *)
Definition like_combo (key : string) : bool :=
  match key with
  | String c1 (String c2 (String c3 (String c4 (String c5 (String _ _))))) =>
      bool_decide
        (String (ascii_lower c1) (String (ascii_lower c2)
           (String (ascii_lower c3) (String (ascii_lower c4)
              (String (ascii_lower c5) ""))))
         = "combo")
  | _ => false
  end.

(** [DELETE FROM settings WHERE key LIKE 'combo_%'] *)
Definition delete_combo_settings (t : settings) : settings :=
  filter (fun r => like_combo r.1 = false) t.

(** ** JSON values and the rows that hold them *)

Section Settings.

(** The numbers of Python, [int] and [float], and their truth value. *)
Context {number : Type}.
Variable number_truthy : number → bool.

(** The values [json.loads] returns. *)
#[warnings="-register-all"] Inductive json :=
| JNull
| JBool (b : bool)
| JNum (n : number)
| JStr (s : string)
| JList (l : list json)
| JDict (d : list (string * json)).

(** Truth value of a JSON value in Python. *)
Definition json_truthy (v : json) : bool :=
  match v with
  | JNull => false
  | JBool b => b
  | JNum n => number_truthy n
  | JStr s => Py.truthy s
  | JList l => match l with [] => false | _ => true end
  | JDict d => match d with [] => false | _ => true end
  end.

(** [v[0]]: the first element of a list, the first character of a string;
    a dictionary decoded from JSON has string keys only, so the key [0] is
    not in it, and the other values cannot be subscripted. *)
Definition json_item0 (v : json) : outcome json :=
  match v with
  | JList (x :: _) => Return x
  | JStr (String a r) => Return (JStr (Py.first_char (String a r)))
  | _ => Raise OtherException
  end.

(** [hash_password], PBKDF2-HMAC-SHA256 of the password under the salt as
    a hex string; [json.dumps] and [json.loads]. *)
Variable hash_password : string → string → string.
Variable dumps : json → string.
Variable loads : string → outcome json.

(** The [try] body of [verify_password]. A stored salt of NULL makes
    [hash_password] raise on [salt.encode]. *)
Definition verify_password_try (fault : option exn) (password : string)
    (t : settings) : outcome bool :=
  match fault with
  | Some e => Raise e
  | None =>
      match select_setting "password_hash" t, select_setting "salt" t with
      | Some stored_hash, Some stored_salt =>
          match stored_salt with
          | None => Raise AttributeError
          | Some salt =>
              Return (bool_decide (Some (hash_password password salt) = stored_hash))
          end
      | _, _ => Return false
      end
  end.

(** [verify_password]: the body, and [except Exception] returning
    [False]. *)
Definition verify_password (fault : option exn) (password : string)
    (t : settings) : bool :=
  match verify_password_try fault password t with
  | Return b => b
  | Raise _ => false
  end.

(** [update_password_db]; [salt] is what [generate_salt()] returns. *)
Definition update_password_db (fault : option exn) (salt : string)
    (new_password : string) (t : settings) : bool * settings :=
  match fault with
  | Some _ => (false, t)
  | None =>
      (true,
       replace_setting "salt" salt
         (replace_setting "password_hash" (hash_password new_password salt) t))
  end.

(** The [try] body of [get_combo_values_db]. *)
Definition get_combo_values_db_try (fault : option exn) (key : string)
    (t : settings) : outcome json :=
  match fault with
  | Some e => Raise e
  | None =>
      match select_setting ("combo_" +:+ key) t with
      | Some (Some text) => if Py.truthy text then loads text else Return (JList [])
      | Some None | None => Return (JList [])
      end
  end.

(** [get_combo_values_db]: the body, and [except Exception] returning
    [[]]. *)
Definition get_combo_values_db (fault : option exn) (key : string)
    (t : settings) : json :=
  match get_combo_values_db_try fault key t with
  | Return v => v
  | Raise _ => JList []
  end.

(** [set_combo_values_db]: nothing is stored when [json.dumps] or sqlite
    raises. *)
Definition set_combo_values_db (fault : option exn) (key : string)
    (values : json) (t : settings) : settings :=
  match fault with
  | Some _ => t
  | None => replace_setting ("combo_" +:+ key) (dumps values) t
  end.

(** [set_user_pref] *)
Definition set_user_pref (fault : option exn) (key : string) (value : json)
    (t : settings) : settings :=
  set_combo_values_db fault ("userpref_" +:+ key) (JList [value]) t.

(** [get_user_pref]: [vals[0] if vals else default]; what [vals[0]] raises
    is raised to the caller. *)
Definition get_user_pref (fault : option exn) (key : string) (default : json)
    (t : settings) : outcome json :=
  let vals := get_combo_values_db fault ("userpref_" +:+ key) t in
  if json_truthy vals then json_item0 vals else Return default.

(** [col in all_columns] for a value of the stored list: only a string
    equals a column name. *)
Definition column_of (all_columns : list string) (col : json) : option string :=
  match col with
  | JStr s => if decide (s ∈ all_columns) then Some s else None
  | _ => None
  end.

(** [CaseLogApp.get_visible_treeview_columns]; [columns] are the keys of
    [tree_columns_config] in order. *)
Definition get_visible_treeview_columns (fault : option exn)
    (columns : list string) (t : settings) : outcome (list string) :=
  let all_columns := filter (fun key => key ≠ "id") columns in
  match get_user_pref fault "treeview_columns" JNull t with
  | Raise e => Raise e
  | Return (JList (x :: l)) => Return (omap (column_of all_columns) (x :: l))
  | Return _ => Return all_columns
  end.

(** The row [CaseLogApp.set_visible_treeview_columns] stores before it
    refreshes the view. *)
Definition set_visible_treeview_columns (fault : option exn)
    (columns : list string) (t : settings) : settings :=
  set_user_pref fault "treeview_columns" (JList (map JStr columns)) t.

(** [CaseLogApp.get_map_focal_state] *)
Definition get_map_focal_state (fault : option exn) (t : settings)
  : outcome json :=
  get_user_pref fault "map_focal_state" (JStr "") t.

(** [CaseLogApp.set_map_focal_state] *)
Definition set_map_focal_state (fault : option exn) (state : json)
    (t : settings) : settings :=
  set_user_pref fault "map_focal_state" state t.

End Settings.

(** ** Further notions on the pipeline *)

Section ModelMore.

Context {coord : Type}.

Local Abbreviation coords := (coord * coord)%type.
Local Abbreviation result := (location * coords)%type.

Definition set_case_log (v : list case) (w : @world coord) : @world coord :=
  World v (geocache w) (map_widget w) (map_markers w)
    (_grouped_cases_by_location w) (geocoding_queue w)
    (_pending_marker_locations w) (_geocoded_results w)
    (geocoding_thread w) (processing_queue w) (scheduled_polls w)
    (clock w) (provider_calls w).

(** The placement a refresh over cache [t] makes for a pair, if any: at
    the cached coordinates, else at those the provider finds. *)
Definition placement_of (env : @environment coord) (t : list (@geocache_row coord))
    (k : location) : option result :=
  match cache_hit env t k with
  | Some c => Some (k, c)
  | None => resolve env k
  end.

(** What the cache answers for [key], the store being reached, once the
    worker has processed the queued pair [k], [answers] being what it
    answered before. *)
Definition answers_after (env : @environment coord) (k : location)
    (answers : string → option coords) (key : string) : option coords :=
  match geocode env (query_of k.1 k.2),
        cache_write_fault env (location_key_of k.1 k.2) with
  | Located lat lon, None =>
      if decide (key = location_key_of k.1 k.2) then Some (lat, lon)
      else answers key
  | _, _ => answers key
  end.

(** What the cache answers once the worker has drained its queue. *)
Definition answers_settled (env : @environment coord) (w : @world coord)
    (key : string) : option coords :=
  fold_left (fun answers k => answers_after env k answers) (geocoding_queue w)
    (fun key => select_geocache key (geocache w)) key.

(** The queries sent so far followed by those the queue will cause. *)
Definition queries_settled (w : @world coord) : list string :=
  (provider_calls w).*2 ++ map (fun k => query_of k.1 k.2) (geocoding_queue w).

(** The worker writes the pair to the cache when it processes it: the
    provider finds it and the write goes through. *)
Definition written (env : @environment coord) (k : location) (c : coords)
  : Prop :=
  geocode env (query_of k.1 k.2) = Located c.1 c.2 ∧
  cache_write_fault env (location_key_of k.1 k.2) = None.

(** The location keys under which the pairs are cached. *)
Definition location_keys (keys : list location) : list string :=
  map (fun k => location_key_of k.1 k.2) keys.

(** ** Clearing the application data *)

(** The statements of [clear_application_data_prompt] up to the commit,
    none of them raising: [case_log] dropped and created again, [geocache]
    emptied, the rows of [settings] whose key is like [combo_%] deleted. *)
Definition clear_application_data (w : @world coord) (t : settings)
  : @world coord * settings :=
  (set_geocache [] (set_case_log [] w), delete_combo_settings t).

(** [clear_application_data_prompt] on the database: [pw] is what the
    password dialog returns, [None] when it is cancelled, and [confirm] the
    answer to the confirmation box. *)
Definition clear_application_data_prompt
    (hash_password : string → string → string) (verify_fault : option exn)
    (pw : option string) (confirm : bool) (w : @world coord) (t : settings)
  : @world coord * settings :=
  match pw with
  | None => (w, t)
  | Some pw =>
      if negb (Py.truthy pw) then (w, t)
      else if negb (verify_password hash_password verify_fault pw t) then (w, t)
      else if negb confirm then (w, t)
      else clear_application_data w t
  end.

(** [change_password_prompt] on the settings table: the three dialogs
    return [old_pw], [new_pw] and [confirm_pw], [None] when cancelled; a
    later dialog is not reached when the method has returned before. *)
Definition change_password_prompt
    (hash_password : string → string → string)
    (verify_fault update_fault : option exn) (salt : string)
    (old_pw new_pw confirm_pw : option string) (t : settings) : settings :=
  match old_pw with
  | None => t
  | Some old_pw =>
      if negb (Py.truthy old_pw) then t
      else if negb (verify_password hash_password verify_fault old_pw t) then t
      else
        match new_pw with
        | None => t
        | Some new_pw =>
            if negb (Py.truthy new_pw) then t
            else
              match confirm_pw with
              | None => t
              | Some confirm_pw =>
                  if negb (Py.truthy confirm_pw) then t
                  else if bool_decide (new_pw ≠ confirm_pw) then t
                  else (update_password_db hash_password update_fault salt new_pw t).2
              end
        end
  end.

End ModelMore.

(** ** Further scenarios *)

Module Examples.

Import Scenario.

(** A cache that holds Jackson. *)
Definition cached_jackson : list (@geocache_row Z) :=
  [GeocacheRow "Jackson|MS" jackson.1 jackson.2 "2025-01-01 00:00:00"].

(** The case table cannot be read. *)
Definition env_unreadable : @environment Z :=
  Environment knows_jackson (fun _ => 300%N) no_fault no_fault
    (Some SqliteError) timestamp false.

(** A map that still shows the marker of Jackson from an earlier
    refresh. *)
Definition jackson_marker : @marker Z :=
  Marker jackson.1 jackson.2 ""
    ("Jackson, MS" +:+ newline +:+ "Offense Types: Fraud, Theft").

Definition showing_jackson : @world Z :=
  World fraud_and_theft cached_jackson (Some [jackson_marker])
    {[ ("Jackson", "MS") := jackson_marker ]} [] [] [] (Some []) Finished
    false 0 0%N [].

(** A widget with the method [delete_all_markers], and the table
    unreadable. *)
Definition env_unreadable_clearing : @environment Z :=
  Environment knows_jackson (fun _ => 300%N) no_fault no_fault
    (Some SqliteError) timestamp true.

(** A worker in its loop, with one record in the table and an empty
    cache. *)
Definition busy : @world Z :=
  World one_case [] (Some []) ∅ [] [] [] (Some []) Running true 1 0%N [].

(** SQLite's conversion on the texts used below: the text of the number
    1 is that number, the item id the Treeview gives its first row is no
    number. *)
Definition as_integer (text : string) : option Z :=
  if decide (text = "1") then Some 1%Z else None.

(** A stand-in for PBKDF2 that keeps distinct passwords distinct. *)
Definition toy_hash (password salt : string) : string :=
  salt +:+ ":" +:+ password.

Definition quote : string := String (ascii_of_nat 34) "".

(** The text of a list holding the string MS, and of a list holding the
    list of the two column names. *)
Definition focal_text : string := "[" +:+ quote +:+ "MS" +:+ quote +:+ "]".

Definition columns_text : string :=
  "[[" +:+ quote +:+ "case_number" +:+ quote +:+ ", "
       +:+ quote +:+ "notes" +:+ quote +:+ "]]".

(** [json.dumps] on the two shapes stored below, for strings without a
    character to escape. *)
Definition dumps (v : @json Z) : string :=
  match v with
  | JList [JStr s] => "[" +:+ quote +:+ s +:+ quote +:+ "]"
  | JList [JList [JStr a; JStr b]] =>
      "[[" +:+ quote +:+ a +:+ quote +:+ ", " +:+ quote +:+ b +:+ quote +:+ "]]"
  | _ => "null"
  end.

(** [json.loads] on the two texts. *)
Definition loads (text : string) : outcome (@json Z) :=
  if decide (text = focal_text) then Return (JList [JStr "MS"])
  else if decide (text = columns_text) then
    Return (JList [JList [JStr "case_number"; JStr "notes"]])
  else Raise OtherException.

Definition nonzero (z : Z) : bool := negb (z =? 0)%Z.

(** A settings table with the password hunter2 and one combo list. *)
Definition office : settings :=
  [("password_hash", Some "a1b2:hunter2"); ("salt", Some "a1b2");
   ("combo_userpref_treeview_columns", Some columns_text)].

Definition tree_columns : list string := ["id"; "case_number"; "notes"].

End Examples.
(** * Properties *)

(** ** The geocode cache *)

Section Cache.

Context {coord : Type}.
Implicit Types (t : list (@geocache_row coord)) (key : string).

Lemma select_geocache_app key t1 t2 :
  select_geocache key (t1 ++ t2) =
  match select_geocache key t1 with
  | Some c => Some c
  | None => select_geocache key t2
  end.
Proof.
  induction t1 as [|r t1 IH]; simpl; [done|].
  destruct (decide (location_key r = key)); [done|apply IH].
Qed.

Lemma select_geocache_none key t :
  select_geocache key t = None ↔ ∀ r, r ∈ t → location_key r ≠ key.
Proof.
  induction t as [|r t IH]; simpl.
  - split; [intros _ r Hr; by apply elem_of_nil in Hr|done].
  - destruct (decide (location_key r = key)) as [He|Hne].
    + split; [done|]. intros H. destruct (H r); [left|done].
    + rewrite IH. split.
      * intros H r' [->|Hr']%elem_of_cons; auto.
      * intros H r' Hr'. apply H. by right.
Qed.

Lemma select_geocache_filter_other key t :
  select_geocache key (filter (fun r => location_key r ≠ key) t) = None.
Proof.
  apply select_geocache_none. intros r Hr%list_elem_of_filter. tauto.
Qed.

Lemma select_insert_or_replace_eq r t :
  select_geocache (location_key r) (insert_or_replace r t) =
  Some (latitude r, longitude r).
Proof.
  unfold insert_or_replace.
  rewrite select_geocache_app, select_geocache_filter_other. simpl.
  by rewrite decide_True.
Qed.

Lemma select_geocache_filter_ne key key' t :
  key ≠ key' →
  select_geocache key (filter (fun r => location_key r ≠ key') t) =
  select_geocache key t.
Proof.
  intros Hne. induction t as [|r t IH]; [done|].
  rewrite filter_cons. destruct (decide (location_key r ≠ key')) as [H|H]; simpl.
  - destruct (decide (location_key r = key)); [done|apply IH].
  - rewrite decide_False; [apply IH|]. intros E. apply H. congruence.
Qed.

Lemma select_insert_or_replace_ne key r t :
  key ≠ location_key r →
  select_geocache key (insert_or_replace r t) = select_geocache key t.
Proof.
  intros Hne. unfold insert_or_replace.
  rewrite select_geocache_app, select_geocache_filter_ne by done.
  destruct (select_geocache key t); [done|]. simpl.
  by rewrite decide_False.
Qed.

Lemma rows_of_key_insert_or_replace r t :
  filter (fun r' => location_key r' = location_key r) (insert_or_replace r t)
  = [r].
Proof.
  unfold insert_or_replace. rewrite filter_app.
  rewrite (filter_cons _ r), decide_True by done. rewrite filter_nil.
  replace (filter _ (filter _ t)) with (@nil (@geocache_row coord)); [done|].
  symmetry. induction t as [|r' t IH]; [done|].
  rewrite (filter_cons _ r' t).
  destruct (decide (location_key r' ≠ location_key r)) as [H|H]; [|done].
  rewrite filter_cons, decide_False by done. done.
Qed.

Lemma pk_unique_insert_or_replace r t :
  pk_unique t → pk_unique (insert_or_replace r t).
Proof.
  unfold pk_unique, insert_or_replace. intros Hnd.
  rewrite map_app. simpl. apply NoDup_app. split; [|split].
  - clear -Hnd. induction t as [|r' t IH]; [constructor|].
    simpl in Hnd. apply NoDup_cons in Hnd as [Hni Hnd].
    rewrite filter_cons. destruct (decide _); [|by apply IH].
    simpl. apply NoDup_cons. split; [|by apply IH].
    intros Hin. apply Hni.
    apply list_elem_of_fmap in Hin as (x & -> & Hx%list_elem_of_filter).
    apply list_elem_of_fmap. exists x. tauto.
  - intros k Hk Hk'. apply list_elem_of_singleton in Hk' as ->.
    apply list_elem_of_fmap in Hk as (x & Hx & Hin%list_elem_of_filter).
    destruct Hin as [Hin _]. by apply Hin.
  - apply NoDup_singleton.
Qed.

Lemma add_cached_location_db_true fault key lat lon ts t t' :
  add_cached_location_db fault key lat lon ts t = (true, t') →
  fault = None ∧ t' = insert_or_replace (GeocacheRow key lat lon ts) t.
Proof.
  unfold add_cached_location_db, add_cached_location_db_try.
  destruct fault; simpl; intros H; [discriminate|].
  by injection H as <-.
Qed.

Lemma select_geocache_hit key t r :
  pk_unique t → r ∈ t → location_key r = key →
  select_geocache key t = Some (latitude r, longitude r).
Proof.
  unfold pk_unique. induction t as [|r' t IH]; intros Hnd Hin Hk.
  - by apply elem_of_nil in Hin.
  - simpl in *. apply NoDup_cons in Hnd as [Hni Hnd].
    apply elem_of_cons in Hin as [->|Hin].
    + by rewrite decide_True.
    + rewrite decide_False; [by apply IH|].
      intros E. apply Hni. apply list_elem_of_fmap. exists r. split; [congruence|done].
Qed.

Lemma get_cached_location_db_select key t :
  get_cached_location_db None key t = select_geocache key t.
Proof.
  unfold get_cached_location_db, get_cached_location_db_try.
  by destruct (select_geocache key t) as [[??]|].
Qed.

(** Every table that puts build from the empty table satisfies the primary
    key constraint. *)
Lemma pk_unique_puts (puts : list (option exn * string * coord * coord * string)) :
  pk_unique
    (fold_left
       (fun t '(fault, key, lat, lon, ts) =>
          (add_cached_location_db fault key lat lon ts t).2)
       puts []).
Proof.
  assert (H : ∀ t, pk_unique t →
            pk_unique
              (fold_left
                 (fun t '(fault, key, lat, lon, ts) =>
                    (add_cached_location_db fault key lat lon ts t).2)
                 puts t)).
  { induction puts as [|[[[[fault key] lat] lon] ts] puts IH]; intros t Ht; [done|].
    simpl. apply IH. unfold add_cached_location_db, add_cached_location_db_try.
    destruct fault; simpl; [done|]. by apply pk_unique_insert_or_replace. }
  apply H. constructor.
Qed.

(** C2. A put that succeeds, followed by a get of the same key that
    reaches the store, returns exactly the latitude and longitude that
    were put. *)
Theorem cache_round_trip fault key (lat lon : coord) ts t t' :
  add_cached_location_db fault key lat lon ts t = (true, t') →
  get_cached_location_db None key t' = Some (lat, lon).
Proof.
  intros [_ ->]%add_cached_location_db_true.
  rewrite get_cached_location_db_select.
  apply (select_insert_or_replace_eq (GeocacheRow key lat lon ts)).
Qed.

(** C3. Two successive puts with the same key leave one row for the key,
    the one of the later put: get returns the later coordinates, not the
    earlier ones when they differ, and the primary key stays unique. *)
Theorem cache_upsert fault1 fault2 key (lat1 lon1 lat2 lon2 : coord)
    ts1 ts2 t t1 t2 :
  add_cached_location_db fault1 key lat1 lon1 ts1 t = (true, t1) →
  add_cached_location_db fault2 key lat2 lon2 ts2 t1 = (true, t2) →
  get_cached_location_db None key t2 = Some (lat2, lon2) ∧
  filter (fun r => location_key r = key) t2 = [GeocacheRow key lat2 lon2 ts2] ∧
  ((lat1, lon1) ≠ (lat2, lon2) →
   get_cached_location_db None key t2 ≠ Some (lat1, lon1)) ∧
  (pk_unique t → pk_unique t2).
Proof.
  intros [_ ->]%add_cached_location_db_true [_ ->]%add_cached_location_db_true.
  assert (Hget : get_cached_location_db None key
            (insert_or_replace (GeocacheRow key lat2 lon2 ts2)
               (insert_or_replace (GeocacheRow key lat1 lon1 ts1) t))
          = Some (lat2, lon2)).
  { rewrite get_cached_location_db_select.
    apply (select_insert_or_replace_eq (GeocacheRow key lat2 lon2 ts2)). }
  split; [exact Hget|]. split; [|split].
  - apply (rows_of_key_insert_or_replace (GeocacheRow key lat2 lon2 ts2)).
  - rewrite Hget. congruence.
  - intros Hpk. by do 2 apply pk_unique_insert_or_replace.
Qed.

(** C5. The cache lookup never raises: when its body raises a storage
    error it returns nothing; otherwise it returns the stored pair of the
    row with the key on a hit and nothing on a miss. *)
Theorem cache_lookup_never_raises key t :
  (∀ fault, ∃ answer,
      get_cached_location_db fault key t = answer ∧
      match get_cached_location_db_try fault key t with
      | Return r => answer = r
      | Raise _ => answer = None
      end) ∧
  (∀ e, get_cached_location_db_try (Some e) key t = Raise e ∧
        get_cached_location_db (Some e) key t = None) ∧
  (∀ r, pk_unique t → r ∈ t → location_key r = key →
        get_cached_location_db None key t = Some (latitude r, longitude r)) ∧
  ((∀ r, r ∈ t → location_key r ≠ key) →
   get_cached_location_db None key t = None).
Proof.
  split; [|split; [|split]].
  - intros fault. eexists. split; [done|].
    unfold get_cached_location_db.
    by destruct (get_cached_location_db_try fault key t).
  - done.
  - intros r Hpk Hin Hk. rewrite get_cached_location_db_select.
    by apply select_geocache_hit.
  - intros Hmiss. rewrite get_cached_location_db_select.
    by apply select_geocache_none.
Qed.

End Cache.

(** ** Grouping *)

Section Grouping.

Implicit Types (g : groups) (key : location) (c : case).

Lemma location_of_Some c city state :
  location_of c = Some (city, state) ↔
  Py.strip (Py.or_empty (city_of_offense c)) = city ∧
  Py.strip (Py.or_empty (state_of_offense c)) = state ∧
  city ≠ "" ∧ state ≠ "".
Proof.
  unfold location_of.
  destruct (Py.strip (Py.or_empty (city_of_offense c))) as [|a s] eqn:Hc;
    destruct (Py.strip (Py.or_empty (state_of_offense c))) as [|b s'] eqn:Hs;
    simpl; split; try (intros H; discriminate H);
    try (intros (<- & <- & ? & ?); congruence).
  intros [= <- <-]. done.
Qed.

Lemma location_of_None c :
  location_of c = None ↔
  Py.strip (Py.or_empty (city_of_offense c)) = "" ∨
  Py.strip (Py.or_empty (state_of_offense c)) = "".
Proof.
  unfold location_of.
  destruct (Py.strip (Py.or_empty (city_of_offense c))) as [|a s];
    destruct (Py.strip (Py.or_empty (state_of_offense c))) as [|b s'];
    simpl; split; intros H; try discriminate H; auto; destruct H; discriminate.
Qed.

Lemma groups_get_append key key' c g :
  groups_get key' (groups_append key c g) =
  if decide (key = key') then groups_get key g ++ [c] else groups_get key' g.
Proof.
  induction g as [|[k cs] g IH]; simpl.
  - destruct (decide (key = key')); done.
  - destruct (decide (k = key)) as [->|Hk]; simpl.
    + destruct (decide (key = key')); done.
    + destruct (decide (k = key')) as [->|Hk'].
      * by rewrite decide_False.
      * apply IH.
Qed.

Lemma group_keys_append key c g :
  group_keys (groups_append key c g) =
  if decide (key ∈ group_keys g) then group_keys g else group_keys g ++ [key].
Proof.
  unfold group_keys. induction g as [|[k cs] g IH]; [done|].
  cbn [groups_append]. rewrite fmap_cons. cbn [fst].
  destruct (decide (k = key)) as [->|Hk].
  - rewrite fmap_cons. cbn [fst]. rewrite decide_True; [done|]. left.
  - rewrite fmap_cons, IH. cbn [fst].
    destruct (decide (key ∈ g.*1)) as [Hin|Hni].
    + rewrite decide_True; [done|]. by right.
    + rewrite decide_False; [done|].
      intros [E|?]%elem_of_cons; [congruence|done].
Qed.

Lemma groups_get_fold key cases g :
  groups_get key (fold_left group_step cases g) =
  groups_get key g ++ filter (fun c => location_of c = Some key) cases.
Proof.
  revert g. induction cases as [|c cases IH]; intros g; simpl.
  - by rewrite app_nil_r.
  - rewrite IH, filter_cons. unfold group_step.
    destruct (location_of c) as [k|] eqn:Hloc.
    + rewrite groups_get_append.
      destruct (decide (k = key)) as [->|Hne].
      * rewrite decide_True by done. by rewrite <- app_assoc.
      * rewrite decide_False; [done|]. congruence.
    + by rewrite decide_False.
Qed.

Lemma group_keys_fold_NoDup cases g :
  NoDup (group_keys g) → NoDup (group_keys (fold_left group_step cases g)).
Proof.
  revert g. induction cases as [|c cases IH]; intros g Hnd; simpl; [done|].
  apply IH. unfold group_step. destruct (location_of c) as [k|]; [|done].
  rewrite group_keys_append. destruct (decide _) as [|Hni]; [done|].
  apply NoDup_app. split; [done|]. split; [|apply NoDup_singleton].
  intros x Hx ->%list_elem_of_singleton. done.
Qed.

Lemma group_keys_fold_elem key cases g :
  key ∈ group_keys (fold_left group_step cases g) ↔
  key ∈ group_keys g ∨ ∃ c, c ∈ cases ∧ location_of c = Some key.
Proof.
  revert g. induction cases as [|c cases IH]; intros g; simpl.
  - split; [auto|]. intros [?|(c & Hc & _)]; [done|]. by apply elem_of_nil in Hc.
  - rewrite IH. unfold group_step.
    destruct (location_of c) as [k|] eqn:Hloc.
    + rewrite group_keys_append. split.
      * intros [Hin|(c' & Hc' & Hl)].
        -- destruct (decide (k ∈ group_keys g)); [by left|].
           apply elem_of_app in Hin as [?|Hs]; [by left|].
           apply list_elem_of_singleton in Hs as ->. right. exists c. split; [left|done].
        -- right. exists c'. split; [by right|done].
      * intros [Hin|(c' & Hc' & Hl)].
        -- left. destruct (decide _); [done|]. apply elem_of_app. by left.
        -- apply elem_of_cons in Hc' as [->|Hc'].
           ++ left. rewrite Hloc in Hl. injection Hl as ->.
              destruct (decide _); [done|]. apply elem_of_app. right. left.
           ++ right. eauto.
    + split.
      * intros [?|(c' & ? & ?)]; [by left|]. right. exists c'. split; [by right|done].
      * intros [?|(c' & Hc' & Hl)]; [by left|].
        apply elem_of_cons in Hc' as [->|Hc']; [congruence|]. right. eauto.
Qed.

Lemma group_keys_NoDup cases : NoDup (group_keys (group_cases cases)).
Proof. apply group_keys_fold_NoDup. constructor. Qed.

Lemma group_keys_elem key cases :
  key ∈ group_keys (group_cases cases) ↔ key ∈ distinct_locations cases.
Proof.
  unfold group_cases, distinct_locations.
  rewrite group_keys_fold_elem, elem_of_remove_dups, list_elem_of_omap.
  split.
  - intros [Hin|?]; [by apply elem_of_nil in Hin|done].
  - by right.
Qed.

(** The keys of [grouped] are the distinct non-empty pairs, up to order. *)
Lemma group_keys_distinct cases :
  group_keys (group_cases cases) ≡ₚ distinct_locations cases.
Proof.
  apply NoDup_Permutation.
  - apply group_keys_NoDup.
  - apply NoDup_remove_dups.
  - intros key. apply group_keys_elem.
Qed.

Lemma groups_get_group_cases key cases :
  groups_get key (group_cases cases) =
  filter (fun c => location_of c = Some key) cases.
Proof. unfold group_cases. by rewrite groups_get_fold. Qed.

(** C6. The keys of the grouping are, without repetition, the pairs of
    trimmed city and trimmed state of the records in which both are
    non-empty; each key groups the records with that trimmed pair, in
    order; a record whose trimmed city or state is empty or missing is in
    no group, and the grouping is defined on every list of records. *)
Theorem grouping_trims_and_filters (cases : list case) :
  NoDup (group_keys (group_cases cases)) ∧
  (∀ city state,
      (city, state) ∈ group_keys (group_cases cases) ↔
      ∃ c, c ∈ cases ∧
           Py.strip (Py.or_empty (city_of_offense c)) = city ∧
           Py.strip (Py.or_empty (state_of_offense c)) = state ∧
           city ≠ "" ∧ state ≠ "") ∧
  (∀ key, groups_get key (group_cases cases) =
          filter (fun c => location_of c = Some key) cases) ∧
  (∀ c, c ∈ cases →
        Py.strip (Py.or_empty (city_of_offense c)) = "" ∨
        Py.strip (Py.or_empty (state_of_offense c)) = "" →
        ∀ key, c ∉ groups_get key (group_cases cases)).
Proof.
  split; [apply group_keys_NoDup|]. split; [|split].
  - intros city state. unfold group_cases. rewrite group_keys_fold_elem.
    split.
    + intros [Hin|(c & Hc & Hl)]; [by apply elem_of_nil in Hin|].
      exists c. split; [done|]. by apply location_of_Some.
    + intros (c & Hc & Hl). right. exists c. split; [done|].
      by apply location_of_Some.
  - intros key. apply groups_get_group_cases.
  - intros c _ Hempty%location_of_None key.
    rewrite groups_get_group_cases. intros [Hl _]%list_elem_of_filter.
    congruence.
Qed.

End Grouping.

(** ** The pipeline *)

Section Pipeline.

Context {coord : Type}.

Local Abbreviation coords := (coord * coord)%type.
Local Abbreviation result := (location * coords)%type.
Local Abbreviation view := (option (list (@marker coord)) * gmap location (@marker coord))%type.

Implicit Types (w : @world coord) (env : @environment coord)
  (v : view) (r : result) (k : location) (g : groups)
  (schedule : list tick).

(** *** Marker placement and the view *)

Lemma _place_map_marker_view city state (c : coords) w :
  _place_map_marker city state c w =
  with_view (place_view (_grouped_cases_by_location w) (markers_view w)
               ((city, state), c)) w.
Proof.
  destruct c as [lat lon], w as [? ? [on_map|] ? ? ? ? ? ? ? ? ? ?]; reflexivity.
Qed.

Lemma place_result_view w r :
  place_result w r =
  with_view (place_view (_grouped_cases_by_location w) (markers_view w) r) w.
Proof.
  unfold place_result. rewrite _place_map_marker_view.
  by destruct r as [[??] ?].
Qed.

Lemma with_view_with_view v v' w : with_view v (with_view v' w) = with_view v w.
Proof. reflexivity. Qed.

Lemma with_view_markers_view w : with_view (markers_view w) w = w.
Proof. by destruct w. Qed.

Lemma markers_view_with_view v w : markers_view (with_view v w) = v.
Proof. by destruct v. Qed.

Lemma fold_place_result_view (l : list result) w :
  fold_left place_result l w =
  with_view (fold_left (place_view (_grouped_cases_by_location w)) l
               (markers_view w)) w.
Proof.
  revert w. induction l as [|r l IH]; intros w; simpl.
  - by rewrite with_view_markers_view.
  - rewrite IH, place_result_view, markers_view_with_view. reflexivity.
Qed.

Lemma place_view_widget g v r : is_Some (place_view g v r).1 ↔ is_Some v.1.
Proof. unfold place_view. destruct v as [[on_map|] mm]; simpl; done. Qed.

Lemma fold_place_view_widget g (l : list result) v :
  is_Some (fold_left (place_view g) l v).1 ↔ is_Some v.1.
Proof.
  revert v. induction l as [|r l IH]; intros v; simpl; [done|].
  by rewrite IH, place_view_widget.
Qed.

Lemma fold_place_view_dom g (l : list result) (on_map : list marker)
    (mm : gmap location marker) :
  dom (fold_left (place_view g) l (Some on_map, mm)).2 =
  dom mm ∪ list_to_set l.*1.
Proof.
  revert on_map mm. induction l as [|r l IH]; intros on_map mm; simpl.
  - by rewrite (right_id_L ∅ (∪)).
  - unfold place_view at 2. simpl. rewrite IH, dom_insert_L.
    by rewrite (comm_L (∪) {[r.1]} (dom mm)), <- (assoc_L (∪)).
Qed.

Lemma fold_place_view_shown g (l : list result) (on_map : list marker)
    (mm : gmap location marker) :
  ∃ shown, (fold_left (place_view g) l (Some on_map, mm)).1 = Some shown ∧
           List.length shown = List.length on_map + List.length l.
Proof.
  revert on_map mm. induction l as [|r l IH]; intros on_map mm; simpl.
  - exists on_map. split; [done|lia].
  - unfold place_view at 2. simpl.
    destruct (IH (on_map ++ [Marker r.2.1 r.2.2 "" (info_text_of r.1.1 r.1.2 (groups_get r.1 g))])
                (<[r.1 := Marker r.2.1 r.2.2 "" (info_text_of r.1.1 r.1.2 (groups_get r.1 g))]> mm))
      as (shown & -> & Hlen).
    exists shown. split; [done|]. rewrite Hlen, length_app. simpl. lia.
Qed.

(** Placements add to the widget, one marker each, behind those it
    holds. *)
Lemma fold_place_view_added g (l : list result) (on_map : list marker)
    (mm : gmap location marker) :
  ∃ shown, (fold_left (place_view g) l (Some on_map, mm)).1
           = Some (on_map ++ shown) ∧
           List.length shown = List.length l.
Proof.
  revert on_map mm. induction l as [|r l IH]; intros on_map mm; simpl.
  - exists []. by rewrite app_nil_r.
  - unfold place_view at 2. simpl.
    destruct (IH (on_map ++ [Marker r.2.1 r.2.2 "" (info_text_of r.1.1 r.1.2 (groups_get r.1 g))])
                (<[r.1 := Marker r.2.1 r.2.2 "" (info_text_of r.1.1 r.1.2 (groups_get r.1 g))]> mm))
      as (shown & -> & Hlen).
    eexists (_ :: shown). split; [by rewrite <- app_assoc|]. simpl. lia.
Qed.

Lemma fold_place_view_keeps g (l : list result) v k (c : coords) :
  is_Some v.1 → v.2 !! k = Some (marker_for g k c) →
  (∀ r, r ∈ l → r.1 = k → r.2 = c) →
  (fold_left (place_view g) l v).2 !! k = Some (marker_for g k c).
Proof.
  revert v. induction l as [|r l IH]; intros v Hw Hk Hl; simpl; [done|].
  apply IH.
  - by apply place_view_widget.
  - destruct v as [[on_map|] mm]; [|by destruct Hw]. unfold place_view. simpl in *.
    destruct (decide (r.1 = k)) as [E|Hne].
    + rewrite <- (Hl r); [|left|done]. subst k. apply lookup_insert_eq.
    + by rewrite lookup_insert_ne.
  - intros r' Hr'. apply Hl. by right.
Qed.

Lemma fold_place_view_last g (l1 l2 : list result) v k (c : coords) :
  is_Some v.1 →
  (∀ r, r ∈ l2 → r.1 = k → r.2 = c) →
  (fold_left (place_view g) (l1 ++ (k, c) :: l2) v).2 !! k =
  Some (marker_for g k c).
Proof.
  intros Hw Hl. rewrite fold_left_app. simpl.
  apply fold_place_view_keeps; [| |done].
  - by apply place_view_widget, fold_place_view_widget.
  - apply (fold_place_view_widget g l1) in Hw.
    destruct (fold_left (place_view g) l1 v) as [[on_map|] mm]; [|by destruct Hw].
    unfold place_view. simpl. apply lookup_insert_eq.
Qed.

(** *** What one iteration of the worker changes *)

Lemma geocode_item_results env k w :
  _geocoded_results (geocode_item env k w) =
  (fun rs => rs ++ option_list (resolve env k)) <$> _geocoded_results w.
Proof.
  unfold geocode_item, resolve. destruct k as [city state]. simpl.
  destruct (geocode env (query_of city state));
    destruct (_geocoded_results w) as [rs|] eqn:E; simpl;
    rewrite ?E; simpl; rewrite ?app_nil_r; done.
Qed.

Lemma geocode_item_frame env k w :
  markers_view (geocode_item env k w) = markers_view w ∧
  _grouped_cases_by_location (geocode_item env k w) = _grouped_cases_by_location w ∧
  geocoding_queue (geocode_item env k w) = geocoding_queue w ∧
  geocoding_thread (geocode_item env k w) = geocoding_thread w ∧
  scheduled_polls (geocode_item env k w) = scheduled_polls w.
Proof.
  unfold geocode_item. destruct k as [city state].
  simpl. destruct (geocode env (query_of city state));
    destruct (_geocoded_results w); done.
Qed.

Lemma geocode_item_clock env k w :
  clock (geocode_item env k w) =
  (clock w + geocode_ms env (query_of k.1 k.2) + 1000)%N.
Proof.
  unfold geocode_item. destruct k as [city state].
  simpl. destruct (geocode env (query_of city state));
    destruct (_geocoded_results w); done.
Qed.

Lemma geocode_item_calls env k w :
  provider_calls (geocode_item env k w) =
  provider_calls w ++ [(clock w, query_of k.1 k.2)].
Proof.
  unfold geocode_item. destruct k as [city state].
  simpl. destruct (geocode env (query_of city state));
    destruct (_geocoded_results w); done.
Qed.

Lemma geocode_item_geocache env k w :
  geocache (geocode_item env k w) =
  match geocode env (query_of k.1 k.2) with
  | Located lat lon =>
      (add_cached_location_db
         (cache_write_fault env (location_key_of k.1 k.2))
         (location_key_of k.1 k.2) lat lon
         (now_text env (clock w + geocode_ms env (query_of k.1 k.2))%N)
         (geocache w)).2
  | NoMatch | ProviderRaises _ => geocache w
  end.
Proof.
  unfold geocode_item. destruct k as [city state].
  simpl. destruct (geocode env (query_of city state));
    destruct (_geocoded_results w); done.
Qed.

(** *** Ticks preserve what is still to be shown *)

Lemma omap_resolve_cons env k (ks : list location) :
  omap (resolve env) (k :: ks) =
  option_list (resolve env k) ++ omap (resolve env) ks.
Proof. simpl. by destruct (resolve env k). Qed.

Lemma run_nil env w : run env [] w = w.
Proof. reflexivity. Qed.

Lemma run_cons env t schedule w :
  run env (t :: schedule) w = run env schedule (step env w t).
Proof. reflexivity. Qed.

Lemma run_app env schedule1 schedule2 w :
  run env (schedule1 ++ schedule2) w =
  run env schedule2 (run env schedule1 w).
Proof. apply fold_left_app. Qed.

Lemma fold_left_cons {A B} (f : A → B → A) (x : B) (l : list B) (a : A) :
  fold_left f (x :: l) a = fold_left f l (f a x).
Proof. reflexivity. Qed.

Local Arguments fold_left : simpl never.

Local Ltac drained :=
  unfold results_drained in *; simpl in *;
  first [ congruence | by left | by right | by auto ].

Local Ltac split_ok :=
  unfold pipeline_ok; simpl; split_and!; intros; simpl in *;
  try done; try congruence; try (by eexists); try drained;
  try (left; lia); try (right; split; [done|drained]);
  try (exfalso; eapply is_Some_None; by eauto).

Lemma worker_tick_ok env w :
  pipeline_ok w →
  pipeline_ok (worker_tick env w) ∧
  settle env (worker_tick env w) = settle env w ∧
  _grouped_cases_by_location (worker_tick env w) = _grouped_cases_by_location w.
Proof.
  intros (Hs & Hr & Hq & Hp). unfold worker_tick.
  destruct (geocoding_thread w) eqn:Ht.
  - split; [|done]. unfold pipeline_ok. rewrite Ht. done.
  - (* first statement of the worker *)
    split; [|split; [|done]].
    + split_ok; try (destruct Hp as [?|[? _]]; [by left|done]).
    + unfold settle, outstanding. simpl. by rewrite Ht.
  - destruct (geocoding_queue w) as [|k rest] eqn:Hqueue.
    + (* the queue is empty: the thread ends *)
      split; [|split; [|done]].
      * split_ok; try (destruct Hp as [?|[? _]]; [by left|done]).
      * unfold settle, outstanding. simpl. by rewrite Ht, Hqueue, app_nil_r.
    + (* one item *)
      set (w' := set_geocoding_queue rest w).
      destruct (geocode_item_frame env k w') as (Hv & Hg & Hq' & Ht' & Hp').
      destruct (Hr eq_refl) as [rs Hrs].
      split; [|split; [|by rewrite Hg]].
      * unfold pipeline_ok. rewrite Ht', Hp', geocode_item_results.
        subst w'. simpl. rewrite Ht, Hrs.
        split_ok; try (destruct Hp as [?|[? _]]; [by left|done]).
      * unfold settle, outstanding. rewrite Hv, Hg, Hq', Ht'.
        unfold results_list. rewrite geocode_item_results.
        subst w'. simpl. rewrite Ht, Hqueue, Hrs. simpl.
        f_equal. rewrite <- app_assoc. f_equal.
        by destruct (resolve env k).
  - split; [|done]. unfold pipeline_ok. rewrite Ht. done.
Qed.

Lemma _process_geocoding_results_ok env w n :
  pipeline_ok w → scheduled_polls w = S n →
  pipeline_ok (_process_geocoding_results (set_scheduled_polls n w)) ∧
  settle env (_process_geocoding_results (set_scheduled_polls n w)) =
  settle env w ∧
  _grouped_cases_by_location
    (_process_geocoding_results (set_scheduled_polls n w)) =
  _grouped_cases_by_location w.
Proof.
  intros (Hs & Hr & Hq & Hp) Hn. unfold _process_geocoding_results.
  destruct (is_alive (geocoding_thread w)) eqn:Ha;
    destruct (_geocoded_results w) as [[|r rs]|] eqn:Hres;
    repeat (progress (simpl; rewrite ?Hres, ?Ha, ?fold_place_result_view)).
  - split; [|split; reflexivity]. split_ok.
  - assert (Hns : geocoding_thread w ≠ Started).
    { intros E. destruct (Hs E) as [H|H]; congruence. }
    split; [|split; [|reflexivity]].
    + split_ok.
    + unfold settle, outstanding, results_list. simpl. rewrite Hres.
      destruct (geocoding_thread w); simpl in Ha; try done; try congruence.
      rewrite fold_left_app. f_equal.
      exact (markers_view_with_view _ w).
  - split; [|split; reflexivity]. split_ok.
  - split; [|split; reflexivity]. split_ok.
  - split; [|split; [|reflexivity]].
    + split_ok.
    + unfold settle, outstanding, results_list. simpl. rewrite Hres.
      destruct (geocoding_thread w); simpl in Ha; try done; try congruence;
        exact (markers_view_with_view _ w).
  - split; [|split; reflexivity]. split_ok.
Qed.

Lemma poll_tick_ok env w :
  pipeline_ok w →
  pipeline_ok (poll_tick w) ∧
  settle env (poll_tick w) = settle env w ∧
  _grouped_cases_by_location (poll_tick w) = _grouped_cases_by_location w.
Proof.
  intros Hok. unfold poll_tick.
  destruct (scheduled_polls w) as [|n] eqn:Hn; [done|].
  by apply _process_geocoding_results_ok.
Qed.

Lemma no_refresh_cons t schedule :
  no_refresh (t :: schedule) ↔ t ≠ RefreshTick ∧ no_refresh schedule.
Proof.
  unfold no_refresh. rewrite not_elem_of_cons. split; intros [? ?]; split; done.
Qed.

Lemma run_ok env schedule w :
  no_refresh schedule → pipeline_ok w →
  pipeline_ok (run env schedule w) ∧
  settle env (run env schedule w) = settle env w ∧
  _grouped_cases_by_location (run env schedule w) = _grouped_cases_by_location w.
Proof.
  revert w. induction schedule as [|t schedule IH]; intros w Hnr Hok; [done|].
  apply no_refresh_cons in Hnr as [Ht Hnr]. rewrite run_cons.
  assert (Hstep : pipeline_ok (step env w t) ∧
                  settle env (step env w t) = settle env w ∧
                  _grouped_cases_by_location (step env w t) =
                  _grouped_cases_by_location w).
  { destruct t; simpl; [by apply worker_tick_ok|by apply poll_tick_ok|done]. }
  destruct Hstep as (Hok' & Hse & Hg).
  destruct (IH (step env w t) Hnr Hok') as (? & Hse' & Hg').
  split; [done|]. split; congruence.
Qed.

Lemma complete_settled env w :
  pipeline_ok w → complete w → settle env w = markers_view w.
Proof.
  intros (_ & _ & _ & Hp) [Ha Hz]. unfold settle, outstanding, results_list.
  destruct Hp as [?|[_ Hd]]; [lia|].
  destruct (geocoding_thread w); try done;
    destruct Hd as [-> | ->]; done.
Qed.

(** Whatever the interleaving, a refresh that is over shows what was
    still to be shown when it began. *)
Lemma final_view env schedule w :
  no_refresh schedule → pipeline_ok w → complete (run env schedule w) →
  markers_view (run env schedule w) = settle env w.
Proof.
  intros Hnr Hok Hc. destruct (run_ok env schedule w Hnr Hok) as (Hok' & Hse & _).
  rewrite <- Hse. symmetry. by apply complete_settled.
Qed.

(** *** A refresh from an idle pipeline *)

Lemma cache_hits_cons env (t : list (@geocache_row coord)) k (ks : list location) :
  cache_hits env t (k :: ks) =
  match cache_hit env t k with
  | Some c => (k, c) :: cache_hits env t ks
  | None => cache_hits env t ks
  end.
Proof. unfold cache_hits. simpl. by destruct (cache_hit env t k). Qed.

Lemma cache_misses_cons env (t : list (@geocache_row coord)) k (ks : list location) :
  cache_misses env t (k :: ks) =
  match cache_hit env t k with
  | Some c => cache_misses env t ks
  | None => k :: cache_misses env t ks
  end.
Proof.
  unfold cache_misses. rewrite filter_cons.
  destruct (cache_hit env t k); [by rewrite decide_False|by rewrite decide_True].
Qed.

(** The loop of [load_map_markers] over the entries [l] of [grouped]. *)
Lemma load_loop env (l : groups) w :
  fold_left (load_location env) l w =
  set_geocoding_queue
    (geocoding_queue w ++ cache_misses env (geocache w) l.*1)
    (set_pending
       (_pending_marker_locations w ++ cache_misses env (geocache w) l.*1)
       (with_view
          (fold_left (place_view (_grouped_cases_by_location w))
             (cache_hits env (geocache w) l.*1) (markers_view w))
          w)).
Proof.
  revert w. induction l as [|[[city state] cs] l IH]; intros w.
  - destruct w. simpl. by rewrite !app_nil_r.
  - rewrite fold_left_cons, IH, fmap_cons. cbn [fst].
    rewrite cache_hits_cons, cache_misses_cons.
    unfold load_location, cache_hit. cbn [fst snd].
    destruct (get_cached_location_db _ _ (geocache w)) as [c|] eqn:Hc.
    + rewrite _place_map_marker_view. simpl.
      rewrite fold_left_cons, markers_view_with_view. reflexivity.
    + simpl. by rewrite <- !app_assoc.
Qed.

Lemma placements_keys env (t : list (@geocache_row coord)) (keys : list location) :
  (placements env t keys).*1 ≡ₚ
  filter (fun k => resolvable env t k = true) keys.
Proof.
  unfold placements. induction keys as [|k keys IH]; [done|].
  rewrite cache_hits_cons, cache_misses_cons, filter_cons.
  destruct (cache_hit env t k) as [c|] eqn:Hc.
  - rewrite decide_True by (unfold resolvable; by rewrite Hc).
    simpl. by f_equiv.
  - rewrite omap_resolve_cons. unfold resolve at 1.
    destruct (geocode env (query_of k.1 k.2)) eqn:Hg; simpl.
    + rewrite decide_True by (unfold resolvable; by rewrite Hc, Hg).
      rewrite fmap_app, fmap_cons. simpl.
      rewrite <- Permutation_middle. f_equiv. by rewrite <- fmap_app.
    + by rewrite decide_False by (unfold resolvable; by rewrite Hc, Hg).
    + by rewrite decide_False by (unfold resolvable; by rewrite Hc, Hg).
Qed.

Lemma placements_resolve env (t : list (@geocache_row coord)) (keys : list location) r :
  r ∈ placements env t keys →
  r.1 ∈ keys ∧
  (cache_hit env t r.1 = Some r.2 ∨
   (cache_hit env t r.1 = None ∧ resolve env r.1 = Some r)).
Proof.
  unfold placements, cache_hits, cache_misses.
  intros [H|H]%elem_of_app.
  - apply list_elem_of_omap in H as (k & Hk & Hr).
    destruct (cache_hit env t k) as [c|] eqn:Hc; [|done].
    injection Hr as <-. simpl. split; [done|]. by left.
  - apply list_elem_of_omap in H as (k & Hk & Hr).
    apply list_elem_of_filter in Hk as [Hmiss Hk].
    assert (r.1 = k) as ->.
    { unfold resolve in Hr. destruct (geocode env _); by simplify_eq. }
    split; [done|]. by right.
Qed.

Lemma settle_eq env w (l : list result) v g :
  outstanding env w = l → markers_view w = v →
  _grouped_cases_by_location w = g →
  settle env w = fold_left (place_view g) l v.
Proof. intros <- <- <-. reflexivity. Qed.

(** [load_map_markers] with a widget: the guarded [delete_all_markers]
    leaves [kept_markers] on the widget, the rest goes on from there. *)
Lemma load_map_markers_unfold env w (on_map : list marker) :
  map_widget w = Some on_map →
  load_map_markers env w =
  let w := set_map_widget (Some (kept_markers env w)) w in
  let cases := get_all_cases_db (case_read_fault env) (case_log w) in
  let grouped := group_cases cases in
  let w := set_map_markers ∅ w in
  let w := set_grouped grouped w in
  let w := set_geocoding_queue [] w in
  let w := set_pending [] w in
  let w := fold_left (load_location env) grouped w in
  match _pending_marker_locations w with
  | _ :: _ =>
      if negb (is_alive (geocoding_thread w)) then
        set_scheduled_polls (S (scheduled_polls w))
          (set_processing_queue true (set_geocoding_thread Started w))
      else
        set_scheduled_polls (S (scheduled_polls w))
          (set_processing_queue true w)
  | [] => set_processing_queue false w
  end.
Proof.
  intros Hw. unfold load_map_markers, kept_markers. rewrite Hw.
  destruct (has_delete_all_markers env); [reflexivity|].
  assert (set_map_widget (Some (default [] (Some on_map))) w = w) as ->;
    [|reflexivity].
  destruct w; simpl in Hw; by subst.
Qed.

(** The state a refresh leaves when it starts from an idle pipeline with
    a map widget: it is a state of the pipeline, and what is still to be
    shown are the placements of the refresh on the markers the widget
    keeps. *)
Lemma load_map_markers_ok env w :
  idle w → is_Some (map_widget w) →
  let g := group_cases (get_all_cases_db (case_read_fault env) (case_log w)) in
  pipeline_ok (load_map_markers env w) ∧
  _grouped_cases_by_location (load_map_markers env w) = g ∧
  geocache (load_map_markers env w) = geocache w ∧
  settle env (load_map_markers env w) =
  fold_left (place_view g) (placements env (geocache w) (group_keys g))
    (Some (kept_markers env w), ∅).
Proof.
  intros [Ha Hd] [on_map Hw] g. subst g.
  remember (group_cases (get_all_cases_db (case_read_fault env) (case_log w)))
    as g eqn:Hg.
  rewrite (load_map_markers_unfold env w on_map Hw).
  cbn zeta. rewrite load_loop. simpl.
  rewrite <- !Hg.
  assert (results_list w = []) as Hrs.
  { unfold results_list. by destruct Hd as [-> | ->]. }
  unfold placements, group_keys. rewrite fold_left_app.
  destruct (cache_misses env (geocache w) g.*1) as [|k ks] eqn:Hm.
  - (* everything was cached *)
    split; [|split; [reflexivity|split; [reflexivity|]]].
    + unfold pipeline_ok. simpl. rewrite Ha.
      split_and!; try done; try congruence.
      * intros E. rewrite E in Ha. done.
      * by right.
    + apply settle_eq; [|exact (markers_view_with_view _ _)|reflexivity].
      unfold outstanding. simpl.
      change (results_list _) with (results_list w). rewrite Hrs.
      destruct (geocoding_thread w); done.
  - (* something to geocode: the thread is started *)
    simpl. rewrite Ha. simpl.
    split; [|split; [reflexivity|split; [reflexivity|]]].
    + unfold pipeline_ok. simpl. split_and!; try done. left. lia.
    + apply settle_eq; [|exact (markers_view_with_view _ _)|reflexivity].
      reflexivity.
Qed.

(** *** Every refresh can be run to its end *)

Lemma worker_tick_blocks env w :
  worker_blocks (worker_tick env w) = pred (worker_blocks w) ∧
  scheduled_polls (worker_tick env w) = scheduled_polls w.
Proof.
  unfold worker_tick, worker_blocks.
  destruct (geocoding_thread w) eqn:Ht; simpl; rewrite ?Ht; try done.
  destruct (geocoding_queue w) as [|k rest] eqn:Hq; simpl; [done|].
  destruct (geocode_item_frame env k (set_geocoding_queue rest w))
    as (_ & _ & -> & -> & ->).
  simpl. by rewrite Ht.
Qed.

Lemma worker_ticks_end env n w :
  worker_blocks w ≤ n →
  worker_blocks (run env (replicate n WorkerTick) w) = 0 ∧
  scheduled_polls (run env (replicate n WorkerTick) w) = scheduled_polls w.
Proof.
  revert w. induction n as [|n IH]; intros w Hn.
  - rewrite run_nil. split; [lia|done].
  - rewrite replicate_S, run_cons. simpl.
    destruct (worker_tick_blocks env w) as [Hb Hp].
    destruct (IH (worker_tick env w)) as [? ?]; [lia|].
    split; [done|congruence].
Qed.

Lemma worker_blocks_0 w : worker_blocks w = 0 ↔ is_alive (geocoding_thread w) = false.
Proof. unfold worker_blocks. destruct (geocoding_thread w); simpl; split; done. Qed.

Lemma poll_ticks_end env n w :
  is_alive (geocoding_thread w) = false →
  is_alive (geocoding_thread (run env (replicate n PollTick) w)) = false ∧
  scheduled_polls (run env (replicate n PollTick) w) = scheduled_polls w - n.
Proof.
  revert w. induction n as [|n IH]; intros w Ha.
  - rewrite run_nil. split; [done|lia].
  - rewrite replicate_S, run_cons. simpl. unfold poll_tick.
    destruct (scheduled_polls w) as [|m] eqn:Hm.
    + destruct (IH w Ha) as [? ?]. split; [done|lia].
    + assert (Hw : is_alive (geocoding_thread
                (_process_geocoding_results (set_scheduled_polls m w))) = false
              ∧ scheduled_polls
                  (_process_geocoding_results (set_scheduled_polls m w)) = m).
      { unfold _process_geocoding_results.
        destruct (_geocoded_results w) as [[|r rs]|] eqn:Hres; simpl;
          rewrite ?Hres, ?fold_place_result_view; simpl; rewrite Ha; done. }
      destruct Hw as [Ha' Hm'].
      destruct (IH _ Ha') as [? ?]. split; [done|lia].
Qed.

Lemma no_refresh_to_completion w : no_refresh (to_completion w).
Proof.
  unfold no_refresh, to_completion.
  intros [H|H]%elem_of_app; apply elem_of_replicate in H as [? _]; done.
Qed.

Lemma to_completion_complete env w : complete (run env (to_completion w) w).
Proof.
  unfold to_completion. rewrite run_app.
  destruct (worker_ticks_end env (worker_blocks w) w) as [Hb Hp]; [done|].
  apply worker_blocks_0 in Hb.
  destruct (poll_ticks_end env (scheduled_polls w) _ Hb) as [Ha Hz].
  split; [done|]. rewrite Hz, Hp. lia.
Qed.

(** *** The outcome of a refresh *)

Lemma placements_NoDup env (t : list (@geocache_row coord)) (keys : list location) :
  NoDup keys → NoDup (placements env t keys).*1.
Proof.
  intros Hnd. rewrite placements_keys. by apply NoDup_filter.
Qed.

(** The view at the end of any complete run of a refresh from an idle
    pipeline. *)
Lemma refresh_view env w schedule :
  idle w → is_Some (map_widget w) →
  no_refresh schedule →
  complete (run env schedule (load_map_markers env w)) →
  let g := group_cases (get_all_cases_db (case_read_fault env) (case_log w)) in
  markers_view (run env schedule (load_map_markers env w)) =
  fold_left (place_view g) (placements env (geocache w) (group_keys g))
    (Some (kept_markers env w), ∅).
Proof.
  intros Hi Hw Hnr Hc g. subst g.
  destruct (load_map_markers_ok env w Hi Hw) as (Hok & _ & _ & Hse).
  rewrite <- Hse. by apply final_view.
Qed.

Lemma refresh_count env w schedule :
  idle w → is_Some (map_widget w) →
  no_refresh schedule →
  complete (run env schedule (load_map_markers env w)) →
  let cases := get_all_cases_db (case_read_fault env) (case_log w) in
  size (map_markers (run env schedule (load_map_markers env w))) =
  List.length (filter (fun k => resolvable env (geocache w) k = true)
                 (distinct_locations cases)) ∧
  ∃ shown,
    map_widget (run env schedule (load_map_markers env w))
    = Some (kept_markers env w ++ shown) ∧
    List.length shown = size (map_markers (run env schedule (load_map_markers env w))).
Proof.
  intros Hi Hw Hnr Hc cases.
  pose proof (refresh_view env w schedule Hi Hw Hnr Hc) as Hv. simpl in Hv.
  fold cases in Hv.
  set (g := group_cases cases) in *.
  set (ps := placements env (geocache w) (group_keys g)) in *.
  apply (f_equal snd) in Hv as Hmm. apply (f_equal fst) in Hv as Hwd.
  unfold markers_view in Hmm, Hwd. simpl in Hmm, Hwd.
  assert (Hsize : size (map_markers (run env schedule (load_map_markers env w)))
                  = List.length ps).
  { rewrite Hmm, <- size_dom, fold_place_view_dom, dom_empty_L.
    rewrite (left_id_L ∅ (∪)), size_list_to_set, length_fmap; [done|].
    apply placements_NoDup, group_keys_NoDup. }
  split.
  - rewrite Hsize, <- (length_fmap fst). unfold ps.
    rewrite placements_keys. unfold g.
    by rewrite (group_keys_distinct cases).
  - destruct (fold_place_view_added g ps (kept_markers env w) ∅)
      as (shown & Hs & Hl).
    exists shown. rewrite Hwd, Hsize. split; [done|]. by rewrite Hl.
Qed.

(** *** What a poll changes *)

Lemma _process_geocoding_results_frame w :
  geocoding_thread (_process_geocoding_results w) = geocoding_thread w ∧
  geocoding_queue (_process_geocoding_results w) = geocoding_queue w ∧
  geocache (_process_geocoding_results w) = geocache w ∧
  clock (_process_geocoding_results w) = clock w ∧
  provider_calls (_process_geocoding_results w) = provider_calls w ∧
  markers_view (_process_geocoding_results w) =
  fold_left (place_view (_grouped_cases_by_location w)) (results_list w)
    (markers_view w).
Proof.
  unfold _process_geocoding_results, results_list.
  destruct (_geocoded_results w) as [[|r rs]|] eqn:Hres; simpl;
    rewrite ?fold_place_result_view;
    destruct (is_alive (geocoding_thread w)) eqn:Ha; simpl; rewrite ?Ha;
    split_and!; try reflexivity; exact (markers_view_with_view _ w).
Qed.

Lemma poll_tick_frame w :
  geocoding_thread (poll_tick w) = geocoding_thread w ∧
  geocoding_queue (poll_tick w) = geocoding_queue w ∧
  geocache (poll_tick w) = geocache w ∧
  clock (poll_tick w) = clock w ∧
  provider_calls (poll_tick w) = provider_calls w.
Proof.
  unfold poll_tick. destruct (scheduled_polls w) as [|n]; [done|].
  destruct (_process_geocoding_results_frame (set_scheduled_polls n w))
    as (-> & -> & -> & -> & -> & _). done.
Qed.

Lemma poll_tick_view w :
  1 ≤ scheduled_polls w →
  markers_view (poll_tick w) =
  fold_left (place_view (_grouped_cases_by_location w)) (results_list w)
    (markers_view w).
Proof.
  intros Hp. unfold poll_tick.
  destruct (scheduled_polls w) as [|n]; [lia|].
  by destruct (_process_geocoding_results_frame (set_scheduled_polls n w))
    as (_ & _ & _ & _ & _ & ->).
Qed.

Lemma load_map_markers_frame env w :
  clock (load_map_markers env w) = clock w ∧
  provider_calls (load_map_markers env w) = provider_calls w ∧
  geocache (load_map_markers env w) = geocache w.
Proof.
  destruct (map_widget w) as [on_map|] eqn:Hw;
    [|unfold load_map_markers; by rewrite Hw].
  rewrite (load_map_markers_unfold env w on_map Hw).
  cbn zeta. rewrite load_loop. simpl.
  destruct (cache_misses _ _ _); [done|]. by destruct (negb _).
Qed.

(** *** The worker ends on an empty queue only *)

Lemma worker_tick_Finished env w :
  is_alive (geocoding_thread w) = true →
  geocoding_thread (worker_tick env w) = Finished →
  geocoding_queue w = [].
Proof.
  unfold worker_tick. destruct (geocoding_thread w) eqn:Ht; try done.
  destruct (geocoding_queue w) as [|k rest]; [done|].
  destruct (geocode_item_frame env k (set_geocoding_queue rest w))
    as (_ & _ & _ & -> & _).
  simpl. by rewrite Ht.
Qed.

Lemma worker_tick_Running env w k rest :
  geocoding_thread w = Running → geocoding_queue w = k :: rest →
  worker_tick env w = geocode_item env k (set_geocoding_queue rest w).
Proof. intros Ht Hq. unfold worker_tick. by rewrite Ht, Hq. Qed.

Lemma resolve_key env k r : resolve env k = Some r → r.1 = k.
Proof. unfold resolve. destruct (geocode env _); by intros [= <-]. Qed.

Lemma resolve_failed env k :
  is_located (geocode env (query_of k.1 k.2)) = false → resolve env k = None.
Proof. unfold resolve. by destruct (geocode env _). Qed.

Lemma resolve_located env k lat lon :
  geocode env (query_of k.1 k.2) = Located lat lon →
  resolve env k = Some (k, (lat, lon)).
Proof. unfold resolve. by intros ->. Qed.

(** A result that is still to be shown and is the last one for its pair
    decides the marker of the pair at the end of the refresh. *)
Lemma final_marker env schedule w (l1 l2 : list result) k (c : coords) :
  pipeline_ok w → is_Some (map_widget w) →
  outstanding env w = l1 ++ (k, c) :: l2 →
  (∀ r, r ∈ l2 → r.1 = k → r.2 = c) →
  no_refresh schedule → complete (run env schedule w) →
  map_markers (run env schedule w) !! k =
  Some (marker_for (_grouped_cases_by_location w) k c).
Proof.
  intros Hok Hw Hout Hl2 Hnr Hc.
  pose proof (final_view env schedule w Hnr Hok Hc) as Hv.
  apply (f_equal snd) in Hv. simpl in Hv. rewrite Hv.
  unfold settle. rewrite Hout. by apply fold_place_view_last.
Qed.

(** *** Refresh, failed lookups, failed cache writes, stale results *)

Lemma filter_all {A} (P : A → Prop) `{∀ x, Decision (P x)} (l : list A) :
  (∀ x, x ∈ l → P x) → filter P l = l.
Proof.
  induction l as [|x l IH]; intros Hall; [done|].
  rewrite filter_cons, decide_True by (apply Hall; left).
  f_equal. apply IH. intros y Hy. apply Hall. by right.
Qed.

(** C1 (amended). A refresh that starts from an idle pipeline with a map
    widget can be run to its end, and however the worker and the polls
    interleave, at its end the number of distinct markers placed (the size
    of [map_markers], which is also the number of markers the refresh has
    put on the widget, behind those the widget keeps: none when it has the
    method [delete_all_markers], those it held when it has not) equals the
    number of distinct non-empty (city, state) pairs among the records
    read that have a cache hit or whose lookup succeeds. That number is at
    most the number of distinct non-empty pairs, and equals it when every
    pair has a cache hit or a successful lookup. *)
Theorem refresh_places_resolvable_locations env w :
  idle w → is_Some (map_widget w) →
  let cases := get_all_cases_db (case_read_fault env) (case_log w) in
  let resolved :=
    filter (fun k => resolvable env (geocache w) k = true)
      (distinct_locations cases) in
  (∃ schedule,
      no_refresh schedule ∧
      complete (run env schedule (load_map_markers env w))) ∧
  ∀ schedule,
    no_refresh schedule →
    complete (run env schedule (load_map_markers env w)) →
    let final := run env schedule (load_map_markers env w) in
    size (map_markers final) = List.length resolved ∧
    (∃ shown, map_widget final = Some (kept_markers env w ++ shown) ∧
              List.length shown = List.length resolved) ∧
    List.length resolved ≤ List.length (distinct_locations cases) ∧
    ((∀ k, k ∈ distinct_locations cases →
           resolvable env (geocache w) k = true) →
     size (map_markers final) = List.length (distinct_locations cases)).
Proof.
  intros Hi Hw cases resolved. split.
  - exists (to_completion (load_map_markers env w)).
    split; [apply no_refresh_to_completion|apply to_completion_complete].
  - intros schedule Hnr Hc final.
    destruct (refresh_count env w schedule Hi Hw Hnr Hc)
      as (Hsize & shown & Hshown & Hlen).
    fold cases in Hsize. fold resolved in Hsize. fold final in Hsize, Hshown, Hlen.
    split_and!.
    + done.
    + exists shown. split; [done|congruence].
    + apply length_filter.
    + intros Hall. rewrite Hsize. unfold resolved. by rewrite filter_all.
Qed.

(** C4. A lookup that fails or times out does not end the worker. With
    the queue [A, B], where the lookup of A fails and the one of B
    succeeds, the worker goes on to B, appends the result of B to the
    buffer and only then ends; the next poll places the marker of B, and
    so does every complete run, however worker and polls interleave. The
    thread ends only on an empty queue. *)
Theorem worker_survives_failed_lookup env w (A B : location) lat lon
    (rs : list result) :
  geocoding_thread w = Running →
  geocoding_queue w = [A; B] →
  _geocoded_results w = Some rs →
  is_Some (map_widget w) →
  1 ≤ scheduled_polls w →
  is_located (geocode env (query_of A.1 A.2)) = false →
  geocode env (query_of B.1 B.2) = Located lat lon →
  let w1 := worker_tick env w in
  let w2 := worker_tick env w1 in
  let marker_B := marker_for (_grouped_cases_by_location w) B (lat, lon) in
  (geocoding_thread w1 = Running ∧ geocoding_queue w1 = [B] ∧
   _geocoded_results w1 = Some rs) ∧
  (geocoding_thread w2 = Running ∧ geocoding_queue w2 = [] ∧
   _geocoded_results w2 = Some (rs ++ [(B, (lat, lon))])) ∧
  geocoding_thread (worker_tick env w2) = Finished ∧
  map_markers (poll_tick w2) !! B = Some marker_B ∧
  (∃ schedule, no_refresh schedule ∧ complete (run env schedule w)) ∧
  (∀ schedule,
      no_refresh schedule → complete (run env schedule w) →
      map_markers (run env schedule w) !! B = Some marker_B) ∧
  (∀ w', is_alive (geocoding_thread w') = true →
         geocoding_thread (worker_tick env w') = Finished →
         geocoding_queue w' = []).
Proof.
  intros Ht Hq Hrs Hw Hp HA HB w1 w2 marker_B.
  assert (H1 : geocoding_thread w1 = Running ∧ geocoding_queue w1 = [B] ∧
               _geocoded_results w1 = Some rs ∧
               markers_view w1 = markers_view w ∧
               _grouped_cases_by_location w1 = _grouped_cases_by_location w ∧
               scheduled_polls w1 = scheduled_polls w).
  { unfold w1. rewrite (worker_tick_Running env w A [B] Ht Hq).
    destruct (geocode_item_frame env A (set_geocoding_queue [B] w))
      as (Hv & Hg & Hq' & Ht' & Hp').
    rewrite geocode_item_results, resolve_failed by done.
    rewrite Ht', Hq', Hv, Hg, Hp'. simpl. rewrite Hrs. simpl.
    rewrite app_nil_r. by split_and!. }
  destruct H1 as (Ht1 & Hq1 & Hrs1 & Hv1 & Hg1 & Hp1).
  assert (H2 : geocoding_thread w2 = Running ∧ geocoding_queue w2 = [] ∧
               _geocoded_results w2 = Some (rs ++ [(B, (lat, lon))]) ∧
               markers_view w2 = markers_view w ∧
               _grouped_cases_by_location w2 = _grouped_cases_by_location w ∧
               scheduled_polls w2 = scheduled_polls w).
  { unfold w2. rewrite (worker_tick_Running env w1 B [] Ht1 Hq1).
    destruct (geocode_item_frame env B (set_geocoding_queue [] w1))
      as (Hv & Hg & Hq' & Ht' & Hp').
    rewrite geocode_item_results, (resolve_located env B lat lon) by done.
    rewrite Ht', Hq', Hv, Hg, Hp'. simpl. rewrite Hrs1. simpl.
    split_and!; try done; congruence. }
  destruct H2 as (Ht2 & Hq2 & Hrs2 & Hv2 & Hg2 & Hp2).
  assert (Hok : pipeline_ok w).
  { unfold pipeline_ok. rewrite Ht, Hrs. split_and!; try done. by left. }
  assert (Hout : outstanding env w = rs ++ (B, (lat, lon)) :: []).
  { unfold outstanding, results_list. rewrite Ht, Hrs, Hq.
    rewrite !omap_resolve_cons, resolve_failed, (resolve_located env B lat lon)
      by done. done. }
  split_and!; try done.
  - unfold worker_tick. by rewrite Ht2, Hq2.
  - pose proof (poll_tick_view w2) as Hv. rewrite Hp2 in Hv.
    apply (f_equal snd) in Hv; [|done]. simpl in Hv. rewrite Hv.
    unfold results_list. rewrite Hrs2, Hg2, Hv2. simpl.
    apply fold_place_view_last; [done|].
    intros r Hr. by apply elem_of_nil in Hr.
  - exists (to_completion w).
    split; [apply no_refresh_to_completion|apply to_completion_complete].
  - intros schedule Hnr Hc.
    apply (final_marker env schedule w rs [] B (lat, lon)); try done.
    intros r Hr. by apply elem_of_nil in Hr.
  - apply worker_tick_Finished.
Qed.

(** C8. When the lookup of a queued pair succeeds and the cache write
    fails (put returns false, its body having raised), the cache is left
    as it was, the result is appended to the buffer all the same, the
    next poll places the marker at the coordinates just obtained, and so
    does every complete run. *)
Theorem cache_write_failure_keeps_marker env w (k : location) lat lon
    (rest : list location) (rs : list result) e :
  geocoding_thread w = Running →
  geocoding_queue w = k :: rest →
  _geocoded_results w = Some rs →
  is_Some (map_widget w) →
  1 ≤ scheduled_polls w →
  geocode env (query_of k.1 k.2) = Located lat lon →
  cache_write_fault env (location_key_of k.1 k.2) = Some e →
  let w1 := worker_tick env w in
  let marker_k := marker_for (_grouped_cases_by_location w) k (lat, lon) in
  (∀ ts, add_cached_location_db (Some e) (location_key_of k.1 k.2) lat lon ts
           (geocache w) = (false, geocache w)) ∧
  geocache w1 = geocache w ∧
  _geocoded_results w1 = Some (rs ++ [(k, (lat, lon))]) ∧
  map_markers (poll_tick w1) !! k = Some marker_k ∧
  (∀ schedule,
      no_refresh schedule → complete (run env schedule w) →
      map_markers (run env schedule w) !! k = Some marker_k).
Proof.
  intros Ht Hq Hrs Hw Hp Hloc Hfault w1 marker_k.
  assert (Hw1 : w1 = geocode_item env k (set_geocoding_queue rest w)).
  { by apply worker_tick_Running. }
  destruct (geocode_item_frame env k (set_geocoding_queue rest w))
    as (Hv & Hg & Hq' & Ht' & Hp').
  assert (Hres1 : _geocoded_results w1 = Some (rs ++ [(k, (lat, lon))])).
  { rewrite Hw1, geocode_item_results, (resolve_located env k lat lon) by done.
    simpl. by rewrite Hrs. }
  assert (Hok : pipeline_ok w).
  { unfold pipeline_ok. rewrite Ht, Hrs. split_and!; try done. by left. }
  split_and!; try done.
  - rewrite Hw1, geocode_item_geocache, Hloc, Hfault. done.
  - pose proof (poll_tick_view w1) as Hpv.
    rewrite Hw1, Hp' in Hpv. rewrite <- Hw1 in Hpv.
    apply (f_equal snd) in Hpv; [|done]. simpl in Hpv. rewrite Hpv.
    unfold results_list. rewrite Hres1, Hw1, Hg, Hv. simpl.
    apply fold_place_view_last; [done|].
    intros r Hr. by apply elem_of_nil in Hr.
  - intros schedule Hnr Hc.
    apply (final_marker env schedule w rs (omap (resolve env) rest) k (lat, lon));
      try done.
    + unfold outstanding, results_list. rewrite Ht, Hrs, Hq.
      by rewrite omap_resolve_cons, (resolve_located env k lat lon).
    + intros r (k' & _ & Hr)%list_elem_of_omap Hk.
      apply resolve_key in Hr as Hk'. rewrite Hk in Hk'. subst k'.
      rewrite (resolve_located env k lat lon) in Hr by done.
      by injection Hr as <-.
Qed.

(** C10. The first statement of a worker run replaces the results buffer
    by an empty one before any item of the queue is processed: whatever
    the buffer held is gone, the map is untouched, and nothing that
    happens afterwards depends on what the buffer held. *)
Theorem worker_start_discards_stale_results env w
    (stale other : option (list result)) :
  geocoding_thread w = Started →
  let w1 := worker_tick env (set_geocoded_results stale w) in
  _geocoded_results w1 = Some [] ∧
  geocoding_thread w1 = Running ∧
  geocoding_queue w1 = geocoding_queue w ∧
  provider_calls w1 = provider_calls w ∧
  markers_view w1 = markers_view w ∧
  markers_view (poll_tick w1) = markers_view w ∧
  (∀ schedule,
      run env schedule w1 =
      run env schedule (worker_tick env (set_geocoded_results other w))) ∧
  _geocode_locations_worker env (set_geocoded_results stale w) =
  _geocode_locations_worker env (set_geocoded_results other w).
Proof.
  intros Ht w1.
  assert (Hw1 : ∀ buffer,
             worker_tick env (set_geocoded_results buffer w) =
             set_geocoding_thread Running (set_geocoded_results (Some []) w)).
  { intros buffer. unfold worker_tick. simpl. by rewrite Ht. }
  unfold w1. rewrite !Hw1. split_and!; try reflexivity.
  unfold poll_tick. simpl. destruct (scheduled_polls w); [done|].
  unfold _process_geocoding_results. simpl. done.
Qed.

(** *** The worker run without interruption *)

Lemma geocode_item_set_thread env k t w :
  geocode_item env k (set_geocoding_thread t w) =
  set_geocoding_thread t (geocode_item env k w).
Proof.
  unfold geocode_item. destruct k as [city state]. simpl.
  destruct (geocode env (query_of city state));
    destruct (_geocoded_results w); reflexivity.
Qed.

Lemma drain_queue_set_thread env (queue : list location) t w :
  drain_queue env queue (set_geocoding_thread t w) =
  set_geocoding_thread t (drain_queue env queue w).
Proof.
  revert w. induction queue as [|k rest IH]; intros w; [done|].
  simpl. rewrite <- IH, <- geocode_item_set_thread. reflexivity.
Qed.

Lemma drain_queue_ticks env (queue : list location) w :
  geocoding_thread w = Running → geocoding_queue w = queue →
  run env (replicate (List.length queue) WorkerTick) w = drain_queue env queue w ∧
  geocoding_thread (drain_queue env queue w) = Running ∧
  geocoding_queue (drain_queue env queue w) = [].
Proof.
  revert w. induction queue as [|k rest IH]; intros w Ht Hq; [done|].
  simpl. rewrite run_cons. simpl.
  rewrite (worker_tick_Running env w k rest Ht Hq).
  destruct (geocode_item_frame env k (set_geocoding_queue rest w))
    as (_ & _ & Hq' & Ht' & _).
  apply IH; [by rewrite Ht'|by rewrite Hq'].
Qed.

(** The blocks of the worker, run one after the other with nothing in
    between, are [_geocode_locations_worker]. *)
Lemma worker_blocks_uninterrupted env w :
  geocoding_thread w = Started →
  run env (replicate (worker_blocks w) WorkerTick) w =
  _geocode_locations_worker env w.
Proof.
  intros Ht. unfold worker_blocks, _geocode_locations_worker. rewrite Ht.
  change (2 + List.length (geocoding_queue w))
    with (S (S (List.length (geocoding_queue w)))).
  rewrite replicate_S, run_cons. simpl step. unfold worker_tick at 1.
  rewrite Ht.
  set (w' := set_geocoding_thread Running (set_geocoded_results (Some []) w)).
  rewrite replicate_S_end, run_app.
  destruct (drain_queue_ticks env (geocoding_queue w) w' eq_refl eq_refl)
    as (-> & Ht' & Hq').
  rewrite run_cons, run_nil. simpl. unfold worker_tick. rewrite Ht', Hq'.
  unfold w'. rewrite drain_queue_set_thread. reflexivity.
Qed.


(** *** Timing *)

Lemma calls_apart_snoc gap (calls : list (N * string)) t q :
  calls_apart gap calls →
  (∀ c, last calls = Some c → (c.1 + gap ≤ t)%N) →
  calls_apart gap (calls ++ [(t, q)]).
Proof.
  induction calls as [|c1 [|c2 rest] IH]; intros Hap Hlast.
  - done.
  - simpl. split; [|done]. by apply Hlast.
  - destruct Hap as [H12 Hap]. split; [done|].
    apply IH; [done|]. intros c Hc. by apply Hlast.
Qed.

Lemma geocode_item_throttled env k w :
  throttled w → throttled (geocode_item env k w).
Proof.
  intros [Hap Hlast]. unfold throttled.
  rewrite geocode_item_calls, geocode_item_clock. split.
  - by apply calls_apart_snoc.
  - intros c. rewrite last_snoc. intros [= <-]. simpl. lia.
Qed.

Lemma step_throttled env w t : throttled w → throttled (step env w t).
Proof.
  intros Hth. destruct t; simpl.
  - unfold worker_tick. destruct (geocoding_thread w); try done.
    destruct (geocoding_queue w) as [|k rest]; [done|].
    by apply geocode_item_throttled.
  - destruct (poll_tick_frame w) as (_ & _ & _ & Hc & Hp).
    unfold throttled. by rewrite Hc, Hp.
  - destruct (load_map_markers_frame env w) as (Hc & Hp & _).
    unfold throttled. by rewrite Hc, Hp.
Qed.

Lemma run_throttled env schedule w :
  throttled w → throttled (run env schedule w).
Proof.
  revert w. induction schedule as [|t schedule IH]; intros w Hth; [done|].
  rewrite run_cons. by apply IH, step_throttled.
Qed.

Lemma step_clock_mono env w t : (clock w ≤ clock (step env w t))%N.
Proof.
  destruct t; simpl.
  - unfold worker_tick. destruct (geocoding_thread w); try done.
    destruct (geocoding_queue w) as [|k rest]; [done|].
    rewrite geocode_item_clock. simpl. lia.
  - destruct (poll_tick_frame w) as (_ & _ & _ & -> & _). done.
  - destruct (load_map_markers_frame env w) as (-> & _). done.
Qed.

Lemma run_clock_mono env schedule w : (clock w ≤ clock (run env schedule w))%N.
Proof.
  revert w. induction schedule as [|t schedule IH]; intros w; [done|].
  rewrite run_cons. etrans; [apply (step_clock_mono env w t)|apply IH].
Qed.

(** A worker that is alive and ends has slept once per queued item. *)
Lemma run_clock_queue env schedule w :
  no_refresh schedule →
  is_alive (geocoding_thread w) = true →
  is_alive (geocoding_thread (run env schedule w)) = false →
  (clock w + 1000 * N.of_nat (List.length (geocoding_queue w))
   ≤ clock (run env schedule w))%N.
Proof.
  revert w. induction schedule as [|t schedule IH]; intros w Hnr Ha Hend.
  - rewrite run_nil in Hend. congruence.
  - apply no_refresh_cons in Hnr as [Ht Hnr]. rewrite run_cons in *.
    destruct t; [| |done]; simpl in *.
    + unfold worker_tick in *.
      destruct (geocoding_thread w) eqn:Hth; try done.
      * (* first statement *)
        apply (IH _ Hnr) in Hend; [|done]. exact Hend.
      * destruct (geocoding_queue w) as [|k rest] eqn:Hq.
        -- pose proof (run_clock_mono env schedule
                         (set_geocoding_thread Finished w)) as Hm.
           simpl in *. lia.
        -- destruct (geocode_item_frame env k (set_geocoding_queue rest w))
             as (_ & _ & Hq' & Ht' & _).
           apply (IH _ Hnr) in Hend; [|by rewrite Ht'; simpl; rewrite Hth].
           rewrite Hq', geocode_item_clock in Hend. simpl in *. lia.
    + destruct (poll_tick_frame w) as (Ht' & Hq' & _ & Hc' & _).
      apply (IH _ Hnr) in Hend; [|by rewrite Ht'].
      by rewrite Hq', Hc' in Hend.
Qed.

(** C9. Each processed queue item advances the clock by the duration of
    the lookup and by the second of sleep, whatever the lookup did; along
    every execution the provider calls stay at least a second apart; and
    a worker that is given three queued items and ends has spanned three
    seconds, hence at least two. *)
Theorem worker_throttles_provider_calls env :
  (∀ k w, clock (geocode_item env k w) =
          (clock w + geocode_ms env (query_of k.1 k.2) + 1000)%N) ∧
  (∀ schedule w, throttled w → throttled (run env schedule w)) ∧
  (∀ schedule w a b c,
      no_refresh schedule →
      is_alive (geocoding_thread w) = true →
      geocoding_queue w = [a; b; c] →
      is_alive (geocoding_thread (run env schedule w)) = false →
      (clock w + 3000 ≤ clock (run env schedule w))%N ∧
      (clock w + 2000 ≤ clock (run env schedule w))%N) ∧
  (∀ w, is_alive (geocoding_thread (run env (to_completion w) w)) = false).
Proof.
  split_and!.
  - apply geocode_item_clock.
  - apply run_throttled.
  - intros schedule w a b c Hnr Ha Hq Hend.
    pose proof (run_clock_queue env schedule w Hnr Ha Hend) as H.
    rewrite Hq in H. simpl in H. lia.
  - intros w. by destruct (to_completion_complete env w).
Qed.

End Pipeline.

(** ** The offense summary *)

Section Summary.

Lemma strip_empty : Py.strip "" = "".
Proof. reflexivity. Qed.

(** On records whose non-empty offense types are not blank, the summary
    of [_place_map_marker] is the one over the sorted set of distinct
    non-empty trimmed offense types. *)
Lemma offenses_of_unique (city_cases : list case) :
  (∀ c, c ∈ city_cases → Py.truthy_opt (offense_type c) = true →
        Py.truthy (Py.strip (Py.or_empty (offense_type c))) = true) →
  offenses_of city_cases = get_unique_field_values offense_type city_cases.
Proof.
  intros Hall. unfold offenses_of, get_unique_field_values. f_equal.
  induction city_cases as [|c cs IH]; [done|].
  rewrite filter_cons. rewrite map_cons, (filter_cons _ (Py.strip _)).
  assert (IH' : map (fun c => Py.strip (Py.or_empty (offense_type c)))
                  (filter (fun c => Py.truthy_opt (offense_type c) = true) cs)
                = filter (fun v => Py.truthy v = true)
                    (map (fun c => Py.strip (Py.or_empty (offense_type c))) cs)).
  { apply IH. intros c' Hc'. apply Hall. by right. }
  destruct (Py.truthy_opt (offense_type c)) eqn:Ho.
  - rewrite decide_True by done.
    rewrite decide_True by (apply Hall; [left|done]).
    rewrite map_cons. by f_equal.
  - rewrite decide_False by done.
    rewrite decide_False; [done|].
    destruct (offense_type c) as [[|a s]|]; simpl in *; try done.
Qed.

Lemma info_text_of_unique city state (city_cases : list case) :
  (∀ c, c ∈ city_cases → Py.truthy_opt (offense_type c) = true →
        Py.truthy (Py.strip (Py.or_empty (offense_type c))) = true) →
  info_text_of city state city_cases =
  info_text_over_unique city state city_cases.
Proof.
  intros Hall. unfold info_text_of, info_text_over_unique.
  by rewrite offenses_of_unique.
Qed.

End Summary.

(** ** Scenarios, evaluated *)

Import Scenario.

(** Two records for Jackson, MS with offenses Fraud and Theft and an empty
    cache: one item is queued, and once it is resolved the summary of the
    marker lists both offense types. *)
Example fraud_and_theft_summary :
  let loaded := load_map_markers env_jackson (initial_world fraud_and_theft []) in
  let final := run env_jackson full_run loaded in
  geocoding_queue loaded = [("Jackson", "MS")] ∧
  complete final ∧
  map_markers final !! ("Jackson", "MS") =
  Some (Marker jackson.1 jackson.2 ""
          ("Jackson, MS" +:+ newline +:+ "Offense Types: Fraud, Theft")).
Proof. vm_compute. done. Qed.


Lemma no_refresh_full_run : no_refresh full_run.
Proof.
  unfold no_refresh, full_run. rewrite !not_elem_of_cons.
  split_and!; try done. apply not_elem_of_nil.
Qed.

(** C1 as stated fails: one record for Jackson, MS, an empty cache and a
    provider that finds nothing. The refresh runs to its end with no marker
    placed, while the records hold one distinct non-empty pair. *)
Lemma refresh_marker_count_counterexample :
  let w := initial_world (coord := Z) one_case [] in
  let final := run env_no_match full_run (load_map_markers env_no_match w) in
  idle w ∧ is_Some (map_widget w) ∧ no_refresh full_run ∧ complete final ∧
  size (map_markers final) = 0 ∧
  List.length (distinct_locations (get_all_cases_db (case_read_fault env_no_match) (case_log w))) = 1 ∧
  size (map_markers final) ≠
  List.length (distinct_locations (get_all_cases_db (case_read_fault env_no_match) (case_log w))).
Proof.
  split_and!.
  - split; [reflexivity|by left].
  - by eexists.
  - apply no_refresh_full_run.
  - split; reflexivity.
  - vm_compute. reflexivity.
  - vm_compute. reflexivity.
  - vm_compute. discriminate.
Qed.

(** ** Instances of the theorems *)

Lemma cache_round_trip_witness :
  add_cached_location_db None "Biloxi|MS" 30390000%Z (-88890000)%Z
    "2025-01-01 00:00:00" [] =
  (true, [GeocacheRow "Biloxi|MS" 30390000%Z (-88890000)%Z "2025-01-01 00:00:00"]) ∧
  get_cached_location_db None "Biloxi|MS"
    [GeocacheRow "Biloxi|MS" 30390000%Z (-88890000)%Z "2025-01-01 00:00:00"] =
  Some (30390000%Z, (-88890000)%Z).
Proof.
  split; [reflexivity|].
  apply (cache_round_trip None "Biloxi|MS" 30390000%Z (-88890000)%Z
           "2025-01-01 00:00:00" []).
  reflexivity.
Defined.

Lemma cache_upsert_witness :
  let t1 := [GeocacheRow "Biloxi|MS" 1%Z 2%Z "2025-01-01 00:00:00"] in
  let t2 := [GeocacheRow "Biloxi|MS" 30390000%Z (-88890000)%Z "2025-01-02 00:00:00"] in
  add_cached_location_db None "Biloxi|MS" 1%Z 2%Z "2025-01-01 00:00:00" [] = (true, t1) ∧
  add_cached_location_db None "Biloxi|MS" 30390000%Z (-88890000)%Z
    "2025-01-02 00:00:00" t1 = (true, t2) ∧
  get_cached_location_db None "Biloxi|MS" t2 = Some (30390000%Z, (-88890000)%Z).
Proof.
  split; [reflexivity|]. split; [reflexivity|].
  apply (cache_upsert None None "Biloxi|MS" 1%Z 2%Z 30390000%Z (-88890000)%Z
           "2025-01-01 00:00:00" "2025-01-02 00:00:00" []
           [GeocacheRow "Biloxi|MS" 1%Z 2%Z "2025-01-01 00:00:00"]
           [GeocacheRow "Biloxi|MS" 30390000%Z (-88890000)%Z "2025-01-02 00:00:00"]);
    reflexivity.
Defined.

Lemma refresh_places_resolvable_locations_witness :
  let w := initial_world (coord := Z) fraud_and_theft [] in
  let final := run env_jackson full_run (load_map_markers env_jackson w) in
  idle w ∧ is_Some (map_widget w) ∧ no_refresh full_run ∧ complete final ∧
  size (map_markers final) = 1.
Proof.
  assert (Hi : idle (initial_world (coord := Z) fraud_and_theft [])).
  { split; [reflexivity|left; reflexivity]. }
  assert (Hw : is_Some (map_widget (initial_world (coord := Z) fraud_and_theft []))).
  { eexists. reflexivity. }
  assert (Hc : complete (run env_jackson full_run
                 (load_map_markers env_jackson (initial_world fraud_and_theft [])))).
  { split; vm_compute; reflexivity. }
  split_and!; [exact Hi|exact Hw|exact no_refresh_full_run|exact Hc|].
  exact (proj1 (proj2 (refresh_places_resolvable_locations env_jackson _ Hi Hw)
                  full_run no_refresh_full_run Hc)).
Defined.

Lemma worker_survives_failed_lookup_witness :
  geocoding_thread mid_run = Running ∧
  geocoding_queue mid_run = [("Alpha", "MS"); ("Jackson", "MS")] ∧
  geocode env_flaky (query_of "Alpha" "MS") = ProviderRaises GeocoderTimedOut ∧
  geocode env_flaky (query_of "Jackson" "MS") = Located jackson.1 jackson.2 ∧
  _geocoded_results (worker_tick env_flaky (worker_tick env_flaky mid_run)) =
  Some [(("Jackson", "MS"), jackson)] ∧
  map_markers (run env_flaky full_run mid_run) !! ("Jackson", "MS") =
  Some (marker_for [] ("Jackson", "MS") jackson).
Proof.
  assert (Hc : complete (run env_flaky full_run mid_run)).
  { split; vm_compute; reflexivity. }
  pose proof (worker_survives_failed_lookup env_flaky mid_run
                ("Alpha", "MS") ("Jackson", "MS") jackson.1 jackson.2 []
                eq_refl eq_refl eq_refl (ex_intro _ [] eq_refl)
                (le_n 1) eq_refl eq_refl) as H.
  do 4 (split; [reflexivity|]). split.
  - exact (proj2 (proj2 (proj1 (proj2 H)))).
  - exact (proj1 (proj2 (proj2 (proj2 (proj2 (proj2 H)))))
             full_run no_refresh_full_run Hc).
Defined.

Lemma cache_write_failure_keeps_marker_witness :
  geocoding_thread last_item = Running ∧
  geocode env_flaky (query_of "Jackson" "MS") = Located jackson.1 jackson.2 ∧
  cache_write_fault env_flaky (location_key_of "Jackson" "MS") = Some SqliteError ∧
  geocache (worker_tick env_flaky last_item) = [] ∧
  map_markers (poll_tick (worker_tick env_flaky last_item)) !! ("Jackson", "MS") =
  Some (marker_for [] ("Jackson", "MS") jackson).
Proof.
  pose proof (cache_write_failure_keeps_marker env_flaky last_item
                ("Jackson", "MS") jackson.1 jackson.2 [] [] SqliteError
                eq_refl eq_refl eq_refl (ex_intro _ [] eq_refl)
                (le_n 1) eq_refl eq_refl) as H.
  do 3 (split; [reflexivity|]). split.
  - exact (proj1 (proj2 H)).
  - exact (proj1 (proj2 (proj2 (proj2 H)))).
Defined.

Lemma worker_start_discards_stale_results_witness :
  geocoding_thread restarted = Started ∧
  _geocoded_results restarted = Some [(("Jackson", "MS"), jackson)] ∧
  _geocoded_results (worker_tick env_flaky restarted) = Some [] ∧
  markers_view (poll_tick (worker_tick env_flaky restarted)) =
  markers_view restarted.
Proof.
  pose proof (worker_start_discards_stale_results env_flaky restarted
                (Some [(("Jackson", "MS"), jackson)]) None eq_refl) as H.
  do 2 (split; [reflexivity|]). split.
  - exact (proj1 H).
  - exact (proj1 (proj2 (proj2 (proj2 (proj2 (proj2 H)))))).
Defined.

Lemma cache_lookup_never_raises_witness :
  let t := [GeocacheRow "Biloxi|MS" 30390000%Z (-88890000)%Z "2025-01-01 00:00:00"] in
  pk_unique t ∧
  get_cached_location_db (Some SqliteError) "Biloxi|MS" t = None ∧
  get_cached_location_db None "Biloxi|MS" t = Some (30390000%Z, (-88890000)%Z) ∧
  get_cached_location_db None "Jackson|MS" t = None.
Proof.
  assert (Hpk : pk_unique
            [GeocacheRow "Biloxi|MS" 30390000%Z (-88890000)%Z "2025-01-01 00:00:00"]).
  { apply NoDup_singleton. }
  split; [exact Hpk|]. split; [|split].
  - exact (proj2 (proj1 (proj2 (cache_lookup_never_raises "Biloxi|MS" _)) SqliteError)).
  - refine (proj1 (proj2 (proj2 (cache_lookup_never_raises "Biloxi|MS" _)))
              (GeocacheRow "Biloxi|MS" 30390000%Z (-88890000)%Z "2025-01-01 00:00:00")
              Hpk _ eq_refl).
    left.
  - apply (proj2 (proj2 (proj2 (cache_lookup_never_raises "Jackson|MS" _)))).
    intros r Hr. apply list_elem_of_singleton in Hr as ->. simpl. discriminate.
Defined.

Lemma grouping_trims_and_filters_witness :
  let padded := Case 1 (Some (" Jackson" +:+ nbsp)) (Some "MS") (Some "Fraud") in
  let blank := Case 2 (Some (" " +:+ em_space)) (Some "MS") (Some "Theft") in
  Py.strip (Py.or_empty (city_of_offense blank)) = "" ∧
  (blank ∉ groups_get ("Jackson", "MS") (group_cases [padded; blank])) ∧
  ("Jackson", "MS") ∈ group_keys (group_cases [padded; blank]) ∧
  group_keys (group_cases [padded; blank]) = [("Jackson", "MS")].
Proof.
  split; [reflexivity|]. split; [|split; [|reflexivity]].
  - refine (proj2 (proj2 (proj2 (grouping_trims_and_filters _))) _ _ _ _).
    + right. left.
    + left. reflexivity.
  - apply (proj1 (proj2 (grouping_trims_and_filters _))).
    eexists. split; [left|]. split_and!; try reflexivity; discriminate.
Defined.

Lemma worker_throttles_provider_calls_witness :
  let w := set_geocoding_queue [("Alpha", "MS"); ("Beta", "MS"); ("Jackson", "MS")] mid_run in
  let schedule := [WorkerTick; WorkerTick; PollTick; WorkerTick; WorkerTick] in
  no_refresh schedule ∧
  is_alive (geocoding_thread w) = true ∧
  is_alive (geocoding_thread (run env_jackson schedule w)) = false ∧
  (clock w + 2000 ≤ clock (run env_jackson schedule w))%N.
Proof.
  assert (Hnr : no_refresh [WorkerTick; WorkerTick; PollTick; WorkerTick; WorkerTick]).
  { unfold no_refresh. rewrite !not_elem_of_cons.
    split_and!; try done. apply not_elem_of_nil. }
  split; [exact Hnr|]. split; [reflexivity|]. split; [vm_compute; reflexivity|].
  refine (proj2 (proj1 (proj2 (proj2 (worker_throttles_provider_calls env_jackson)))
                   [WorkerTick; WorkerTick; PollTick; WorkerTick; WorkerTick]
                   (set_geocoding_queue
                      [("Alpha", "MS"); ("Beta", "MS"); ("Jackson", "MS")] mid_run)
                   ("Alpha", "MS") ("Beta", "MS") ("Jackson", "MS")
                   Hnr eq_refl eq_refl _)).
  vm_compute. reflexivity.
Defined.

(** * Further properties *)

(** ** The pipeline, continued *)

Section PipelineMore.

Context {coord : Type}.

Local Abbreviation coords := (coord * coord)%type.
Local Abbreviation result := (location * coords)%type.
Local Abbreviation view :=
  (option (list (@marker coord)) * gmap location (@marker coord))%type.

Implicit Types (w : @world coord) (env : @environment coord)
  (v : view) (r : result) (k : location) (g : groups)
  (schedule : list tick) (t : list (@geocache_row coord)).

(** *** The marker of each pair *)

Lemma placements_placement_of env t (keys : list location) :
  placements env t keys ≡ₚ omap (placement_of env t) keys.
Proof.
  unfold placements. induction keys as [|k keys IH]; [done|].
  rewrite cache_hits_cons, cache_misses_cons. simpl omap at 2.
  unfold placement_of at 1.
  destruct (cache_hit env t k) as [c|] eqn:Hc.
  - simpl. by f_equiv.
  - rewrite omap_resolve_cons. destruct (resolve env k) as [r|]; simpl.
    + rewrite <- Permutation_middle. by f_equiv.
    + done.
Qed.

Lemma placement_of_key env t k r : placement_of env t k = Some r → r.1 = k.
Proof.
  unfold placement_of. destruct (cache_hit env t k).
  - by intros [= <-].
  - apply resolve_key.
Qed.

Lemma fold_place_view_absent g (l : list result) (on_map : list marker)
    (mm : gmap location marker) k :
  k ∉ l.*1 →
  (fold_left (place_view g) l (Some on_map, mm)).2 !! k = mm !! k.
Proof.
  revert on_map mm. induction l as [|r l IH]; intros on_map mm Hk; [done|].
  rewrite fmap_cons, not_elem_of_cons in Hk. destruct Hk as [Hne Hk].
  simpl. unfold place_view at 2. simpl. rewrite IH by done.
  by rewrite lookup_insert_ne.
Qed.

Lemma fold_place_view_NoDup g (l : list result) (on_map : list marker) r :
  NoDup l.*1 → r ∈ l →
  (fold_left (place_view g) l (Some on_map, ∅)).2 !! r.1 =
  Some (marker_for g r.1 r.2).
Proof.
  intros Hnd Hr. apply list_elem_of_split in Hr as (l1 & l2 & ->).
  destruct r as [k c]. simpl. apply fold_place_view_last; [by eexists|].
  intros r' Hr' Hk. exfalso.
  rewrite fmap_app, fmap_cons in Hnd. apply NoDup_app in Hnd as (_ & _ & Hnd).
  apply NoDup_cons in Hnd as [Hni _]. apply Hni. simpl. rewrite <- Hk.
  apply list_elem_of_fmap. by exists r'.
Qed.

Lemma placements_lookup env t (cases : list case) (on_map : list marker) k :
  (fold_left (place_view (group_cases cases))
     (placements env t (group_keys (group_cases cases))) (Some on_map, ∅)).2 !! k =
  if decide (k ∈ distinct_locations cases) then
    (fun r => marker_for (group_cases cases) k r.2) <$> placement_of env t k
  else None.
Proof.
  set (g := group_cases cases).
  set (ps := placements env t (group_keys g)).
  assert (Hnd : NoDup ps.*1) by apply placements_NoDup, group_keys_NoDup.
  assert (Hin : ∀ r, r ∈ ps ↔
                     r.1 ∈ distinct_locations cases ∧
                     placement_of env t r.1 = Some r).
  { intros r. unfold ps. rewrite placements_placement_of, list_elem_of_omap.
    split.
    - intros (k' & Hk' & Hp). apply placement_of_key in Hp as Hr. subst k'.
      split; [|done]. by apply group_keys_elem.
    - intros [Hk' Hp]. exists r.1. split; [|done]. by apply group_keys_elem. }
  destruct (decide (k ∈ distinct_locations cases)) as [Hk|Hk].
  - destruct (placement_of env t k) as [r|] eqn:Hp.
    + apply placement_of_key in Hp as Hr. subst k.
      by rewrite (fold_place_view_NoDup g ps on_map r Hnd) by (by apply Hin).
    + rewrite fold_place_view_absent, lookup_empty; [done|].
      intros (r & -> & Hr)%list_elem_of_fmap. apply Hin in Hr as [_ Hr].
      congruence.
  - rewrite fold_place_view_absent, lookup_empty; [done|].
    intros (r & -> & Hr)%list_elem_of_fmap. apply Hin in Hr as [Hr _]. done.
Qed.

Lemma placement_of_marker env t g k :
  (fun r => marker_for g k r.2) <$> placement_of env t k =
  match cache_hit env t k with
  | Some c => Some (marker_for g k c)
  | None =>
      match geocode env (query_of k.1 k.2) with
      | Located lat lon => Some (marker_for g k (lat, lon))
      | NoMatch | ProviderRaises _ => None
      end
  end.
Proof.
  unfold placement_of, resolve. destruct (cache_hit env t k); [done|].
  by destruct (geocode env (query_of k.1 k.2)).
Qed.

Lemma refresh_lookup env w schedule k :
  idle w → is_Some (map_widget w) →
  no_refresh schedule →
  complete (run env schedule (load_map_markers env w)) →
  let cases := get_all_cases_db (case_read_fault env) (case_log w) in
  map_markers (run env schedule (load_map_markers env w)) !! k =
  if decide (k ∈ distinct_locations cases) then
    match cache_hit env (geocache w) k with
    | Some c => Some (marker_for (group_cases cases) k c)
    | None =>
        match geocode env (query_of k.1 k.2) with
        | Located lat lon => Some (marker_for (group_cases cases) k (lat, lon))
        | NoMatch | ProviderRaises _ => None
        end
    end
  else None.
Proof.
  intros Hi Hw Hnr Hc cases.
  pose proof (refresh_view env w schedule Hi Hw Hnr Hc) as Hv. simpl in Hv.
  fold cases in Hv. apply (f_equal snd) in Hv. simpl in Hv. rewrite Hv.
  rewrite placements_lookup. destruct (decide _); [|done].
  apply placement_of_marker.
Qed.

(** X1. At the end of a refresh from an idle pipeline, each distinct
    non-empty pair of the records has its marker at the cached coordinates
    when the cache answers, else at the coordinates the provider finds,
    and no marker when the lookup fails; no other pair has a marker. The
    summary of a marker is the one of the records grouped under the
    pair. *)
Theorem refresh_final_markers env w schedule k :
  idle w → is_Some (map_widget w) →
  no_refresh schedule →
  complete (run env schedule (load_map_markers env w)) →
  let cases := get_all_cases_db (case_read_fault env) (case_log w) in
  map_markers (run env schedule (load_map_markers env w)) !! k =
  if decide (k ∈ distinct_locations cases) then
    match cache_hit env (geocache w) k with
    | Some c => Some (marker_for (group_cases cases) k c)
    | None =>
        match geocode env (query_of k.1 k.2) with
        | Located lat lon => Some (marker_for (group_cases cases) k (lat, lon))
        | NoMatch | ProviderRaises _ => None
        end
    end
  else None.
Proof.
  intros Hi Hw Hnr Hc cases.
  pose proof (refresh_view env w schedule Hi Hw Hnr Hc) as Hv. simpl in Hv.
  fold cases in Hv. apply (f_equal snd) in Hv. simpl in Hv. rewrite Hv.
  rewrite placements_lookup. destruct (decide _); [|done].
  apply placement_of_marker.
Qed.

(** *** What [load_map_markers] leaves behind *)

Lemma load_map_markers_fields env w (on_map : list marker) :
  map_widget w = Some on_map →
  let g := group_cases (get_all_cases_db (case_read_fault env) (case_log w)) in
  let misses := cache_misses env (geocache w) (group_keys g) in
  let w' := load_map_markers env w in
  (case_log w' = case_log w ∧ geocache w' = geocache w ∧
   clock w' = clock w ∧ provider_calls w' = provider_calls w ∧
   _geocoded_results w' = _geocoded_results w) ∧
  (_grouped_cases_by_location w' = g ∧ geocoding_queue w' = misses ∧
   _pending_marker_locations w' = misses) ∧
  markers_view w' =
  fold_left (place_view g) (cache_hits env (geocache w) (group_keys g))
    (Some (kept_markers env w), ∅) ∧
  geocoding_thread w' =
  match misses with
  | [] => geocoding_thread w
  | _ :: _ =>
      if is_alive (geocoding_thread w) then geocoding_thread w else Started
  end ∧
  scheduled_polls w' =
  match misses with
  | [] => scheduled_polls w
  | _ :: _ => S (scheduled_polls w)
  end ∧
  processing_queue w' = match misses with [] => false | _ :: _ => true end.
Proof.
  intros Hw g misses w'. subst g misses w'.
  remember (group_cases (get_all_cases_db (case_read_fault env) (case_log w)))
    as g eqn:Hg.
  rewrite (load_map_markers_unfold env w on_map Hw).
  cbn zeta. rewrite load_loop. simpl.
  rewrite <- !Hg. unfold group_keys.
  destruct (cache_misses env (geocache w) g.*1) as [|k ks] eqn:Hm.
  - split_and!; try reflexivity. exact (markers_view_with_view _ _).
  - simpl. destruct (is_alive (geocoding_thread w)); simpl;
      split_and!; try reflexivity; exact (markers_view_with_view _ _).
Qed.



(** X3. When reading the case table fails, a refresh shows no location:
    [map_markers] is emptied, no marker is placed and nothing is grouped or
    queued, whatever the records and the cache hold. The markers that were
    on the widget are removed when the widget has the method
    [delete_all_markers], and stay on it when it has not. *)
Theorem refresh_on_read_failure env w e (on_map : list marker) :
  map_widget w = Some on_map →
  case_read_fault env = Some e →
  let w' := load_map_markers env w in
  map_widget w' = Some (if has_delete_all_markers env then [] else on_map) ∧
  map_markers w' = ∅ ∧
  _grouped_cases_by_location w' = [] ∧ geocoding_queue w' = [] ∧
  geocoding_thread w' = geocoding_thread w ∧
  scheduled_polls w' = scheduled_polls w.
Proof.
  intros Hw He w'.
  destruct (load_map_markers_fields env w on_map Hw)
    as (_ & (Hg & Hq & _) & Hv & Ht & Hp & _).
  fold w' in Hg, Hq, Hv, Ht, Hp. rewrite He in *. simpl in *.
  apply (f_equal fst) in Hv as Hv1. apply (f_equal snd) in Hv as Hv2.
  unfold kept_markers in Hv1. rewrite Hw in Hv1.
  simpl in *. by split_and!.
Qed.

(** X4. A refresh while the worker is alive starts no second thread and
    leaves the buffer of results alone: the thread keeps its state, the
    queue is replaced by the pairs the cache does not answer for, and one
    more poll is scheduled when there is such a pair. *)
Theorem refresh_reuses_live_worker env w :
  is_Some (map_widget w) →
  is_alive (geocoding_thread w) = true →
  let g := group_cases (get_all_cases_db (case_read_fault env) (case_log w)) in
  let misses := cache_misses env (geocache w) (group_keys g) in
  let w' := load_map_markers env w in
  geocoding_thread w' = geocoding_thread w ∧
  _geocoded_results w' = _geocoded_results w ∧
  geocoding_queue w' = misses ∧
  scheduled_polls w' =
  (if decide (misses = []) then scheduled_polls w else S (scheduled_polls w)) ∧
  provider_calls w' = provider_calls w.
Proof.
  intros [on_map Hw] Ha g misses w'.
  destruct (load_map_markers_fields env w on_map Hw)
    as ((_ & _ & _ & Hpc & Hr) & (_ & Hq & _) & _ & Ht & Hp & _).
  fold g in Hq, Ht, Hp. fold misses in Hq, Ht, Hp. fold w' in Hpc, Hr, Hq, Ht, Hp.
  rewrite Ha in Ht. split_and!; try done.
  - by destruct misses.
  - by destruct misses.
Qed.

(** *** Frames of the two threads *)

Lemma worker_tick_frame env w :
  markers_view (worker_tick env w) = markers_view w ∧
  _grouped_cases_by_location (worker_tick env w) = _grouped_cases_by_location w ∧
  scheduled_polls (worker_tick env w) = scheduled_polls w ∧
  case_log (worker_tick env w) = case_log w.
Proof.
  unfold worker_tick. destruct (geocoding_thread w); try done.
  destruct (geocoding_queue w) as [|k rest]; [done|].
  destruct (geocode_item_frame env k (set_geocoding_queue rest w))
    as (-> & -> & _ & _ & ->).
  split_and!; try done.
  unfold geocode_item. destruct k as [city state]. simpl.
  destruct (geocode env (query_of city state));
    destruct (_geocoded_results w); done.
Qed.

(** X5. The worker never touches the map: whatever it looks up, any number
    of its blocks leaves the markers on the widget, [map_markers], the
    grouping, the scheduled polls and the case table as they were. *)
Theorem worker_never_touches_the_map env n w :
  markers_view (run env (replicate n WorkerTick) w) = markers_view w ∧
  _grouped_cases_by_location (run env (replicate n WorkerTick) w) =
  _grouped_cases_by_location w ∧
  scheduled_polls (run env (replicate n WorkerTick) w) = scheduled_polls w ∧
  case_log (run env (replicate n WorkerTick) w) = case_log w.
Proof.
  revert w. induction n as [|n IH]; intros w; [done|].
  rewrite replicate_S, run_cons. simpl.
  destruct (IH (worker_tick env w)) as (-> & -> & -> & ->).
  apply worker_tick_frame.
Qed.

(** X6. A poll never looks anything up and never writes the cache: any
    number of polls leaves the cache, the clock, the log of provider calls,
    the queue and the state of the thread as they were. *)
Theorem polls_never_geocode env n w :
  geocache (run env (replicate n PollTick) w) = geocache w ∧
  clock (run env (replicate n PollTick) w) = clock w ∧
  provider_calls (run env (replicate n PollTick) w) = provider_calls w ∧
  geocoding_queue (run env (replicate n PollTick) w) = geocoding_queue w ∧
  geocoding_thread (run env (replicate n PollTick) w) = geocoding_thread w.
Proof.
  revert w. induction n as [|n IH]; intros w; [done|].
  rewrite replicate_S, run_cons. simpl.
  destruct (IH (poll_tick w)) as (-> & -> & -> & -> & ->).
  destruct (poll_tick_frame w) as (-> & -> & -> & -> & ->). done.
Qed.

(** *** Refreshes compose *)

Lemma step_case_log env w tk : case_log (step env w tk) = case_log w.
Proof.
  destruct tk; simpl.
  - apply worker_tick_frame.
  - unfold poll_tick. destruct (scheduled_polls w) as [|n]; [done|].
    unfold _process_geocoding_results.
    destruct (_geocoded_results (set_scheduled_polls n w)) as [[|r rs]|];
      rewrite ?fold_place_result_view;
      match goal with |- context [if ?b then _ else _] => destruct b end;
      reflexivity.
  - destruct (map_widget w) as [on_map|] eqn:Hw;
      [|unfold load_map_markers; by rewrite Hw].
    rewrite (load_map_markers_unfold env w on_map Hw).
    cbn zeta. rewrite load_loop. simpl.
    destruct (cache_misses _ _ _); [done|]. by destruct (negb _).
Qed.

Lemma run_case_log env schedule w : case_log (run env schedule w) = case_log w.
Proof.
  revert w. induction schedule as [|tk schedule IH]; intros w; [done|].
  rewrite run_cons, IH. apply step_case_log.
Qed.

Lemma refresh_end env w schedule :
  idle w → is_Some (map_widget w) →
  no_refresh schedule →
  complete (run env schedule (load_map_markers env w)) →
  let final := run env schedule (load_map_markers env w) in
  idle final ∧ geocoding_queue final = [] ∧ is_Some (map_widget final) ∧
  case_log final = case_log w.
Proof.
  intros Hi Hw Hnr Hc final.
  destruct (load_map_markers_ok env w Hi Hw) as (Hok & _).
  destruct (run_ok env schedule _ Hnr Hok) as ((_ & _ & Hq & Hp) & _).
  fold final in Hq, Hp. destruct Hc as [Ha Hz]. fold final in Ha, Hz.
  split_and!.
  - split; [done|]. destruct Hp as [?|[_ ?]]; [lia|done].
  - by apply Hq.
  - pose proof (refresh_view env w schedule Hi Hw Hnr (conj Ha Hz)) as Hv.
    simpl in Hv. apply (f_equal fst) in Hv. fold final in Hv. simpl in Hv.
    rewrite Hv. apply fold_place_view_widget. by eexists.
  - unfold final. rewrite run_case_log.
    destruct Hw as [on_map Hw].
    by destruct (load_map_markers_fields env w on_map Hw) as ((-> & _) & _).
Qed.

(** X7. A refresh from an idle pipeline that has run to its end leaves the
    pipeline idle again, with an empty queue, an empty buffer, the map
    widget in place and the case table as it was: the next refresh starts
    from the same kind of state. *)
Theorem refresh_leaves_idle env w schedule :
  idle w → is_Some (map_widget w) →
  no_refresh schedule →
  complete (run env schedule (load_map_markers env w)) →
  let final := run env schedule (load_map_markers env w) in
  idle final ∧ geocoding_queue final = [] ∧ is_Some (map_widget final) ∧
  case_log final = case_log w.
Proof.
  intros Hi Hw Hnr Hc final.
  destruct (load_map_markers_ok env w Hi Hw) as (Hok & _).
  destruct (run_ok env schedule _ Hnr Hok) as ((_ & _ & Hq & Hp) & _).
  fold final in Hq, Hp. destruct Hc as [Ha Hz]. fold final in Ha, Hz.
  split_and!.
  - split; [done|]. destruct Hp as [?|[_ ?]]; [lia|done].
  - by apply Hq.
  - pose proof (refresh_view env w schedule Hi Hw Hnr (conj Ha Hz)) as Hv.
    simpl in Hv. apply (f_equal fst) in Hv. fold final in Hv. simpl in Hv.
    rewrite Hv. apply fold_place_view_widget. by eexists.
  - unfold final. rewrite run_case_log.
    destruct Hw as [on_map Hw].
    by destruct (load_map_markers_fields env w on_map Hw) as ((-> & _) & _).
Qed.

(** *** The provider calls of a refresh *)

Lemma step_queries_settled env w tk :
  tk ≠ RefreshTick → queries_settled (step env w tk) = queries_settled w.
Proof.
  intros Htk. unfold queries_settled. destruct tk; [| |done]; simpl.
  - unfold worker_tick. destruct (geocoding_thread w); try done.
    destruct (geocoding_queue w) as [|k rest] eqn:Hq; [simpl; by rewrite Hq|].
    destruct (geocode_item_frame env k (set_geocoding_queue rest w))
      as (_ & _ & -> & _).
    rewrite geocode_item_calls. simpl.
    rewrite fmap_app, <- app_assoc. done.
  - by destruct (poll_tick_frame w) as (_ & -> & _ & _ & ->).
Qed.

Lemma run_queries_settled env schedule w :
  no_refresh schedule →
  queries_settled (run env schedule w) = queries_settled w.
Proof.
  revert w. induction schedule as [|tk schedule IH]; intros w Hnr; [done|].
  apply no_refresh_cons in Hnr as [Htk Hnr].
  rewrite run_cons, IH by done. by apply step_queries_settled.
Qed.

(** X8. Over a refresh from an idle pipeline the provider is asked exactly
    once for each pair the cache does not answer for, in the order in which
    the pairs first occur in the records, and for no other pair. *)
Theorem refresh_provider_calls env w schedule :
  idle w → is_Some (map_widget w) →
  no_refresh schedule →
  complete (run env schedule (load_map_markers env w)) →
  let g := group_cases (get_all_cases_db (case_read_fault env) (case_log w)) in
  (provider_calls (run env schedule (load_map_markers env w))).*2 =
  (provider_calls w).*2 ++
  map (fun k => query_of k.1 k.2) (cache_misses env (geocache w) (group_keys g)).
Proof.
  intros Hi Hw Hnr Hc g.
  destruct (refresh_end env w schedule Hi Hw Hnr Hc) as (_ & Hq & _).
  pose proof (run_queries_settled env schedule (load_map_markers env w) Hnr) as H.
  unfold queries_settled in H. rewrite Hq in H. simpl in H.
  rewrite app_nil_r in H. rewrite H.
  destruct Hw as [on_map Hw].
  destruct (load_map_markers_fields env w on_map Hw)
    as ((_ & _ & _ & -> & _) & (_ & -> & _) & _).
  done.
Qed.

(** *** The cache after a refresh *)

Lemma fold_answers_ext env (l : list location) (a b : string → option coords) key :
  (∀ key', a key' = b key') →
  fold_left (fun answers k => answers_after env k answers) l a key =
  fold_left (fun answers k => answers_after env k answers) l b key.
Proof.
  revert a b key. induction l as [|k l IH]; intros a b key Hab; [apply Hab|].
  simpl. apply IH. intros key'. unfold answers_after.
  destruct (geocode env _); try apply Hab.
  destruct (cache_write_fault env _); [apply Hab|].
  destruct (decide _); [done|apply Hab].
Qed.

Lemma select_after_write env k w_clock t key :
  select_geocache key
    match geocode env (query_of k.1 k.2) with
    | Located lat lon =>
        (add_cached_location_db
           (cache_write_fault env (location_key_of k.1 k.2))
           (location_key_of k.1 k.2) lat lon w_clock t).2
    | NoMatch | ProviderRaises _ => t
    end =
  answers_after env k (fun key => select_geocache key t) key.
Proof.
  unfold answers_after.
  destruct (geocode env (query_of k.1 k.2)) as [lat lon| |]; [|done|done].
  unfold add_cached_location_db, add_cached_location_db_try.
  destruct (cache_write_fault env _); [done|]. simpl.
  destruct (decide (key = location_key_of k.1 k.2)) as [->|Hne].
  - apply (select_insert_or_replace_eq (GeocacheRow _ lat lon w_clock)).
  - by apply select_insert_or_replace_ne.
Qed.

Lemma step_answers_settled env w tk key :
  tk ≠ RefreshTick →
  answers_settled env (step env w tk) key = answers_settled env w key.
Proof.
  intros Htk. unfold answers_settled. destruct tk; [| |done]; simpl.
  - unfold worker_tick. destruct (geocoding_thread w); try done.
    destruct (geocoding_queue w) as [|k rest] eqn:Hq; [simpl; by rewrite Hq|].
    destruct (geocode_item_frame env k (set_geocoding_queue rest w))
      as (_ & _ & -> & _).
    rewrite geocode_item_geocache. simpl.
    apply fold_answers_ext. intros key'. apply select_after_write.
  - by destruct (poll_tick_frame w) as (_ & -> & -> & _).
Qed.

Lemma run_answers_settled env schedule w key :
  no_refresh schedule →
  answers_settled env (run env schedule w) key = answers_settled env w key.
Proof.
  revert w. induction schedule as [|tk schedule IH]; intros w Hnr; [done|].
  apply no_refresh_cons in Hnr as [Htk Hnr].
  rewrite run_cons, IH by done. by apply step_answers_settled.
Qed.

Lemma fold_answers_other env (l : list location) (a : string → option coords) key :
  (∀ k c, k ∈ l → written env k c → location_key_of k.1 k.2 ≠ key) →
  fold_left (fun answers k => answers_after env k answers) l a key = a key.
Proof.
  revert a. induction l as [|k l IH]; intros a Hl; [done|].
  simpl. rewrite IH by (intros k' c Hk'; apply Hl; by right).
  unfold answers_after.
  destruct (geocode env (query_of k.1 k.2)) as [lat lon| |] eqn:Hg; try done.
  destruct (cache_write_fault env _) eqn:Hf; [done|].
  rewrite decide_False; [done|]. intros ->.
  by apply (Hl k (lat, lon)); [left|split|].
Qed.

Lemma fold_answers_written env (l : list location) (a : string → option coords)
    k (c : coords) :
  NoDup (map (fun k => location_key_of k.1 k.2) l) →
  k ∈ l → written env k c →
  fold_left (fun answers k => answers_after env k answers) l a
    (location_key_of k.1 k.2) = Some c.
Proof.
  revert a. induction l as [|k' l IH]; intros a Hnd Hk [Hg Hf].
  - by apply elem_of_nil in Hk.
  - simpl in Hnd. apply NoDup_cons in Hnd as [Hni Hnd]. simpl.
    apply elem_of_cons in Hk as [->|Hk].
    + rewrite fold_answers_other.
      * unfold answers_after. rewrite Hg, Hf, decide_True by done.
        by destruct c.
      * intros k'' c' Hk'' _ Heq. apply Hni. rewrite <- Heq.
        apply list_elem_of_fmap. by exists k''.
    + by apply IH.
Qed.

Lemma answers_at_end env w schedule key :
  idle w → is_Some (map_widget w) →
  no_refresh schedule →
  complete (run env schedule (load_map_markers env w)) →
  select_geocache key (geocache (run env schedule (load_map_markers env w))) =
  fold_left (fun answers k => answers_after env k answers)
    (cache_misses env (geocache w)
       (group_keys (group_cases
          (get_all_cases_db (case_read_fault env) (case_log w)))))
    (fun key => select_geocache key (geocache w)) key.
Proof.
  intros Hi Hw Hnr Hc.
  destruct (refresh_end env w schedule Hi Hw Hnr Hc) as (_ & Hq & _).
  pose proof (run_answers_settled env schedule (load_map_markers env w) key Hnr)
    as H.
  unfold answers_settled in H. rewrite Hq in H. simpl in H. rewrite H.
  destruct Hw as [on_map Hw].
  destruct (load_map_markers_fields env w on_map Hw)
    as ((_ & -> & _) & (_ & -> & _) & _).
  done.
Qed.

(** X9. After a refresh from an idle pipeline, the cache answers with the
    coordinates the provider gave for every pair that was looked up, found
    and written, the location keys of the looked up pairs being distinct;
    under every key no such pair was written to, it answers as before. *)
Theorem refresh_caches_found_locations env w schedule :
  idle w → is_Some (map_widget w) →
  no_refresh schedule →
  complete (run env schedule (load_map_markers env w)) →
  let g := group_cases (get_all_cases_db (case_read_fault env) (case_log w)) in
  let misses := cache_misses env (geocache w) (group_keys g) in
  let final := run env schedule (load_map_markers env w) in
  NoDup (location_keys misses) →
  (∀ k c, k ∈ misses → written env k c →
     get_cached_location_db None (location_key_of k.1 k.2) (geocache final)
     = Some c) ∧
  (∀ key,
     (∀ k c, k ∈ misses → written env k c → location_key_of k.1 k.2 ≠ key) →
     get_cached_location_db None key (geocache final) =
     get_cached_location_db None key (geocache w)).
Proof.
  intros Hi Hw Hnr Hc g misses final Hnd. split.
  - intros k c Hk Hwr. rewrite get_cached_location_db_select.
    unfold final. rewrite answers_at_end by done.
    by apply fold_answers_written.
  - intros key Hkey. rewrite !get_cached_location_db_select.
    unfold final. rewrite answers_at_end by done.
    by apply fold_answers_other.
Qed.

Lemma NoDup_fmap_eq {A B} (f : A → B) (l : list A) x y :
  NoDup (map f l) → x ∈ l → y ∈ l → f x = f y → x = y.
Proof.
  induction l as [|a l IH]; intros Hnd Hx Hy Hf.
  - by apply elem_of_nil in Hx.
  - simpl in Hnd. apply NoDup_cons in Hnd as [Hni Hnd].
    apply elem_of_cons in Hx as [->|Hx]; apply elem_of_cons in Hy as [->|Hy].
    + done.
    + exfalso. apply Hni. rewrite Hf. apply list_elem_of_fmap. by exists y.
    + exfalso. apply Hni. rewrite <- Hf. apply list_elem_of_fmap. by exists x.
    + by apply IH.
Qed.

Lemma cache_hit_select env t k :
  cache_hit env t k =
  match cache_read_fault env (location_key_of k.1 k.2) with
  | Some _ => None
  | None => select_geocache (location_key_of k.1 k.2) t
  end.
Proof.
  unfold cache_hit. destruct (cache_read_fault env _); [done|].
  apply get_cached_location_db_select.
Qed.

(** What the cache answers for a pair of the records after the refresh. *)
Lemma cache_hit_at_end env w schedule k :
  idle w → is_Some (map_widget w) →
  no_refresh schedule →
  complete (run env schedule (load_map_markers env w)) →
  let cases := get_all_cases_db (case_read_fault env) (case_log w) in
  NoDup (location_keys (cache_misses env (geocache w)
                          (group_keys (group_cases cases)))) →
  k ∈ distinct_locations cases →
  cache_hit env (geocache (run env schedule (load_map_markers env w))) k =
  match cache_hit env (geocache w) k with
  | Some c => Some c
  | None =>
      match cache_read_fault env (location_key_of k.1 k.2),
            geocode env (query_of k.1 k.2),
            cache_write_fault env (location_key_of k.1 k.2) with
      | None, Located lat lon, None => Some (lat, lon)
      | _, _, _ => None
      end
  end.
Proof.
  intros Hi Hw Hnr Hc cases Hnd Hk.
  rewrite (cache_hit_select env (geocache (run _ _ _))).
  rewrite answers_at_end by done. fold cases.
  destruct (cache_hit env (geocache w) k) as [c|] eqn:Hhit.
  - rewrite cache_hit_select in Hhit.
    destruct (cache_read_fault env _) eqn:Hf; [done|].
    rewrite fold_answers_other; [done|].
    intros k' c' Hk' _ Heq.
    apply list_elem_of_filter in Hk' as [Hmiss _].
    rewrite cache_hit_select, Heq, Hf, Hhit in Hmiss. done.
  - assert (Hin : k ∈ cache_misses env (geocache w)
                        (group_keys (group_cases cases))).
    { apply list_elem_of_filter. split; [done|]. by apply group_keys_elem. }
    rewrite cache_hit_select in Hhit.
    destruct (cache_read_fault env _) eqn:Hf; [done|].
    destruct (geocode env (query_of k.1 k.2)) as [lat lon| |] eqn:Hg.
    + destruct (cache_write_fault env (location_key_of k.1 k.2)) eqn:Hwf.
      * rewrite fold_answers_other; [done|].
        intros k' c' Hk' [_ Hwr] Heq.
        assert (k' = k) as -> by
          (apply (NoDup_fmap_eq (fun k => location_key_of k.1 k.2) _ _ _ Hnd);
           done).
        by rewrite Hwf in Hwr.
      * by apply (fold_answers_written env _ _ k (lat, lon)).
    + rewrite fold_answers_other; [done|].
      intros k' c' Hk' [Hwr _] Heq.
      assert (k' = k) as -> by
        (apply (NoDup_fmap_eq (fun k => location_key_of k.1 k.2) _ _ _ Hnd);
         done).
      by rewrite Hg in Hwr.
    + rewrite fold_answers_other; [done|].
      intros k' c' Hk' [Hwr _] Heq.
      assert (k' = k) as -> by
        (apply (NoDup_fmap_eq (fun k => location_key_of k.1 k.2) _ _ _ Hnd);
         done).
      by rewrite Hg in Hwr.
Qed.

(** X10. Refreshing again changes nothing in [map_markers]: when a
    refresh that starts from an idle pipeline has run to its end, a second
    refresh run to its end, with the records, the provider and the faults
    as they were and distinct location keys for the pairs the first one
    looks up, leaves [map_markers] as the first one did, whatever the
    first one added to the cache. *)
Theorem refresh_twice_same_markers env w s1 s2 :
  idle w → is_Some (map_widget w) →
  no_refresh s1 → complete (run env s1 (load_map_markers env w)) →
  let first := run env s1 (load_map_markers env w) in
  no_refresh s2 → complete (run env s2 (load_map_markers env first)) →
  NoDup (location_keys
           (cache_misses env (geocache w)
              (group_keys (group_cases
                 (get_all_cases_db (case_read_fault env) (case_log w)))))) →
  map_markers (run env s2 (load_map_markers env first)) = map_markers first.
Proof.
  intros Hi Hw Hnr1 Hc1 first Hnr2 Hc2 Hnd.
  destruct (refresh_end env w s1 Hi Hw Hnr1 Hc1) as (Hi1 & _ & Hw1 & Hlog).
  fold first in Hi1, Hw1, Hlog.
  apply map_eq. intros k.
  rewrite (refresh_lookup env first s2 k Hi1 Hw1 Hnr2 Hc2).
  cbn zeta. rewrite Hlog.
  pose proof (cache_hit_at_end env w s1 k Hi Hw Hnr1 Hc1 Hnd) as Hhit.
  pose proof (refresh_lookup env w s1 k Hi Hw Hnr1 Hc1) as Hm.
  cbn zeta in Hhit, Hm. fold first in Hhit, Hm. rewrite Hm.
  destruct (decide _) as [Hk|]; [|done].
  rewrite (Hhit Hk).
  destruct (cache_hit env (geocache w) k) as [c|]; [done|].
  destruct (cache_read_fault env _); [done|].
  destruct (geocode env (query_of k.1 k.2)) as [lat lon| |]; [|done|done].
  by destruct (cache_write_fault env _).
Qed.

(** *** Clearing the application data *)

(** X11. The refresh that follows the clearing of the application data
    places nothing, whatever the cache and the records held: [map_markers]
    is empty, nothing is queued, no worker is started, no poll is scheduled
    and the provider is not asked. The markers that were on the widget are
    removed when the widget has the method [delete_all_markers], and stay
    on it when it has not. *)
Theorem refresh_after_clearing env w (st : settings) (on_map : list marker) :
  map_widget w = Some on_map →
  let w' := load_map_markers env (clear_application_data w st).1 in
  markers_view w' =
  (Some (if has_delete_all_markers env then [] else on_map), ∅) ∧
  geocoding_queue w' = [] ∧
  geocoding_thread w' = geocoding_thread w ∧
  scheduled_polls w' = scheduled_polls w ∧
  provider_calls w' = provider_calls w ∧
  case_log w' = [] ∧ geocache w' = [].
Proof.
  intros Hw w'.
  assert (Hw0 : map_widget (clear_application_data w st).1 = Some on_map) by done.
  pose proof (load_map_markers_fields env _ on_map Hw0) as H.
  cbn zeta in H. fold w' in H.
  assert (Hcases : get_all_cases_db (case_read_fault env)
                     (case_log (clear_application_data w st).1) = []).
  { simpl. unfold get_all_cases_db. by destruct (case_read_fault env). }
  rewrite Hcases in H. unfold kept_markers in H. rewrite Hw0 in H. simpl in H.
  destruct H as ((H1 & H2 & _ & H4 & _) & (_ & H6 & _) & H7 & H8 & H9 & _).
  split_and!; done.
Qed.

(** *** Deleting a case *)

(** X12. A location whose cases have all been deleted loses its marker:
    from an idle pipeline, when [delete_case_db] is called with an id that
    SQLite takes for the id of the only case at the pair, the refresh that
    follows ends with no marker for the pair in [map_markers], also when
    the cache still holds its coordinates. *)
Theorem deleted_location_loses_marker
    (text_as_integer : string → option Z) env w schedule p id k :
  idle w → is_Some (map_widget w) →
  no_refresh schedule →
  bind_id text_as_integer p = Return (Some id) →
  let w' :=
    set_case_log (delete_case_db text_as_integer None p (case_log w)).2 w in
  complete (run env schedule (load_map_markers env w')) →
  (∀ c, c ∈ case_log w → location_of c = Some k → case_id c = id) →
  map_markers (run env schedule (load_map_markers env w')) !! k = None.
Proof.
  intros Hi Hw Hnr Hp w' Hc Honly.
  assert (Hi' : idle w') by done.
  assert (Hw' : is_Some (map_widget w')) by done.
  rewrite (refresh_lookup env w' schedule k Hi' Hw' Hnr Hc). cbn zeta.
  rewrite decide_False; [done|].
  unfold distinct_locations, get_all_cases_db.
  destruct (case_read_fault env); [apply not_elem_of_nil|].
  rewrite elem_of_remove_dups, list_elem_of_omap.
  intros (c & Hin & Hloc). unfold w' in Hin. simpl in Hin.
  unfold delete_case_db, delete_case_db_try in Hin. rewrite Hp in Hin.
  simpl in Hin.
  apply list_elem_of_filter in Hin as [Hne Hin].
  apply Hne. by apply Honly.
Qed.

End PipelineMore.

(** ** The settings table *)

Section SettingsProps.

Context {number : Type}.
Variable number_truthy : number → bool.
Variable hash_password : string → string → string.
Variable dumps : @json number → string.
Variable loads : string → outcome (@json number).

Implicit Types (t : settings) (key : string) (fault : option exn).

Lemma select_setting_app key t1 t2 :
  select_setting key (t1 ++ t2) =
  match select_setting key t1 with
  | Some v => Some v
  | None => select_setting key t2
  end.
Proof.
  induction t1 as [|[k v] t1 IH]; [done|].
  simpl. by destruct (decide (k = key)).
Qed.

Lemma select_setting_filter (P : string → Prop) `{!∀ k, Decision (P k)} key t :
  select_setting key (filter (fun r => P r.1) t) =
  if decide (P key) then select_setting key t else None.
Proof.
  induction t as [|[k v] t IH]; [by destruct (decide _)|].
  rewrite filter_cons. simpl. destruct (decide (P k)) as [Hk|Hk]; simpl.
  - destruct (decide (k = key)) as [->|]; [by rewrite decide_True|done].
  - rewrite IH. destruct (decide (P key)) as [Hkey|]; [|done].
    rewrite decide_False; [done|]. by intros ->.
Qed.

Lemma select_replace_eq key v t :
  select_setting key (replace_setting key v t) = Some (Some v).
Proof.
  unfold replace_setting. rewrite select_setting_app.
  pose proof (select_setting_filter (fun k => k ≠ key) key t) as H.
  cbv beta in H. rewrite H.
  rewrite decide_False by (intros Hne; by apply Hne).
  simpl. by rewrite decide_True.
Qed.

Lemma select_replace_ne key key' v t :
  key ≠ key' →
  select_setting key' (replace_setting key v t) = select_setting key' t.
Proof.
  intros Hne. unfold replace_setting. rewrite select_setting_app.
  pose proof (select_setting_filter (fun k => k ≠ key) key' t) as H.
  cbv beta in H. rewrite H.
  rewrite decide_True by (intros ->; by apply Hne).
  destruct (select_setting key' t); [done|].
  simpl. by rewrite decide_False.
Qed.

(** The functions that read the table depend on it through its answers
    only. *)
Lemma verify_password_ext fault p t t' :
  select_setting "password_hash" t' = select_setting "password_hash" t →
  select_setting "salt" t' = select_setting "salt" t →
  verify_password hash_password fault p t' = verify_password hash_password fault p t.
Proof.
  intros Hh Hs. unfold verify_password, verify_password_try.
  by rewrite Hh, Hs.
Qed.

Lemma get_combo_values_db_ext fault key t t' :
  select_setting ("combo_" +:+ key) t' = select_setting ("combo_" +:+ key) t →
  get_combo_values_db loads fault key t' = get_combo_values_db loads fault key t.
Proof.
  intros H. unfold get_combo_values_db, get_combo_values_db_try. by rewrite H.
Qed.

Lemma get_user_pref_ext fault key d t t' :
  select_setting ("combo_userpref_" +:+ key) t' =
  select_setting ("combo_userpref_" +:+ key) t →
  get_user_pref number_truthy loads fault key d t' =
  get_user_pref number_truthy loads fault key d t.
Proof.
  intros H. unfold get_user_pref.
  by rewrite (get_combo_values_db_ext fault _ t t').
Qed.

Lemma update_password_db_select salt pw t key :
  select_setting key (update_password_db hash_password None salt pw t).2 =
  if decide (key = "salt") then Some (Some salt)
  else if decide (key = "password_hash")
       then Some (Some (hash_password pw salt))
       else select_setting key t.
Proof.
  simpl. destruct (decide (key = "salt")) as [->|Hs].
  - apply select_replace_eq.
  - rewrite select_replace_ne by done.
    destruct (decide (key = "password_hash")) as [->|Hh].
    + apply select_replace_eq.
    + by rewrite select_replace_ne.
Qed.

(** X13. A password that has been set verifies: after [update_password_db]
    has succeeded, [verify_password] accepts exactly the passwords whose
    hash under the new salt is the one of the new password, the new
    password among them, whatever the table held before. *)
Theorem password_round_trip salt pw t :
  let t' := (update_password_db hash_password None salt pw t).2 in
  (∀ p, verify_password hash_password None p t' =
        bool_decide (hash_password p salt = hash_password pw salt)) ∧
  verify_password hash_password None pw t' = true.
Proof.
  intros t'.
  assert (H : ∀ p, verify_password hash_password None p t' =
                   bool_decide (hash_password p salt = hash_password pw salt)).
  { intros p. unfold verify_password, verify_password_try, t'.
    rewrite !update_password_db_select. simpl.
    apply bool_decide_ext. split; [by intros [=]|by intros ->]. }
  split; [done|]. rewrite H. by apply bool_decide_eq_true.
Qed.

(** X14. Changing the password touches the rows [password_hash] and [salt]
    only: every combo list and every user preference reads as before, and
    a failed update leaves the table as it was. *)
Theorem update_password_keeps_settings fault fault' salt pw t key d :
  let r := update_password_db hash_password fault salt pw t in
  get_combo_values_db loads fault' key r.2 =
  get_combo_values_db loads fault' key t ∧
  get_user_pref number_truthy loads fault' key d r.2 =
  get_user_pref number_truthy loads fault' key d t ∧
  (r.1 = false → r.2 = t).
Proof.
  intros r. subst r. destruct fault as [e|]; [done|].
  split_and!.
  - apply get_combo_values_db_ext. rewrite update_password_db_select.
    by rewrite !decide_False.
  - apply get_user_pref_ext. rewrite update_password_db_select.
    by rewrite !decide_False.
  - done.
Qed.

Lemma set_combo_values_db_select fault key values t key' :
  select_setting key' (set_combo_values_db dumps fault key values t) =
  match fault with
  | Some _ => select_setting key' t
  | None =>
      if decide (key' = "combo_" +:+ key) then Some (Some (dumps values))
      else select_setting key' t
  end.
Proof.
  unfold set_combo_values_db. destruct fault; [done|].
  destruct (decide _) as [->|Hne].
  - apply select_replace_eq.
  - by rewrite select_replace_ne.
Qed.

Lemma user_pref_round_trip_aux key v d t :
  loads (dumps (JList [v])) = Return (JList [v]) →
  dumps (JList [v]) ≠ "" →
  get_user_pref number_truthy loads None key d
    (set_user_pref dumps None key v t) = Return v.
Proof.
  intros Hloads Hne. unfold get_user_pref, get_combo_values_db,
    get_combo_values_db_try, set_user_pref.
  rewrite set_combo_values_db_select, decide_True by done.
  destruct (dumps (JList [v])) eqn:Htext; [done|].
  simpl. by rewrite Hloads.
Qed.

(** X15. A user preference reads back as it was stored: when [json.loads]
    gives back the one-element list that [json.dumps] wrote, and the text
    is not empty, [get_user_pref] returns the value [set_user_pref]
    stored, not the default, whatever the table held before. *)
Theorem user_pref_round_trip key v d t :
  loads (dumps (JList [v])) = Return (JList [v]) →
  dumps (JList [v]) ≠ "" →
  get_user_pref number_truthy loads None key d
    (set_user_pref dumps None key v t) = Return v.
Proof.
  intros Hloads Hne. unfold get_user_pref, get_combo_values_db,
    get_combo_values_db_try, set_user_pref.
  rewrite set_combo_values_db_select, decide_True by done.
  destruct (dumps (JList [v])) eqn:Htext; [done|].
  simpl. by rewrite Hloads.
Qed.

(** X16. Storing a preference or a combo list changes no other one and
    never the password: the combo lists under other keys, the other
    preferences and the answers of [verify_password] are as before, also
    when the write fails. *)
Theorem set_combo_values_frame fault fault' key values t :
  let t' := set_combo_values_db dumps fault key values t in
  (∀ key', key' ≠ key →
     get_combo_values_db loads fault' key' t' =
     get_combo_values_db loads fault' key' t) ∧
  (∀ key' d, "userpref_" +:+ key' ≠ key →
     get_user_pref number_truthy loads fault' key' d t' =
     get_user_pref number_truthy loads fault' key' d t) ∧
  (∀ p, verify_password hash_password fault' p t' =
        verify_password hash_password fault' p t).
Proof.
  intros t'. subst t'. split_and!.
  - intros key' Hne. apply get_combo_values_db_ext.
    rewrite set_combo_values_db_select. destruct fault; [done|].
    rewrite decide_False; [done|]. simpl. intros [=]. done.
  - intros key' d Hne. apply get_user_pref_ext.
    rewrite set_combo_values_db_select. destruct fault; [done|].
    rewrite decide_False; [done|]. simpl. intros [= H]. apply Hne.
    simpl. by rewrite H.
  - intros p. apply verify_password_ext;
      rewrite set_combo_values_db_select; destruct fault; try done;
      by rewrite decide_False.
Qed.

Lemma get_user_pref_default_aux fault key d t :
  fault ≠ None ∨ select_setting ("combo_userpref_" +:+ key) t = None →
  get_user_pref number_truthy loads fault key d t = Return d.
Proof.
  intros H. unfold get_user_pref, get_combo_values_db, get_combo_values_db_try.
  destruct fault as [e|]; [done|].
  destruct H as [H|H]; [done|].
  change ("combo_" +:+ "userpref_" +:+ key) with ("combo_userpref_" +:+ key).
  by rewrite H.
Qed.

(** X17. Without a stored row, or when the database cannot be read,
    [get_user_pref] returns the default and raises nothing. *)
Theorem get_user_pref_default fault key d t :
  fault ≠ None ∨ select_setting ("combo_userpref_" +:+ key) t = None →
  get_user_pref number_truthy loads fault key d t = Return d.
Proof.
  intros H. unfold get_user_pref, get_combo_values_db, get_combo_values_db_try.
  destruct fault as [e|]; [done|].
  destruct H as [H|H]; [done|].
  change ("combo_" +:+ "userpref_" +:+ key) with ("combo_userpref_" +:+ key).
  by rewrite H.
Qed.

Lemma like_combo_combo key : like_combo ("combo_" +:+ key) = true.
Proof. reflexivity. Qed.

Lemma delete_combo_settings_select key t :
  select_setting key (delete_combo_settings t) =
  if like_combo key then None else select_setting key t.
Proof.
  unfold delete_combo_settings.
  pose proof (select_setting_filter (fun k => like_combo k = false) key t) as H.
  cbv beta in H. rewrite H.
  destruct (like_combo key); by destruct (decide _).
Qed.

(** The visible columns *)

Lemma omap_column_of (all_columns : list string) (l : list (@json number)) s :
  s ∈ omap (column_of all_columns) l → s ∈ all_columns.
Proof.
  intros (col & _ & Hcol)%list_elem_of_omap.
  destruct col; try done. simpl in Hcol. by destruct (decide _); simplify_eq.
Qed.

Lemma omap_column_of_strings (all_columns chosen : list string) :
  omap (column_of (number:=number) all_columns) (map JStr chosen) =
  filter (fun s => s ∈ all_columns) chosen.
Proof.
  induction chosen as [|s chosen IH]; [done|].
  rewrite filter_cons, <- IH. simpl. by destruct (decide _).
Qed.

(** X18. The view never shows the [id] column: whatever the stored
    preference holds, every column [get_visible_treeview_columns] returns
    is one of the configured columns other than [id]; without a usable
    preference these are all returned, in their order. *)
Theorem visible_columns_exist fault columns t cols :
  get_visible_treeview_columns number_truthy loads fault columns t = Return cols →
  (∀ s, s ∈ cols → s ∈ columns ∧ s ≠ "id") ∧
  (fault ≠ None ∨ select_setting "combo_userpref_treeview_columns" t = None →
   cols = filter (fun key => key ≠ "id") columns).
Proof.
  intros H. unfold get_visible_treeview_columns in H. split.
  - intros s Hs.
    assert (s ∈ filter (fun key => key ≠ "id") columns) as Hin.
    { destruct (get_user_pref _ _ _ _ _ _) as [v|e]; [|done].
      destruct v as [| | | |[|x l]|]; injection H as <-; try done.
      exact (omap_column_of _ (x :: l) s Hs). }
    apply list_elem_of_filter in Hin as [? ?]. done.
  - intros Hd. rewrite get_user_pref_default_aux in H by done. by simplify_eq.
Qed.

(** X19. The chosen columns read back: after
    [set_visible_treeview_columns], [json.loads] giving back what
    [json.dumps] wrote, the view shows the chosen columns that exist, in
    the order chosen; an empty choice shows every column. *)
Theorem visible_columns_round_trip columns chosen t :
  let stored := JList [JList (map JStr chosen)] in
  loads (dumps stored) = Return stored →
  dumps stored ≠ "" →
  get_visible_treeview_columns number_truthy loads None columns
    (set_visible_treeview_columns dumps None chosen t) =
  Return
    match chosen with
    | [] => filter (fun key => key ≠ "id") columns
    | _ :: _ =>
        filter (fun s => s ∈ filter (fun key => key ≠ "id") columns) chosen
    end.
Proof.
  intros stored Hloads Hne.
  unfold get_visible_treeview_columns, set_visible_treeview_columns.
  rewrite user_pref_round_trip_aux by done.
  destruct chosen as [|s chosen]; [done|].
  simpl map. cbv iota beta. f_equal.
  exact (omap_column_of_strings _ (s :: chosen)).
Qed.

(** X20. The focal state of the map reads back as it was stored, and
    storing it leaves the visible columns of the view as they were. *)
Theorem map_focal_state_round_trip state columns t :
  loads (dumps (JList [state])) = Return (JList [state]) →
  dumps (JList [state]) ≠ "" →
  let t' := set_map_focal_state dumps None state t in
  get_map_focal_state number_truthy loads None t' = Return state ∧
  (∀ fault,
     get_visible_treeview_columns number_truthy loads fault columns t' =
     get_visible_treeview_columns number_truthy loads fault columns t).
Proof.
  intros Hloads Hne t'. subst t'. split.
  - by apply user_pref_round_trip_aux.
  - intros fault. unfold get_visible_treeview_columns.
    rewrite (get_user_pref_ext fault "treeview_columns" JNull t); [done|].
    unfold set_map_focal_state, set_user_pref.
    rewrite set_combo_values_db_select. by rewrite decide_False.
Qed.

End SettingsProps.

(** ** Clearing the data and changing the password *)

Section Prompts.

Context {coord number : Type}.
Variable number_truthy : number → bool.
Variable hash_password : string → string → string.
Variable loads : string → outcome (@json number).

Implicit Types (w : @world coord) (st : settings) (fault : option exn).

(** X21. Clearing the application data keeps the password: whatever the
    dialogs return, [verify_password] answers after
    [clear_application_data_prompt] as it did before. *)
Theorem clearing_keeps_password verify_fault pw confirm w st fault p :
  verify_password hash_password fault p
    (clear_application_data_prompt hash_password verify_fault pw confirm w st).2 =
  verify_password hash_password fault p st.
Proof.
  unfold clear_application_data_prompt.
  destruct pw as [pw|]; [|done].
  destruct (negb (Py.truthy pw)); [done|].
  destruct (negb (verify_password _ _ _ _)); [done|].
  destruct (negb confirm); [done|].
  apply verify_password_ext; simpl; by rewrite delete_combo_settings_select.
Qed.

(** X22. With the password and the confirmation, clearing empties the case
    table and the cache, and every combo list and user preference reads
    as if it had never been stored. *)
Theorem clearing_wipes_data verify_fault pw w st :
  Py.truthy pw = true →
  verify_password hash_password verify_fault pw st = true →
  let r := clear_application_data_prompt hash_password verify_fault (Some pw)
             true w st in
  case_log r.1 = [] ∧ geocache r.1 = [] ∧
  (∀ fault key, get_combo_values_db loads fault key r.2 = JList []) ∧
  (∀ fault key d,
     get_user_pref number_truthy loads fault key d r.2 = Return d).
Proof.
  intros Hpw Hv r. subst r. unfold clear_application_data_prompt.
  rewrite Hpw, Hv. simpl. split_and!; try done.
  - intros fault key. unfold get_combo_values_db, get_combo_values_db_try.
    destruct fault; [done|].
    by rewrite delete_combo_settings_select, like_combo_combo.
  - intros fault key d. apply get_user_pref_default_aux.
    right. by rewrite delete_combo_settings_select.
Qed.

(** X23. Nothing is cleared without the password and the confirmation:
    when [clear_application_data_prompt] changes the case table, the cache
    or the settings, a non-empty password was entered that
    [verify_password] accepts, and the confirmation was given. *)
Theorem clearing_needs_password verify_fault pw confirm w st :
  clear_application_data_prompt hash_password verify_fault pw confirm w st
  ≠ (w, st) →
  ∃ p, pw = Some p ∧ Py.truthy p = true ∧
       verify_password hash_password verify_fault p st = true ∧
       confirm = true.
Proof.
  unfold clear_application_data_prompt. intros H.
  destruct pw as [p|]; [|done]. exists p.
  destruct (Py.truthy p); [|done].
  destruct (verify_password _ _ _ _) eqn:Hv; [|done].
  by destruct confirm.
Qed.

(** X24. A password changed through the dialogs verifies: with the old
    password accepted, the new one entered twice and the update going
    through, [verify_password] accepts the new password afterwards, and
    every combo list reads as before. *)
Theorem change_password_prompt_sets_password verify_fault salt old new st :
  Py.truthy old = true →
  verify_password hash_password verify_fault old st = true →
  Py.truthy new = true →
  let st' := change_password_prompt hash_password verify_fault None salt
               (Some old) (Some new) (Some new) st in
  verify_password hash_password None new st' = true ∧
  (∀ fault key, get_combo_values_db loads fault key st' =
                get_combo_values_db loads fault key st).
Proof.
  intros Hold Hv Hnew st'. subst st'. unfold change_password_prompt.
  rewrite Hold, Hv, Hnew. cbn [negb].
  rewrite bool_decide_eq_false_2 by (intros H; by apply H).
  split.
  - unfold verify_password, verify_password_try.
    rewrite !update_password_db_select. simpl.
    by apply bool_decide_eq_true.
  - intros fault key. apply get_combo_values_db_ext.
    rewrite update_password_db_select. by rewrite !decide_False.
Qed.

(** X25. The password is not changed without the old one: when
    [change_password_prompt] changes the settings table, a non-empty old
    password was entered that [verify_password] accepts, and the new
    password was entered twice alike. *)
Theorem change_password_needs_old_password
    verify_fault update_fault salt old_pw new_pw confirm_pw st :
  change_password_prompt hash_password verify_fault update_fault salt
    old_pw new_pw confirm_pw st ≠ st →
  ∃ old new, old_pw = Some old ∧ new_pw = Some new ∧ confirm_pw = Some new ∧
             Py.truthy new = true ∧
             verify_password hash_password verify_fault old st = true.
Proof.
  unfold change_password_prompt. intros H.
  destruct old_pw as [old|]; [|done].
  destruct (Py.truthy old); [|done].
  destruct (verify_password _ _ _ _) eqn:Hv; [|done].
  destruct new_pw as [new|]; [|done].
  destruct (Py.truthy new) eqn:Hnew; [|done].
  destruct confirm_pw as [confirm|]; [|done].
  destruct (Py.truthy confirm); [|done].
  simpl in H. destruct (bool_decide (new ≠ confirm)) eqn:Hne; [done|].
  apply bool_decide_eq_false in Hne. apply dec_stable in Hne as <-.
  by exists old, new.
Qed.

End Prompts.

(** ** The case table by id *)

Section Cases.

Implicit Types (log : list case) (id : Z).

Lemma head_filter_None {A} (P : A → Prop) `{!∀ x, Decision (P x)} (l : list A) :
  head (filter P l) = None ↔ ∀ x, x ∈ l → ¬ P x.
Proof.
  induction l as [|a l IH].
  - split; [|done]. intros _ x Hx. by apply elem_of_nil in Hx.
  - rewrite filter_cons. destruct (decide (P a)) as [Ha|Ha]; simpl.
    + split; [done|]. intros Hall. exfalso. apply (Hall a); [by left|done].
    + rewrite IH. split.
      * intros Hall x [->|Hx]%elem_of_cons; [done|by apply Hall].
      * intros Hall x Hx. apply Hall. by right.
Qed.

Lemma filter_filter_ne id id' log :
  id' ≠ id →
  filter (fun c => case_id c = id') (filter (fun c => case_id c ≠ id) log) =
  filter (fun c => case_id c = id') log.
Proof.
  intros Hne. induction log as [|c log IH]; [done|].
  rewrite !filter_cons.
  destruct (decide (case_id c ≠ id)) as [Hc|Hc].
  - rewrite filter_cons, IH. done.
  - rewrite IH. apply dec_stable in Hc.
    rewrite decide_False; [done|]. by rewrite Hc.
Qed.

Variable text_as_integer : string → option Z.

(** X26. A deleted case is gone and only that one. When the id passed to
    [delete_case_db] is one SQLite selects by (an [int] within 64 bits, or
    a text it converts to an integer), the call returns [True],
    [get_case_by_id_db] finds nothing under that id afterwards and finds
    under every other id what it found before, the table is as it was when
    no row had the id, and distinct ids stay distinct. A text that SQLite
    converts to no integer, as an item id of the Treeview, makes the call
    return [True] with the table as it was; an [int] outside 64 bits makes
    it return [False] with the table as it was. *)
Theorem delete_case_db_removes p log :
  let r := delete_case_db text_as_integer None p log in
  match bind_id text_as_integer p with
  | Return (Some id) =>
      r.1 = true ∧
      get_case_by_id_db text_as_integer None p r.2 = None ∧
      (∀ p', bind_id text_as_integer p' ≠ Return (Some id) →
         get_case_by_id_db text_as_integer None p' r.2 =
         get_case_by_id_db text_as_integer None p' log) ∧
      (get_case_by_id_db text_as_integer None p log = None → r.2 = log) ∧
      (ids_unique log → ids_unique r.2)
  | Return None => r = (true, log)
  | Raise _ => r = (false, log)
  end.
Proof.
  intros r. subst r.
  unfold delete_case_db, delete_case_db_try, get_case_by_id_db,
    get_case_by_id_db_try.
  destruct (bind_id text_as_integer p) as [[id|]|e] eqn:Hp; [|done|done].
  simpl. split_and!.
  - done.
  - apply head_filter_None. intros c [Hc _]%list_elem_of_filter. done.
  - intros p' Hp'.
    destruct (bind_id text_as_integer p') as [[id'|]|e']; [|done|done].
    rewrite filter_filter_ne; [done|]. by intros ->.
  - intros H. rewrite head_filter_None in H.
    induction log as [|c log IH]; [done|].
    rewrite filter_cons. rewrite decide_True by (apply H; by left).
    f_equal. apply IH. intros x Hx. apply H. by right.
  - unfold ids_unique. intros Hnd.
    induction log as [|c log IH]; [done|].
    simpl in Hnd. apply NoDup_cons in Hnd as [Hni Hnd].
    rewrite filter_cons. destruct (decide _); [|by apply IH].
    simpl. apply NoDup_cons. split; [|by apply IH].
    intros (c' & Heq & Hc')%list_elem_of_fmap. apply Hni.
    apply list_elem_of_fmap. exists c'. split; [done|].
    by apply list_elem_of_filter in Hc' as [_ ?].
Qed.

(** ** The distinct values of a column *)

Lemma insert_sorted_perm x (l : list string) : Py.insert_sorted x l ≡ₚ x :: l.
Proof.
  induction l as [|y l IH]; [done|].
  simpl. destruct (String.leb x y); [done|].
  rewrite IH. apply Permutation_swap.
Qed.

Lemma sorted_perm (l : list string) : Py.sorted l ≡ₚ l.
Proof.
  induction l as [|x l IH]; [done|].
  simpl. by rewrite insert_sorted_perm, IH.
Qed.

Lemma insert_sorted_Sorted x (l : list string) :
  Sorted (fun a b => String.leb a b = true) l →
  Sorted (fun a b => String.leb a b = true) (Py.insert_sorted x l).
Proof.
  induction l as [|y l IH]; intros Hs.
  - by repeat constructor.
  - apply Sorted_inv in Hs as [Hs Hhd]. simpl.
    destruct (String.leb x y) eqn:Hxy.
    + constructor; [by constructor|by constructor].
    + constructor; [by apply IH|].
      destruct l as [|z l]; simpl.
      * constructor. by destruct (String.leb_total x y) as [H|H]; [congruence|].
      * destruct (String.leb x z).
        -- constructor. by destruct (String.leb_total x y) as [H|H]; [congruence|].
        -- constructor. by apply HdRel_inv in Hhd.
Qed.

Lemma sorted_Sorted (l : list string) :
  Sorted (fun a b => String.leb a b = true) (Py.sorted l).
Proof.
  induction l as [|x l IH]; [constructor|].
  simpl. by apply insert_sorted_Sorted.
Qed.

(** X27. [get_unique_field_values] returns each distinct trimmed value of
    the column once, in ascending order, and never the empty string: a
    value is in the result exactly when it is not empty and is the trimmed
    value of the column in some case. *)
Theorem unique_field_values_spec (field : case → option string) cases :
  let values := get_unique_field_values field cases in
  (∀ x, x ∈ values ↔
        x ≠ "" ∧ ∃ c, c ∈ cases ∧ Py.strip (Py.or_empty (field c)) = x) ∧
  NoDup values ∧
  Sorted (fun a b => String.leb a b = true) values.
Proof.
  intros values. subst values. unfold get_unique_field_values, Py.sorted_set.
  split_and!.
  - intros x. rewrite sorted_perm, elem_of_remove_dups, list_elem_of_filter,
      list_elem_of_fmap.
    split.
    + intros [Ht (c & -> & Hc)]. split; [|by exists c].
      intros Heq. by rewrite Heq in Ht.
    + intros [Hne (c & Hc & <-)]. split; [|by exists c].
      by destruct (Py.strip _).
  - rewrite sorted_perm. apply NoDup_remove_dups.
  - apply sorted_Sorted.
Qed.

End Cases.

(** ** Python strings *)

Section Strings.

Implicit Types (s t u : string) (a b c : ascii) (backwards : bool).

Lemma append_cons a s t : String a s +:+ t = String a (s +:+ t).
Proof. reflexivity. Qed.

Lemma append_nil_r s : s +:+ "" = s.
Proof. induction s as [|a s IH]; [done|]. by rewrite append_cons, IH. Qed.

Lemma append_assoc s t u : (s +:+ t) +:+ u = s +:+ (t +:+ u).
Proof. induction s as [|a s IH]; [done|]. by rewrite !append_cons, IH. Qed.

Lemma length_append s t :
  String.length (s +:+ t) = String.length s + String.length t.
Proof.
  induction s as [|a s IH]; [done|]. rewrite append_cons. simpl. by rewrite IH.
Qed.

Lemma rev_app_append s t : String.rev_app s t = String.rev s +:+ t.
Proof.
  revert t. induction s as [|a s IH]; intros t; [done|].
  unfold String.rev. simpl. rewrite (IH (String a t)), (IH (String a "")).
  by rewrite append_assoc.
Qed.

Lemma rev_cons a s : String.rev (String a s) = String.rev s +:+ String a "".
Proof. unfold String.rev at 1. simpl. apply rev_app_append. Qed.

Lemma rev_append s t : String.rev (s +:+ t) = String.rev t +:+ String.rev s.
Proof.
  induction s as [|a s IH].
  - by rewrite append_nil_r.
  - by rewrite append_cons, !rev_cons, IH, append_assoc.
Qed.

Lemma rev_involutive s : String.rev (String.rev s) = s.
Proof.
  induction s as [|a s IH]; [done|].
  by rewrite rev_cons, rev_append, IH.
Qed.

Lemma rev_nil_inv s : String.rev s = "" → s = "".
Proof. intros H. by rewrite <- (rev_involutive s), H. Qed.

(** *** Leading whitespace *)

Lemma skip_spaces_clean backwards s :
  Py.starts_space backwards s = false → Py.skip_spaces backwards s = s.
Proof.
  destruct s as [|a [|a2 [|a3 r]]]; simpl; [done|..].
  - intros H%orb_false_elim. by rewrite (proj1 H).
  - intros [H1 [H2 _]%orb_false_elim]%orb_false_elim. by rewrite H1, H2.
  - intros [H1 [H2 H3]%orb_false_elim]%orb_false_elim. by rewrite H1, H2, H3.
Qed.

Lemma skip_spaces_spec backwards s :
  Py.starts_space backwards (Py.skip_spaces backwards s) = false ∧
  ∃ p, s = p +:+ Py.skip_spaces backwards s.
Proof.
  remember (String.length s) as n eqn:Hn.
  assert (Hle : String.length s ≤ n) by lia. clear Hn.
  revert s Hle. induction n as [|n IH]; intros s Hle.
  { destruct s; [|simpl in Hle; lia]. split; [done|by exists ""]. }
  destruct s as [|a r1]; [split; [done|by exists ""]|].
  simpl in Hle. simpl.
  destruct (Py.isspace a) eqn:H1.
  { destruct (IH r1) as [Hc [p Hp]]; [lia|]. split; [done|].
    exists (String a p). by rewrite append_cons, <- Hp. }
  destruct r1 as [|a2 r2].
  { split; [simpl; by rewrite H1|by exists ""]. }
  simpl in Hle.
  destruct (if backwards then Py.isspace2 a2 a else Py.isspace2 a a2) eqn:H2.
  { destruct (IH r2) as [Hc [p Hp]]; [lia|]. split; [done|].
    exists (String a (String a2 p)). by rewrite !append_cons, <- Hp. }
  destruct r2 as [|a3 r3].
  { split; [simpl; by rewrite H1, H2|by exists ""]. }
  simpl in Hle.
  destruct (if backwards then Py.isspace3 a3 a2 a else Py.isspace3 a a2 a3) eqn:H3.
  { destruct (IH r3) as [Hc [p Hp]]; [lia|]. split; [done|].
    exists (String a (String a2 (String a3 p))).
    by rewrite !append_cons, <- Hp. }
  split; [simpl; by rewrite H1, H2, H3|by exists ""].
Qed.

Lemma starts_space_prefix backwards s t :
  Py.starts_space backwards (s +:+ t) = false →
  Py.starts_space backwards s = false.
Proof.
  destruct s as [|a [|a2 [|a3 r]]]; rewrite ?append_cons; simpl; [done|..].
  - intros [-> _]%orb_false_elim. done.
  - intros [-> [-> _]%orb_false_elim]%orb_false_elim. done.
  - done.
Qed.

(** A string without whitespace at either end. *)
Lemma strip_clean s :
  Py.starts_space false (Py.strip s) = false ∧
  Py.starts_space true (String.rev (Py.strip s)) = false.
Proof.
  unfold Py.strip, Py.rstrip, Py.lstrip.
  set (u := Py.skip_spaces false s).
  destruct (skip_spaces_spec false s) as [Hu _]. fold u in Hu.
  destruct (skip_spaces_spec true (String.rev u)) as [Hv [p Hp]].
  split.
  - apply (starts_space_prefix false _ (String.rev p)).
    by rewrite <- rev_append, <- Hp, rev_involutive.
  - by rewrite rev_involutive.
Qed.

Lemma strip_of_clean s :
  Py.starts_space false s = false →
  Py.starts_space true (String.rev s) = false →
  Py.strip s = s.
Proof.
  intros H1 H2. unfold Py.strip, Py.rstrip, Py.lstrip.
  rewrite (skip_spaces_clean false s H1), (skip_spaces_clean true _ H2).
  apply rev_involutive.
Qed.

(** [str.strip] is idempotent. *)
Lemma strip_strip s : Py.strip (Py.strip s) = Py.strip s.
Proof. destruct (strip_clean s). by apply strip_of_clean. Qed.

Lemma strip_space_cons s : Py.strip (String " " s) = Py.strip s.
Proof. reflexivity. Qed.


(** *** Characters, splitting and replacing *)

Lemma has_char_append a s t :
  Py.has_char a (s +:+ t) = Py.has_char a s || Py.has_char a t.
Proof.
  induction s as [|b s IH]; [done|].
  rewrite append_cons. simpl. by rewrite IH, orb_assoc.
Qed.

Lemma join_cons2 sep o o' (l : list string) :
  Py.join sep (o :: o' :: l) = o +:+ sep +:+ Py.join sep (o' :: l).
Proof. reflexivity. Qed.

Lemma join_snoc sep (l : list string) o :
  l ≠ [] → Py.join sep (l ++ [o]) = Py.join sep l +:+ sep +:+ o.
Proof.
  induction l as [|x l IH]; [done|]. intros _.
  destruct l as [|y l]; [done|].
  change ((x :: y :: l) ++ [o]) with (x :: ((y :: l) ++ [o])).
  change ((y :: l) ++ [o]) with (y :: (l ++ [o])) at 1.
  rewrite join_cons2.
  change (y :: (l ++ [o])) with ((y :: l) ++ [o]).
  rewrite IH by done. by rewrite join_cons2, !append_assoc.
Qed.

Lemma has_char_join a sep (l : list string) :
  Py.has_char a sep = false →
  (∀ o, o ∈ l → Py.has_char a o = false) →
  Py.has_char a (Py.join sep l) = false.
Proof.
  intros Hsep. induction l as [|o l IH]; intros Hl; [done|].
  destruct l as [|o' l]; [apply Hl; by left|].
  rewrite join_cons2, !has_char_append, Hsep, (Hl o) by (by left).
  simpl. apply IH. intros x Hx. apply Hl. by right.
Qed.

Lemma split_max_cons_ne sep m a s :
  Ascii.eqb a sep = false →
  Py.split_max sep m (String a s) =
  match Py.split_max sep m s with
  | p :: ps => String a p :: ps
  | [] => [String a ""]
  end.
Proof.
  intros Hne. destruct m as [|m]; simpl; [by destruct s|by rewrite Hne].
Qed.

Lemma split_max_none sep m s :
  Py.has_char sep s = false → Py.split_max sep m s = [s].
Proof.
  induction s as [|a s IH]; [by destruct m|].
  intros Hs. simpl in Hs. apply orb_false_elim in Hs as [Ha Hs].
  rewrite split_max_cons_ne by done. by rewrite IH.
Qed.

Lemma split_max_sep sep m s t :
  Py.has_char sep s = false →
  Py.split_max sep (S m) (s +:+ String sep t) = s :: Py.split_max sep m t.
Proof.
  induction s as [|a s IH].
  - intros _. change ("" +:+ String sep t) with (String sep t).
    simpl. by rewrite Ascii.eqb_refl.
  - intros Hs. simpl in Hs. apply orb_false_elim in Hs as [Ha Hs].
    rewrite append_cons, split_max_cons_ne by done. by rewrite IH.
Qed.

Lemma prefix_has_char a (p s : string) :
  String.prefix p s = true → Py.has_char a p = true → Py.has_char a s = true.
Proof.
  revert s. induction p as [|b p IH]; intros s; [done|].
  destruct s as [|c s]; [done|]. simpl.
  destruct (ascii_dec b c) as [->|]; [|done].
  intros Hp [Hb|Hin]%orb_true_iff.
  - by rewrite Hb.
  - rewrite (IH s Hp Hin). apply orb_true_r.
Qed.

Lemma replace_from_none a (old new s : string) :
  Py.has_char a old = true → Py.has_char a s = false →
  Py.replace_from old new 0 s = s.
Proof.
  intros Hold. induction s as [|b s IH]; [done|].
  intros Hs. cbn [Py.replace_from].
  destruct (String.prefix old (String b s)) eqn:Hp.
  - by rewrite (prefix_has_char a _ _ Hp Hold) in Hs.
  - simpl in Hs. apply orb_false_elim in Hs as [_ Hs]. by rewrite IH.
Qed.

(** *** Whitespace next to a byte of the ASCII range *)

Lemma isspace2_low a b :
  nat_of_ascii a < 128 ∨ nat_of_ascii b < 128 → Py.isspace2 a b = false.
Proof.
  intros H. apply not_true_is_false. unfold Py.isspace2. intros Ht.
  rewrite andb_true_iff, orb_true_iff, !Nat.eqb_eq in Ht. lia.
Qed.

Lemma isspace3_low a b c :
  nat_of_ascii a < 128 ∨ nat_of_ascii b < 128 ∨ nat_of_ascii c < 128 →
  Py.isspace3 a b c = false.
Proof.
  intros H. apply not_true_is_false. unfold Py.isspace3. cbv zeta. intros Ht.
  rewrite !orb_true_iff, !andb_true_iff, !orb_true_iff, !andb_true_iff,
    !Nat.eqb_eq, !Nat.leb_le in Ht.
  lia.
Qed.

Lemma starts_space_app backwards s c1 c2 t :
  Py.starts_space backwards s = false → s ≠ "" →
  nat_of_ascii c1 < 128 → nat_of_ascii c2 < 128 →
  Py.starts_space backwards (s +:+ String c1 (String c2 t)) = false.
Proof.
  intros Hs Hne H1 H2.
  destruct s as [|a [|a2 [|a3 r]]]; [done|..]; rewrite !append_cons;
    change ("" +:+ ?x) with x; simpl in *.
  - apply orb_false_elim in Hs as [-> _]. simpl.
    destruct backwards; rewrite isspace2_low, isspace3_low by auto; done.
  - apply orb_false_elim in Hs as [-> [-> _]%orb_false_elim]. simpl.
    destruct backwards; rewrite isspace3_low by auto; done.
  - done.
Qed.

(** *** The texts [_place_map_marker] joins *)

Lemma low_comma : nat_of_ascii "," < 128.
Proof. change (nat_of_ascii ",") with 44. lia. Qed.

Lemma low_space : nat_of_ascii " " < 128.
Proof. change (nat_of_ascii " ") with 32. lia. Qed.

Lemma join_nonempty sep o (l : list string) : o ≠ "" → Py.join sep (o :: l) ≠ "".
Proof.
  intros Ho. destruct l as [|o' l]; [done|].
  rewrite join_cons2. destruct o; [done|]. by rewrite append_cons.
Qed.

Lemma join_starts (l : list string) :
  l ≠ [] →
  (∀ o, o ∈ l → Py.starts_space false o = false ∧ o ≠ "") →
  Py.starts_space false (Py.join ", " l) = false.
Proof.
  destruct l as [|o l]; [done|]. intros _ Hl.
  destruct (Hl o) as [Ho Hne]; [by left|].
  destruct l as [|o' l]; [done|].
  rewrite join_cons2.
  change (", " +:+ ?x) with (String "," (String " " x)).
  apply starts_space_app; [done|done|apply low_comma|apply low_space].
Qed.

Lemma join_ends (l : list string) :
  l ≠ [] →
  (∀ o, o ∈ l → Py.starts_space true (String.rev o) = false ∧ o ≠ "") →
  Py.starts_space true (String.rev (Py.join ", " l)) = false.
Proof.
  destruct l as [|x l _] using rev_ind; [done|]. intros _ Hl.
  destruct (Hl x) as [Hx Hne]; [apply elem_of_app; right; by left|].
  destruct l as [|y l]; [done|].
  rewrite join_snoc by done.
  rewrite rev_append, rev_append, append_assoc.
  change (String.rev ", ") with " ,".
  change (" ," +:+ ?t) with (String " " (String "," t)).
  apply starts_space_app; [done| |apply low_space|apply low_comma].
  intros E. by apply rev_nil_inv in E.
Qed.

(** The joined text has no whitespace at either end when its entries have
    none and only the first may be empty. *)
Lemma strip_join (l : list string) :
  (∀ o, o ∈ l → Py.starts_space false o = false ∧
                Py.starts_space true (String.rev o) = false) →
  (∀ o, o ∈ tail l → o ≠ "") →
  Py.strip (Py.join ", " l) = Py.join ", " l.
Proof.
  intros Hclean Htl. destruct l as [|o l]; [done|].
  simpl in Htl.
  destruct (decide (o = "")) as [->|Ho].
  - destruct l as [|o' l]; [done|].
    rewrite join_cons2.
    change ("" +:+ ", " +:+ ?x) with (String "," (String " " x)).
    set (J := Py.join ", " (o' :: l)).
    assert (HJ : J ≠ "") by (apply join_nonempty, Htl; by left).
    assert (Hend : Py.starts_space true (String.rev J) = false).
    { apply join_ends; [done|]. intros x Hx. split; [|by apply Htl].
      apply Hclean. by right. }
    apply strip_of_clean.
    + simpl. destruct J as [|c r]; [done|].
      apply isspace3_low. left. apply low_comma.
    + rewrite !rev_cons, append_assoc.
      change (" " +:+ ",") with (String " " (String "," "")).
      apply starts_space_app; [done| |apply low_space|apply low_comma].
      intros E. by apply rev_nil_inv in E.
  - assert (Hall : ∀ x, x ∈ o :: l → x ≠ "").
    { intros x [->|Hx]%elem_of_cons; [done|by apply Htl]. }
    apply strip_of_clean.
    + apply join_starts; [done|]. intros x Hx. split; [|by apply Hall].
      by apply Hclean.
    + apply join_ends; [done|]. intros x Hx. split; [|by apply Hall].
      by apply Hclean.
Qed.

Lemma length_join (l : list string) :
  List.length l ≤ S (String.length (Py.join ", " l)).
Proof.
  induction l as [|o l IH]; [simpl; lia|].
  destruct l as [|o' l]; [simpl; lia|].
  rewrite join_cons2, !length_append. simpl in *. lia.
Qed.

Lemma split_max_join (l : list string) m :
  l ≠ [] → List.length l ≤ S m →
  (∀ o, o ∈ l → Py.has_char "," o = false) →
  Py.split_max "," m (Py.join ", " l) =
  hd "" l :: map (String " ") (tail l).
Proof.
  revert m. induction l as [|o l IH]; [done|]. intros m _ Hm Hl.
  destruct l as [|o' l].
  - simpl. apply split_max_none. apply Hl. by left.
  - rewrite join_cons2.
    change (", " +:+ ?x) with (String "," (String " " x)).
    destruct m as [|m]; [simpl in Hm; lia|].
    rewrite split_max_sep by (apply Hl; by left).
    rewrite split_max_cons_ne by done.
    rewrite IH; [done|done|simpl in *; lia|].
    intros x Hx. apply Hl. by right.
Qed.

Lemma split_join (l : list string) :
  l ≠ [] →
  (∀ o, o ∈ l → Py.has_char "," o = false) →
  Py.split "," (Py.join ", " l) = hd "" l :: map (String " ") (tail l).
Proof.
  intros Hne Hl. unfold Py.split. apply split_max_join; [done| |done].
  apply length_join.
Qed.

(** The entries the handler keeps of the parts of the text. *)
Lemma kept_parts (l : list string) :
  (∀ o, o ∈ l → Py.strip o = o) →
  map (fun offense => " " +:+ Py.strip offense)
    (filter (fun offense => Py.truthy (Py.strip offense) = true)
       (hd "" l :: map (String " ") (tail l))) =
  map (String " ") (filter (fun o => Py.truthy o = true) (hd "" l :: tail l)).
Proof.
  intros Hl.
  assert (Htl : ∀ l' : list string, (∀ o, o ∈ l' → Py.strip o = o) →
    map (fun offense => " " +:+ Py.strip offense)
      (filter (fun offense => Py.truthy (Py.strip offense) = true)
         (map (String " ") l')) =
    map (String " ") (filter (fun o => Py.truthy o = true) l')).
  { induction l' as [|o l' IH]; intros Hl'; [done|].
    rewrite map_cons, !filter_cons, strip_space_cons, (Hl' o) by (by left).
    destruct (decide (Py.truthy o = true)).
    - rewrite !map_cons, strip_space_cons, (Hl' o) by (by left).
      rewrite IH; [done|]. intros x Hx. apply Hl'. by right.
    - apply IH. intros x Hx. apply Hl'. by right. }
  destruct l as [|o l]; [done|]. simpl hd. simpl tail.
  rewrite !filter_cons, (Hl o) by (by left).
  destruct (decide (Py.truthy o = true)).
  - rewrite !map_cons, (Hl o) by (by left).
    rewrite Htl; [done|]. intros x Hx. apply Hl. by right.
  - apply Htl. intros x Hx. apply Hl. by right.
Qed.

(** In a sorted list without repetition only the first entry can be the
    empty string. *)
Lemma sorted_blank_first (l : list string) :
  Sorted (fun x y => String.leb x y = true) l → NoDup l →
  ∀ o, o ∈ tail l → o ≠ "".
Proof.
  induction 1 as [|x l Hs IH Hhd]; intros Hnd o Ho; [by apply elem_of_nil in Ho|].
  simpl in Ho. apply NoDup_cons in Hnd as [Hx Hnd].
  destruct Hhd as [|y l Hxy]; [by apply elem_of_nil in Ho|].
  apply elem_of_cons in Ho as [->|Ho]; [|by apply IH].
  intros ->. apply Hx.
  destruct x; [by left|]. discriminate Hxy.
Qed.

(** *** What the handler shows *)

Lemma replace_label s :
  Py.has_char ":" s = false →
  Py.replace "Offense Types:" "" ("Offense Types: " +:+ s) = String " " s.
Proof.
  intros Hs.
  transitivity (String " " (Py.replace_from "Offense Types:" "" 0 s));
    [reflexivity|].
  by rewrite (replace_from_none ":").
Qed.

Lemma offenses_of_stripped (city_cases : list case) o :
  o ∈ offenses_of city_cases → ∃ x, o = Py.strip x.
Proof.
  unfold offenses_of, Py.sorted_set.
  rewrite sorted_perm, elem_of_remove_dups, list_elem_of_fmap.
  intros (c & -> & _). by eexists.
Qed.

Lemma offenses_of_sorted (city_cases : list case) :
  Sorted (fun x y => String.leb x y = true) (offenses_of city_cases) ∧
  NoDup (offenses_of city_cases).
Proof.
  unfold offenses_of, Py.sorted_set. split; [apply sorted_Sorted|].
  rewrite sorted_perm. apply NoDup_remove_dups.
Qed.

Lemma filter_truthy_blank_first (l : list string) :
  (∀ o, o ∈ tail l → o ≠ "") →
  filter (fun o => Py.truthy o = true) l =
  match l with
  | "" :: l' => l'
  | _ => l
  end.
Proof.
  intros Htl.
  assert (Hall : ∀ l' : list string, (∀ o, o ∈ l' → o ≠ "") →
                 filter (fun o => Py.truthy o = true) l' = l').
  { induction l' as [|o l' IH]; intros Hl'; [done|].
    rewrite filter_cons, decide_True.
    - f_equal. apply IH. intros x Hx. apply Hl'. by right.
    - specialize (Hl' o). destruct o; [by exfalso; apply Hl'; [left|]|done]. }
  destruct l as [|o l]; [done|]. simpl in Htl.
  rewrite filter_cons. destruct o as [|a o]; simpl.
  - by apply Hall.
  - f_equal. by apply Hall.
Qed.

(** X28. On texts without a line feed, a comma or a colon, the summary a
    marker shows on a click is built from the sorted set of the distinct
    non-empty offense types of the records grouped under its pair: the
    title is the pair, and the message lists these types one per line, or
    reads "No offenses recorded" when there are none. *)
Theorem marker_click_lists_offense_types city state (city_cases : list case) :
  Py.has_char (ascii_of_nat 10) city = false →
  Py.has_char (ascii_of_nat 10) state = false →
  (∀ o, o ∈ offenses_of city_cases →
        Py.has_char (ascii_of_nat 10) o = false ∧
        Py.has_char "," o = false ∧ Py.has_char ":" o = false) →
  let types :=
    filter (fun o => Py.truthy o = true) (offenses_of city_cases) in
  on_marker_click (info_text_of city state city_cases) =
  (Py.strip (city +:+ ", " +:+ state),
   "Offense Types:" +:+
   String (ascii_of_nat 10)
     match offenses_of city_cases, types with
     | [], _ => " No offenses recorded"
     | _ :: _, [] => "No offenses recorded"
     | _ :: _, _ :: _ =>
         Py.join (String (ascii_of_nat 10) "") (map (String " ") types)
     end) ∧
  (∀ x, x ∈ types ↔
        x ≠ "" ∧
        ∃ c : case,
          c ∈ city_cases ∧ Py.strip (Py.or_empty (offense_type c)) = x) ∧
  NoDup types ∧
  Sorted (fun x y => String.leb x y = true) types.
Proof.
  intros Hcity Hstate Hoff types.
  destruct (offenses_of_sorted city_cases) as [Hsorted Hnd].
  pose proof (sorted_blank_first _ Hsorted Hnd) as Hblank.
  pose proof (offenses_of_stripped city_cases) as Hstripped.
  split; [|split_and!].
  - unfold on_marker_click, on_marker_click_try, info_text_of. cbv zeta.
    subst types.
    set (l := offenses_of city_cases) in *.
    set (text := match l with
                 | [] => "No offenses recorded"
                 | _ :: _ => Py.join ", " l
                 end).
    assert (Htext : Py.has_char (ascii_of_nat 10) text = false).
    { subst text. destruct l as [|o l']; [reflexivity|].
      apply has_char_join; [reflexivity|]. intros x Hx. by apply Hoff. }
    replace (city +:+ ", " +:+ state +:+
             String (ascii_of_nat 10) "Offense Types: " +:+ text)
      with ((city +:+ ", " +:+ state) +:+
            String (ascii_of_nat 10) ("Offense Types: " +:+ text))
      by (by rewrite !append_assoc).
    rewrite split_max_sep, (split_max_none _ 1);
      [|by rewrite has_char_append, Htext
       |by rewrite !has_char_append, Hcity, Hstate].
    cbv beta iota. subst text. clearbody l.
    destruct l as [|o l'] eqn:Hl; [reflexivity|].
    assert (Hne : l ≠ []) by (by rewrite Hl).
    rewrite <- Hl in *. clear Hl.
    rewrite replace_label
      by (apply has_char_join; [reflexivity|]; intros x Hx; by apply Hoff).
    rewrite strip_space_cons.
    rewrite strip_join; [|intros x [y ->]%Hstripped; apply strip_clean|done].
    rewrite split_join by (try done; intros x Hx; by apply Hoff).
    rewrite kept_parts
      by (intros x [y ->]%Hstripped; apply strip_strip).
    replace (hd "" l :: tail l) with l by (by destruct l).
    f_equal. f_equal. f_equal.
    destruct l as [|o1 l1]; [done|].
    by destruct (filter _ (o1 :: l1)).
  - intros x. unfold types, offenses_of, Py.sorted_set.
    rewrite list_elem_of_filter, sorted_perm, elem_of_remove_dups,
      list_elem_of_fmap.
    split.
    + intros [Hx (c & -> & [_ Hc]%list_elem_of_filter)].
      split; [|by exists c]. intros E. by rewrite E in Hx.
    + intros [Hx (c & Hc & <-)]. split.
      * by destruct (Py.strip _).
      * exists c. split; [done|]. apply list_elem_of_filter. split; [|done].
        destruct (offense_type c) as [[|a s]|]; try done.
    - by apply NoDup_filter.
    - unfold types. rewrite filter_truthy_blank_first by done.
      destruct (offenses_of city_cases) as [|o l']; [constructor|].
      destruct o; [by apply Sorted_inv in Hsorted as [? _]|done].
Qed.

End Strings.

(** ** The further properties on the scenarios *)

Import Examples.

Lemma idle_initial_world cases cache : idle (initial_world (coord := Z) cases cache).
Proof. split; [reflexivity|left; reflexivity]. Qed.

Lemma widget_initial_world cases cache :
  is_Some (map_widget (initial_world (coord := Z) cases cache)).
Proof. by eexists. Qed.

Lemma complete_jackson_run :
  complete (run env_jackson full_run
              (load_map_markers env_jackson (initial_world fraud_and_theft []))).
Proof. split; vm_compute; reflexivity. Qed.

Lemma no_refresh_nil : no_refresh [].
Proof. apply not_elem_of_nil. Qed.

Lemma refresh_final_markers_witness :
  let w := initial_world (coord := Z) fraud_and_theft [] in
  let final := run env_jackson full_run (load_map_markers env_jackson w) in
  idle w ∧ is_Some (map_widget w) ∧ no_refresh full_run ∧ complete final ∧
  map_markers final !! ("Jackson", "MS") =
  Some (marker_for (group_cases fraud_and_theft) ("Jackson", "MS") jackson).
Proof.
  split_and!;
    [apply idle_initial_world|apply widget_initial_world
    |exact no_refresh_full_run|exact complete_jackson_run|].
  exact (refresh_final_markers env_jackson _ full_run ("Jackson", "MS")
           (idle_initial_world _ _) (widget_initial_world _ _)
           no_refresh_full_run complete_jackson_run).
Defined.



Lemma refresh_on_read_failure_witness :
  map_widget showing_jackson = Some [jackson_marker] ∧
  case_read_fault env_unreadable = Some SqliteError ∧
  map_widget (load_map_markers env_unreadable showing_jackson)
  = Some [jackson_marker] ∧
  map_markers (load_map_markers env_unreadable showing_jackson) = ∅ ∧
  map_widget (load_map_markers env_unreadable_clearing showing_jackson)
  = Some [].
Proof.
  pose proof (refresh_on_read_failure env_unreadable showing_jackson
                SqliteError [jackson_marker] eq_refl eq_refl) as H.
  pose proof (refresh_on_read_failure env_unreadable_clearing showing_jackson
                SqliteError [jackson_marker] eq_refl eq_refl) as H'.
  split_and!; [reflexivity|reflexivity| | |].
  - exact (proj1 H).
  - exact (proj1 (proj2 H)).
  - exact (proj1 H').
Defined.

Lemma refresh_provider_calls_witness :
  let w := initial_world (coord := Z) fraud_and_theft [] in
  let final := run env_jackson full_run (load_map_markers env_jackson w) in
  idle w ∧ is_Some (map_widget w) ∧ no_refresh full_run ∧ complete final ∧
  (provider_calls final).*2 = ["Jackson, MS, USA"].
Proof.
  split_and!;
    [apply idle_initial_world|apply widget_initial_world
    |exact no_refresh_full_run|exact complete_jackson_run|].
  exact (refresh_provider_calls env_jackson _ full_run
           (idle_initial_world _ _) (widget_initial_world _ _)
           no_refresh_full_run complete_jackson_run).
Defined.

Lemma NoDup_jackson_keys :
  NoDup (location_keys
           (cache_misses env_jackson []
              (group_keys (group_cases
                 (get_all_cases_db (case_read_fault env_jackson)
                    (case_log (initial_world (coord := Z) fraud_and_theft []))))))).
Proof. apply (bool_decide_unpack _). vm_compute. exact I. Qed.

Lemma refresh_caches_found_locations_witness :
  let w := initial_world (coord := Z) fraud_and_theft [] in
  let final := run env_jackson full_run (load_map_markers env_jackson w) in
  idle w ∧ is_Some (map_widget w) ∧ no_refresh full_run ∧ complete final ∧
  get_cached_location_db None "Jackson|MS" (geocache final) = Some jackson.
Proof.
  split_and!;
    [apply idle_initial_world|apply widget_initial_world
    |exact no_refresh_full_run|exact complete_jackson_run|].
  refine (proj1 (refresh_caches_found_locations env_jackson _ full_run
                   (idle_initial_world _ _) (widget_initial_world _ _)
                   no_refresh_full_run complete_jackson_run NoDup_jackson_keys)
            ("Jackson", "MS") jackson _ _).
  - apply list_elem_of_In. vm_compute. by left.
  - split; reflexivity.
Defined.

Lemma complete_jackson_again :
  complete (run env_jackson []
              (load_map_markers env_jackson
                 (run env_jackson full_run
                    (load_map_markers env_jackson
                       (initial_world fraud_and_theft []))))).
Proof. split; vm_compute; reflexivity. Qed.

Lemma refresh_twice_same_markers_witness :
  let w := initial_world (coord := Z) fraud_and_theft [] in
  let first := run env_jackson full_run (load_map_markers env_jackson w) in
  idle w ∧ is_Some (map_widget w) ∧ no_refresh full_run ∧ complete first ∧
  no_refresh [] ∧ complete (run env_jackson [] (load_map_markers env_jackson first)) ∧
  map_markers (run env_jackson [] (load_map_markers env_jackson first)) =
  map_markers first.
Proof.
  split_and!;
    [apply idle_initial_world|apply widget_initial_world
    |exact no_refresh_full_run|exact complete_jackson_run
    |exact no_refresh_nil|exact complete_jackson_again|].
  exact (refresh_twice_same_markers env_jackson _ full_run []
           (idle_initial_world _ _) (widget_initial_world _ _)
           no_refresh_full_run complete_jackson_run
           no_refresh_nil complete_jackson_again NoDup_jackson_keys).
Defined.

Lemma refresh_leaves_idle_witness :
  let w := initial_world (coord := Z) fraud_and_theft [] in
  let final := run env_jackson full_run (load_map_markers env_jackson w) in
  idle w ∧ is_Some (map_widget w) ∧ no_refresh full_run ∧ complete final ∧
  idle final ∧ geocoding_queue final = [].
Proof.
  pose proof (refresh_leaves_idle env_jackson _ full_run
                (idle_initial_world fraud_and_theft [])
                (widget_initial_world _ _)
                no_refresh_full_run complete_jackson_run) as H.
  split_and!;
    [apply idle_initial_world|apply widget_initial_world
    |exact no_refresh_full_run|exact complete_jackson_run| |].
  - exact (proj1 H).
  - exact (proj1 (proj2 H)).
Defined.

Lemma refresh_reuses_live_worker_witness :
  let w' := load_map_markers env_jackson busy in
  is_Some (map_widget busy) ∧ is_alive (geocoding_thread busy) = true ∧
  geocoding_thread w' = Running ∧ _geocoded_results w' = Some [] ∧
  geocoding_queue w' = [("Jackson", "MS")].
Proof.
  assert (Hw : is_Some (map_widget busy)) by (by eexists).
  pose proof (refresh_reuses_live_worker env_jackson busy Hw eq_refl) as H.
  split_and!; [exact Hw|reflexivity| | |].
  - exact (proj1 H).
  - exact (proj1 (proj2 H)).
  - exact (proj1 (proj2 (proj2 H))).
Defined.

Lemma refresh_after_clearing_witness :
  let w' := load_map_markers env_jackson
              (clear_application_data showing_jackson office).1 in
  map_widget showing_jackson = Some [jackson_marker] ∧
  markers_view w' = (Some [jackson_marker], ∅) ∧
  geocoding_queue w' = [].
Proof.
  pose proof (refresh_after_clearing env_jackson showing_jackson office
                [jackson_marker] eq_refl) as H.
  split_and!; [reflexivity| |].
  - exact (proj1 H).
  - exact (proj1 (proj2 H)).
Defined.

Lemma deleted_location_loses_marker_witness :
  let w := initial_world (coord := Z) one_case cached_jackson in
  let w' :=
    set_case_log (delete_case_db as_integer None (IdStr "1") (case_log w)).2 w in
  idle w ∧ is_Some (map_widget w) ∧ no_refresh [] ∧
  bind_id as_integer (IdStr "1") = Return (Some 1%Z) ∧
  complete (run env_jackson [] (load_map_markers env_jackson w')) ∧
  (∀ c, c ∈ case_log w → location_of c = Some ("Jackson", "MS") →
        case_id c = 1%Z) ∧
  map_markers (run env_jackson [] (load_map_markers env_jackson w'))
    !! ("Jackson", "MS") = None.
Proof.
  assert (Hc : complete
                 (run env_jackson []
                    (load_map_markers env_jackson
                       (set_case_log
                          (delete_case_db as_integer None (IdStr "1")
                             (case_log (initial_world one_case cached_jackson))).2
                          (initial_world one_case cached_jackson)))))
    by (split; vm_compute; reflexivity).
  assert (Honly : ∀ c, c ∈ case_log (initial_world (coord := Z) one_case cached_jackson) →
                       location_of c = Some ("Jackson", "MS") → case_id c = 1%Z).
  { intros c Hin _. apply list_elem_of_In in Hin. by destruct Hin as [<-|[]]. }
  split_and!;
    [apply idle_initial_world|apply widget_initial_world
    |exact no_refresh_nil|reflexivity|exact Hc|exact Honly|].
  exact (deleted_location_loses_marker as_integer env_jackson _ []
           (IdStr "1") 1%Z ("Jackson", "MS")
           (idle_initial_world _ _) (widget_initial_world _ _)
           no_refresh_nil eq_refl Hc Honly).
Defined.

Lemma user_pref_round_trip_witness :
  loads (dumps (JList [JStr "MS"])) = Return (JList [JStr "MS"]) ∧
  dumps (JList [JStr "MS"]) ≠ "" ∧
  get_user_pref nonzero loads None "map_focal_state" (JStr "")
    (set_user_pref dumps None "map_focal_state" (JStr "MS") office)
  = Return (JStr "MS").
Proof.
  split_and!; [reflexivity|discriminate|].
  apply (user_pref_round_trip nonzero dumps loads); [reflexivity|discriminate].
Defined.

Lemma get_user_pref_default_witness :
  (@None exn ≠ None ∨ select_setting "combo_userpref_map_focal_state" office = None) ∧
  get_user_pref nonzero loads None "map_focal_state" (JStr "") office
  = Return (JStr "").
Proof.
  split; [right; reflexivity|].
  apply (get_user_pref_default nonzero loads). right. reflexivity.
Defined.

Lemma visible_columns_exist_witness :
  get_visible_treeview_columns nonzero loads None tree_columns office =
  Return ["case_number"; "notes"] ∧
  ∀ s, s ∈ ["case_number"; "notes"] → s ∈ tree_columns ∧ s ≠ "id".
Proof.
  split; [reflexivity|].
  exact (proj1 (visible_columns_exist nonzero loads None tree_columns office
                  ["case_number"; "notes"] eq_refl)).
Defined.

Lemma visible_columns_round_trip_witness :
  let stored := JList [JList (map JStr ["case_number"; "notes"])] in
  loads (dumps stored) = Return stored ∧ dumps stored ≠ "" ∧
  get_visible_treeview_columns nonzero loads None tree_columns
    (set_visible_treeview_columns dumps None ["case_number"; "notes"] []) =
  Return ["case_number"; "notes"].
Proof.
  split_and!; [reflexivity|discriminate|].
  refine (visible_columns_round_trip nonzero dumps loads tree_columns
            ["case_number"; "notes"] [] eq_refl _).
  discriminate.
Defined.

Lemma map_focal_state_round_trip_witness :
  loads (dumps (JList [JStr "MS"])) = Return (JList [JStr "MS"]) ∧
  dumps (JList [JStr "MS"]) ≠ "" ∧
  get_map_focal_state nonzero loads None
    (set_map_focal_state dumps None (JStr "MS") office) = Return (JStr "MS").
Proof.
  split_and!; [reflexivity|discriminate|].
  refine (proj1 (map_focal_state_round_trip nonzero dumps loads (JStr "MS")
                   tree_columns office eq_refl _)).
  discriminate.
Defined.

Lemma clearing_wipes_data_witness :
  let w := initial_world (coord := Z) fraud_and_theft cached_jackson in
  let r := clear_application_data_prompt toy_hash None (Some "hunter2") true
             w office in
  Py.truthy "hunter2" = true ∧ verify_password toy_hash None "hunter2" office = true ∧
  case_log r.1 = [] ∧ geocache r.1 = [] ∧
  get_combo_values_db loads None "userpref_treeview_columns" r.2 = JList [].
Proof.
  pose proof (clearing_wipes_data nonzero toy_hash loads None "hunter2"
                (initial_world (coord := Z) fraud_and_theft cached_jackson) office
                eq_refl eq_refl) as H.
  split_and!; [reflexivity|reflexivity| | |].
  - exact (proj1 H).
  - exact (proj1 (proj2 H)).
  - exact (proj1 (proj2 (proj2 H)) None "userpref_treeview_columns").
Defined.

Lemma clearing_needs_password_witness :
  let w := initial_world (coord := Z) fraud_and_theft cached_jackson in
  clear_application_data_prompt toy_hash None (Some "hunter2") true w office
  ≠ (w, office) ∧
  ∃ p, Some "hunter2" = Some p ∧ Py.truthy p = true ∧
       verify_password toy_hash None p office = true ∧ true = true.
Proof.
  assert (H : clear_application_data_prompt toy_hash None (Some "hunter2") true
                (initial_world (coord := Z) fraud_and_theft cached_jackson) office
              ≠ (initial_world fraud_and_theft cached_jackson, office))
    by discriminate.
  split; [exact H|].
  exact (clearing_needs_password toy_hash None (Some "hunter2") true _ office H).
Defined.

Lemma change_password_prompt_sets_password_witness :
  let st' := change_password_prompt toy_hash None None "c3d4"
               (Some "hunter2") (Some "swordfish") (Some "swordfish") office in
  Py.truthy "hunter2" = true ∧ verify_password toy_hash None "hunter2" office = true ∧
  Py.truthy "swordfish" = true ∧
  verify_password toy_hash None "swordfish" st' = true.
Proof.
  split_and!; [reflexivity|reflexivity|reflexivity|].
  exact (proj1 (change_password_prompt_sets_password toy_hash loads None "c3d4"
                  "hunter2" "swordfish" office eq_refl eq_refl eq_refl)).
Defined.

Lemma change_password_needs_old_password_witness :
  change_password_prompt toy_hash None None "c3d4"
    (Some "hunter2") (Some "swordfish") (Some "swordfish") office ≠ office ∧
  ∃ old new, Some "hunter2" = Some old ∧ Some "swordfish" = Some new ∧
             Some "swordfish" = Some new ∧ Py.truthy new = true ∧
             verify_password toy_hash None old office = true.
Proof.
  assert (H : change_password_prompt toy_hash None None "c3d4"
                (Some "hunter2") (Some "swordfish") (Some "swordfish") office
              ≠ office) by discriminate.
  split; [exact H|].
  exact (change_password_needs_old_password toy_hash None None "c3d4"
           (Some "hunter2") (Some "swordfish") (Some "swordfish") office H).
Defined.

Lemma marker_click_lists_offense_types_witness :
  Py.has_char (ascii_of_nat 10) "Jackson" = false ∧
  Py.has_char (ascii_of_nat 10) "MS" = false ∧
  (∀ o, o ∈ offenses_of fraud_and_theft →
        Py.has_char (ascii_of_nat 10) o = false ∧
        Py.has_char "," o = false ∧ Py.has_char ":" o = false) ∧
  on_marker_click (info_text_of "Jackson" "MS" fraud_and_theft) =
  ("Jackson, MS",
   "Offense Types:" +:+ newline +:+ " Fraud" +:+ newline +:+ " Theft").
Proof.
  assert (H : ∀ o, o ∈ offenses_of fraud_and_theft →
                   Py.has_char (ascii_of_nat 10) o = false ∧
                   Py.has_char "," o = false ∧ Py.has_char ":" o = false).
  { intros o Ho. apply list_elem_of_In in Ho.
    destruct Ho as [<-|[<-|[]]]; split_and!; reflexivity. }
  split_and!; [reflexivity|reflexivity|exact H|].
  exact (proj1 (marker_click_lists_offense_types "Jackson" "MS"
                  fraud_and_theft eq_refl eq_refl H)).
Defined.

(** Whitespace outside the ASCII range is trimmed as well. *)
Example strip_unicode_whitespace :
  Py.strip (nbsp +:+ " Jackson" +:+ em_space +:+ newline) = "Jackson" ∧
  Py.strip (em_space +:+ nbsp) = "" ∧
  get_unique_field_values offense_type
    [Case 1 (Some "Jackson") (Some "MS") (Some ("Fraud" +:+ nbsp));
     Case 2 (Some "Jackson") (Some "MS") (Some em_space)]
  = ["Fraud"].
Proof. vm_compute. done. Qed.

(** An item id of the Treeview is no number: [delete_case_db] deletes
    nothing and returns [True]; an [int] beyond 64 bits makes it return
    [False]. *)
Example delete_case_db_other_ids :
  delete_case_db as_integer None (IdStr "I001") one_case = (true, one_case) ∧
  delete_case_db as_integer None (IdInt (2 ^ 63)) one_case = (false, one_case) ∧
  delete_case_db as_integer None (IdStr "1") one_case = (true, []) ∧
  delete_case_db as_integer None (IdInt 1) one_case = (true, []).
Proof. vm_compute. done. Qed.

(** Without the method [delete_all_markers] the marker of an earlier
    refresh stays on the widget beside the one the refresh places, while
    [map_markers] holds one marker for the pair. *)
Example refresh_keeps_widget_markers :
  let final := load_map_markers env_jackson showing_jackson in
  map_widget final = Some [jackson_marker; jackson_marker] ∧
  size (map_markers final) = 1 ∧
  map_widget (load_map_markers env_unreadable_clearing showing_jackson)
  = Some [].
Proof. vm_compute. done. Qed.
